(** * EduTutor AI: quiz generation, grading and analytics

    A shallow embedding of [ai_engine.py] (item generator and submission
    grader) and of the aggregation code of [utils.py] and [app.py] (average
    percentage, weak areas of the PDF report), with the properties of the
    natural-language specification stated over it.

    Conventions of the embedding.
    - A Python [str] is a [string]; each character is read as the code point
      of the same number (0..255), and [str.strip], [str.lower] and
      [str.split] below are Python's on that range.
    - A quiz item is a Python dict with the keys the generator writes; a key
      that is absent is [None] in the record.  [item[k]] on an absent key
      raises [KeyError]: the embedding returns [None].
    - The answers dict maps keys to strings, as the quiz form stores them;
      on a string [str(...)] is the identity.
    - [random.choice] reads an explicit random state.
    - Integer parameters are [Z].  The score and total columns are int64
      columns: their sums wrap around.  The quotient of the sums and its
      product with 100 are binary64 operations ([PrimFloat]), whose results
      are related to rational numbers through [SpecFloat].
    - The sort inside pandas' [value_counts] is a parameter.  The state of
      the interpreter around the grader (hash salt, [random], [_llm]) is
      explicit where a property is about it. *)

From Stdlib Require Import ZArith Ascii String List Bool Lia PrimFloat Uint63.
From Stdlib Require Import Sorted Permutation DecimalString DecimalNat.
From Stdlib Require Import QArith Qabs Qpower Lqa Floats.
From stdpp Require Import base option list gmap strings.



(** ** Python strings *)

Module PyStr.

Definition ord (c : ascii) : nat := nat_of_ascii c.

Definition between (lo hi n : nat) : bool := (lo <=? n)%nat && (n <=? hi)%nat.

(** [str.isspace] on one character. *)
Definition is_space (c : ascii) : bool :=
  let n := ord c in
  between 9 13 n || between 28 32 n || (n =? 133)%nat || (n =? 160)%nat.

(** The character class [[A-Za-z0-9]] of the tokenizer's regular expression. *)
Definition is_alnum (c : ascii) : bool :=
  let n := ord c in
  between 65 90 n || between 97 122 n || between 48 57 n.

Definition is_upper (c : ascii) : bool :=
  let n := ord c in
  between 65 90 n || (between 192 222 n && negb (n =? 215)%nat).

Definition lower_char (c : ascii) : ascii :=
  if is_upper c then ascii_of_nat (ord c + 32) else c.

(** [s.lower()] *)
Fixpoint lower (s : string) : string :=
  match s with
  | EmptyString => EmptyString
  | String c s' => String (lower_char c) (lower s')
  end.

Definition is_empty (s : string) : bool :=
  match s with EmptyString => true | String _ _ => false end.

Fixpoint lstrip (s : string) : string :=
  match s with
  | EmptyString => EmptyString
  | String c s' => if is_space c then lstrip s' else s
  end.

Fixpoint rstrip (s : string) : string :=
  match s with
  | EmptyString => EmptyString
  | String c s' =>
      let r := rstrip s' in
      if is_space c && is_empty r then EmptyString else String c r
  end.

(** [s.strip()] *)
Definition strip (s : string) : string := rstrip (lstrip s).

Definition flush (cur : string) : list string :=
  if is_empty cur then [] else [cur].

(** The maximal runs of characters satisfying [p], left to right; [cur] is
    the run being read. *)
Fixpoint runs (p : ascii -> bool) (cur : string) (s : string) : list string :=
  match s with
  | EmptyString => flush cur
  | String c s' =>
      if p c then runs p (cur +:+ String c EmptyString) s'
      else flush cur ++ runs p EmptyString s'
  end.

(** [re.findall(r"[A-Za-z0-9]+", s)] *)
Definition findall_alnum (s : string) : list string := runs is_alnum EmptyString s.

(** [s.split()]: split at runs of whitespace, no empty pieces. *)
Definition split_ws (s : string) : list string :=
  runs (fun c => negb (is_space c)) EmptyString s.

(** [s.split(sep)] for a one-character separator: empty pieces are kept. *)
Fixpoint split_char (sep : ascii) (s : string) : list string :=
  match s with
  | EmptyString => [EmptyString]
  | String c s' =>
      if Ascii.eqb c sep then EmptyString :: split_char sep s'
      else match split_char sep s' with
           | [] => [String c EmptyString]
           | h :: t => String c h :: t
           end
  end.

(** [sep.join(l)] *)
Fixpoint join (sep : string) (l : list string) : string :=
  match l with
  | [] => EmptyString
  | [x] => x
  | x :: rest => x +:+ sep +:+ join sep rest
  end.

(** [str(n)] for a non-negative integer. *)
Definition str_of_nat (n : nat) : string :=
  NilEmpty.string_of_uint (Nat.to_uint n).

(** [ord(s)]: defined on strings of one character. *)
Definition ord_str (s : string) : option Z :=
  match s with
  | String c EmptyString => Some (Z.of_nat (ord c))
  | _ => None
  end.

(** [l[i]] with Python's negative indices; [None] is [IndexError]. *)
Definition py_index {A} (l : list A) (i : Z) : option A :=
  let n := Z.of_nat (length l) in
  if (0 <=? i)%Z && (i <? n)%Z then l !! Z.to_nat i
  else if (- n <=? i)%Z && (i <? 0)%Z then l !! Z.to_nat (n + i)
  else None.

End PyStr.
Import PyStr.

(** ** Data model *)

(** A quiz item (a dict).  [_generate_mcq] writes type, question, options,
    answer, explanation and topic_tag; [_generate_short] writes type,
    question, ideal_answer, keywords and topic_tag. *)
Record QuizItem := mkItem {
  type : string;
  question : string;
  options : option (list string);
  answer : option string;
  explanation : option string;
  ideal_answer : option string;
  keywords : option (list string);
  topic_tag : option string
}.

(** The locals [score], [feedback_list], [weak_areas] of the grading loop. *)
Record GradeState := mkState {
  st_score : Z;
  st_feedback : list string;
  st_weak : list string
}.

(** The dict returned by [grade_quiz_submission]. *)
Record GradeResult := mkResult {
  score : Z;
  total : Z;
  feedback_list : list string;
  weak_areas : list string
}.

(** ** Submission grader ([grade_quiz_submission]) *)

(** [f"q_{idx}"] *)
Definition ans_key (idx : nat) : string := "q_" +:+ str_of_nat idx.

(** [str(answers.get(ans_key, "")).strip()] *)
Definition user_answer (answers : gmap string string) (idx : nat) : string :=
  strip (default "" (answers !! ans_key idx)).

(** [f"Q{idx+1}"] *)
Definition qlabel (idx : nat) : string := "Q" +:+ str_of_nat (idx + 1).

(** [set(re.findall(r"[A-Za-z0-9]+", user_ans.lower()))] *)
Definition user_tokens (user_ans : string) : gset string :=
  list_to_set (findall_alnum (lower user_ans)).

(** [sum(1 for kw in keywords if kw.lower() in user_tokens)] *)
Definition keyword_hits (kws : list string) (toks : gset string) : nat :=
  length (filter (fun kw => lower kw ∈ toks) kws).

(** [[kw for kw in keywords if kw.lower() not in user_tokens]] *)
Definition missed (kws : list string) (toks : gset string) : list string :=
  filter (fun kw => lower kw ∉ toks) kws.

(** [a or b] on lists. *)
Definition list_or {A} (a b : list A) : list A :=
  match a with [] => b | _ => a end.

(** The body of the loop, for one [(idx, item)]. *)
Definition grade_item (answers : gmap string string) (idx : nat)
    (item : QuizItem) (st : GradeState) : option GradeState :=
  let user_ans := user_answer answers idx in
  if String.eqb (type item) "mcq" then
    a ← answer item;
    let correct := strip a in
    if String.eqb user_ans correct then
      Some (mkState (st_score st + 1)
              (st_feedback st ++ [qlabel idx +:+ ": Correct."])
              (st_weak st))
    else
      e ← explanation item;
      Some (mkState (st_score st)
              (st_feedback st ++ [qlabel idx +:+ ": Incorrect. " +:+ e])
              (st_weak st ++ [default "" (topic_tag item)]))
  else
    let kws := default [] (keywords item) in
    let toks := user_tokens user_ans in
    let hits := keyword_hits kws toks in
    if (Nat.max 1 (length kws / 2) <=? hits)%nat then
      Some (mkState (st_score st + 1)
              (st_feedback st ++ [qlabel idx +:+ ": Good. Covered key points."])
              (st_weak st))
    else
      let miss := missed kws toks in
      Some (mkState (st_score st)
              (st_feedback st ++
                 [qlabel idx +:+ ": Needs improvement. Mention: " +:+
                  (match miss with [] => "more specifics" | _ => join ", " miss end)
                  +:+ "."])
              (st_weak st ++ list_or miss [default "" (topic_tag item)])).

(** [for idx, item in enumerate(items)], from index [idx] on. *)
Fixpoint grade_loop (answers : gmap string string) (idx : nat)
    (items : list QuizItem) (st : GradeState) : option GradeState :=
  match items with
  | [] => Some st
  | item :: rest =>
      st' ← grade_item answers idx item st;
      grade_loop answers (S idx) rest st'
  end.

Definition grade_quiz_submission (items : list QuizItem)
    (answers : gmap string string) : option GradeResult :=
  st ← grade_loop answers 0 items (mkState 0 [] []);
  Some (mkResult (st_score st) (Z.of_nat (length items)) (st_feedback st)
          (filter (fun w => w ≠ "") (st_weak st))).

(** ** Item generator *)

(** The state read by [random.choice]: [tape] is the sequence of draws and
    [cursor] the position of the next one.  Every sequence of draws is some
    tape. *)
Record RandomState := mkRandom {
  tape : nat -> nat;
  cursor : nat
}.

(** [random.choice(seq)]; [None] is the [IndexError] on an empty sequence. *)
Definition random_choice {A} (seq : list A) (rs : RandomState)
    : option (A * RandomState) :=
  x ← seq !! (tape rs (cursor rs) mod length seq)%nat;
  Some (x, mkRandom (tape rs) (S (cursor rs))).

Definition mcq_options (topic subject : string) : list string :=
  [ "Option A related to " +:+ topic;
    "Option B about " +:+ subject;
    "Option C factual detail";
    "Option D common misconception" ].

(** One iteration of the loop of [_generate_mcq]. *)
Definition mcq_item (topic subject difficulty : string) (rs : RandomState)
    : option (QuizItem * RandomState) :=
  '(correct, rs') ← random_choice ["A"; "B"; "C"; "D"] rs;
  let stem := subject +:+ ": On '" +:+ topic +:+
              "', which option is correct? (Level: " +:+ difficulty +:+ ")" in
  let opts := mcq_options topic subject in
  oc ← ord_str correct;
  oa ← ord_str "A";
  ans ← py_index opts (oc - oa);
  Some (mkItem "mcq" stem (Some opts) (Some ans)
          (Some ("The correct answer is " +:+ correct +:+
                 " due to core concept alignment."))
          None None (Some topic), rs').

Fixpoint generate_mcq_loop (topic subject difficulty : string) (n : nat)
    (rs : RandomState) : option (list QuizItem * RandomState) :=
  match n with
  | O => Some ([], rs)
  | S n' =>
      '(item, rs1) ← mcq_item topic subject difficulty rs;
      '(rest, rs2) ← generate_mcq_loop topic subject difficulty n' rs1;
      Some (item :: rest, rs2)
  end.

(** [for i in range(n)] runs [max(0, n)] times. *)
Definition _generate_mcq (topic subject difficulty : string) (n : Z)
    (rs : RandomState) : option (list QuizItem * RandomState) :=
  generate_mcq_loop topic subject difficulty (Z.to_nat n) rs.

Definition starters : list string :=
  [ "Explain the concept of";
    "Give a short definition of";
    "List two key points about";
    "Describe a real-world application of" ].

(** [[kw.strip() for kw in topic.split() if len(kw) > 3][:4]] *)
Definition topic_keywords (topic : string) : list string :=
  take 4 (map strip (filter (fun kw => (3 < String.length kw)%nat) (split_ws topic))).

(** One iteration of the loop of [_generate_short]. *)
Definition short_item (topic subject difficulty : string) (rs : RandomState)
    : option (QuizItem * RandomState) :=
  '(starter, rs') ← random_choice starters rs;
  let q := starter +:+ " " +:+ topic +:+ " in " +:+ subject +:+
           ". (Level: " +:+ difficulty +:+ ")" in
  let ideal := "An ideal answer should mention the core definition, one example, and a "
               +:+ lower difficulty +:+ " nuance." in
  Some (mkItem "short" q None None None (Some ideal)
          (Some (topic_keywords topic)) (Some topic), rs').

Fixpoint generate_short_loop (topic subject difficulty : string) (n : nat)
    (rs : RandomState) : option (list QuizItem * RandomState) :=
  match n with
  | O => Some ([], rs)
  | S n' =>
      '(item, rs1) ← short_item topic subject difficulty rs;
      '(rest, rs2) ← generate_short_loop topic subject difficulty n' rs1;
      Some (item :: rest, rs2)
  end.

Definition _generate_short (topic subject difficulty : string) (n : Z)
    (rs : RandomState) : option (list QuizItem * RandomState) :=
  generate_short_loop topic subject difficulty (Z.to_nat n) rs.

(** [use_llm] is accepted and not read. *)
Definition generate_quiz_items (topic subject difficulty : string)
    (num_mcq num_short : Z) (use_llm : bool) (rs : RandomState)
    : option (list QuizItem * RandomState) :=
  '(mcqs, rs1) ← _generate_mcq topic subject difficulty num_mcq rs;
  '(shorts, rs2) ← _generate_short topic subject difficulty num_short rs1;
  Some (mcqs ++ shorts, rs2).

(** ** Analytics ([export_pdf_report], [teacher_dashboard]) *)

(** One row of the result store.  An empty cell of the CSV file is read back
    as NaN: [None]. *)
Record ResultRecord := mkRow {
  row_email : string;
  row_student_name : string;
  row_subject : string;
  row_topic : string;
  row_difficulty : string;
  row_quiz_type : string;
  row_score : Z;
  row_total : Z;
  row_timestamp : string;
  row_weak_areas : option string;
  row_feedback_summary : option string
}.

(** The score and total columns are int64 columns: a cell is an integer
    from [-2^63] to [2^63 - 1], and arithmetic on them wraps around in two's
    complement. *)
Definition wrap64 (z : Z) : Z := ((z + 2 ^ 63) mod 2 ^ 64 - 2 ^ 63)%Z.

(** [df[col].sum()] on an int64 column: the sum of the cells, wrapped. *)
Definition col_sum (col : ResultRecord -> Z) (df : list ResultRecord) : Z :=
  wrap64 (foldr Z.add 0%Z (map col df)).

(** An int64 as a binary64 number: the nearest one (the integer itself when
    [|z| <= 2^53]). *)
Definition to_float (z : Z) : float :=
  if (z =? - 2 ^ 63)%Z then (-0x1p63)%float
  else if (z <? 0)%Z then PrimFloat.opp (PrimFloat.of_uint63 (Uint63.of_Z (- z)))
  else PrimFloat.of_uint63 (Uint63.of_Z z).

(** [(score_sum / total_sum) * 100] *)
Definition ratio_pct (score_sum total_sum : Z) : float :=
  PrimFloat.mul (PrimFloat.div (to_float score_sum) (to_float total_sum))
    (to_float 100).

(** [avg] of [export_pdf_report]:
    [(s / t) * 100 if df["total"].sum() else 0]. *)
Definition export_pdf_report_avg (df : list ResultRecord) : float :=
  let t := col_sum row_total df in
  if (t =? 0)%Z then to_float 0 else ratio_pct (col_sum row_score df) t.

(** [class_avg] of [teacher_dashboard] (and [avg_score] of the student
    dashboard): [(s / t) * 100 if df["total"].sum() > 0 else 0]. *)
Definition teacher_dashboard_class_avg (df : list ResultRecord) : float :=
  let t := col_sum row_total df in
  if (0 <? t)%Z then ratio_pct (col_sum row_score df) t else to_float 0.

(** [df.dropna(subset=["weak_areas"])["weak_areas"].astype(str).tolist()] *)
Definition weak_fields (df : list ResultRecord) : list string :=
  omap row_weak_areas df.

(** [[a.strip() for a in areas.split(",") if a.strip()]] *)
Definition row_topics (areas : string) : list string :=
  map strip (filter (fun a => strip a ≠ "") (split_char "," areas)).

(** The topics of all rows, in the order the loops visit them. *)
Definition all_topics (df : list ResultRecord) : list string :=
  concat (map row_topics (weak_fields df)).

(** [counts[t] = counts.get(t, 0) + 1] on a dict, which keeps its keys in
    insertion order. *)
Fixpoint dict_incr (counts : list (string * nat)) (t : string)
    : list (string * nat) :=
  match counts with
  | [] => [(t, 1%nat)]
  | (k, c) :: rest =>
      if String.eqb k t then (k, (c + 1)%nat) :: rest
      else (k, c) :: dict_incr rest t
  end.

Definition weak_counts (df : list ResultRecord) : list (string * nat) :=
  fold_left (fun counts areas => fold_left dict_incr (row_topics areas) counts)
    (weak_fields df) [].

(** [sorted(items, key=lambda x: -x[1])]: a stable sort, larger counts first. *)
Fixpoint insert_desc (x : string * nat) (l : list (string * nat))
    : list (string * nat) :=
  match l with
  | [] => [x]
  | y :: ys => if (snd y <=? snd x)%nat then x :: l else y :: insert_desc x ys
  end.

Definition sorted_desc (l : list (string * nat)) : list (string * nat) :=
  foldr insert_desc [] l.

(** The "Common Weak Areas" lines of the PDF report:
    [sorted(counts.items(), key=lambda x: -x[1])[:6]]. *)
Definition export_pdf_report_weak_areas (df : list ResultRecord)
    : list (string * nat) :=
  take 6 (sorted_desc (weak_counts df)).





(** Position of the first occurrence of [t] in [l] ([length l] if none). *)
Fixpoint first_index (t : string) (l : list string) : nat :=
  match l with
  | [] => O
  | x :: rest => if String.eqb x t then O else S (first_index t rest)
  end.

(** Number of occurrences of [t] in [l]. *)
Definition occurrences (t : string) (l : list string) : nat :=
  length (filter (fun x => x = t) l).

(** ** Specification-side notions *)

(** Every character of [s] satisfies [p]. *)
Fixpoint str_forall (p : ascii -> bool) (s : string) : bool :=
  match s with
  | EmptyString => true
  | String c s' => p c && str_forall p s'
  end.

(** The last character of [s]. *)
Fixpoint last_char (s : string) : option ascii :=
  match s with
  | EmptyString => None
  | String c EmptyString => Some c
  | String _ s' => last_char s'
  end.

(** [pre] is empty or ends with a character outside [p]. *)
Definition ends_outside (p : ascii -> bool) (pre : string) : Prop :=
  match last_char pre with
  | None => True
  | Some c => p c = false
  end.

(** [post] is empty or starts with a character outside [p]. *)
Definition starts_outside (p : ascii -> bool) (post : string) : Prop :=
  match post with
  | EmptyString => True
  | String c _ => p c = false
  end.

(** [t] is a word of [s] for the class [p]: a non-empty substring made of
    [p]-characters only, with a boundary (a character outside [p], or an end
    of [s]) on both sides. *)
Definition is_word (p : ascii -> bool) (t s : string) : Prop :=
  ∃ pre post,
    s = pre +:+ t +:+ post ∧ t ≠ "" ∧ str_forall p t = true ∧
    ends_outside p pre ∧ starts_outside p post.

(** [e] occurs in [s]. *)
Definition occurs_in (e s : string) : Prop :=
  ∃ pre post, s = pre +:+ e +:+ post.

(** Every mcq item has the keys the grader reads with [item[...]]. *)
Definition gradable (item : QuizItem) : Prop :=
  type item = "mcq" → is_Some (answer item) ∧ is_Some (explanation item).

(** The distinct elements of [l], each at the place of its first
    occurrence. *)
Fixpoint first_occurrences (l : list string) : list string :=
  match l with
  | [] => []
  | x :: rest => x :: filter (fun y => y ≠ x) (first_occurrences rest)
  end.

(** The dict of counts after the topics [seen] have been read. *)
Definition counts_of (seen : list string) : list (string * nat) :=
  map (fun t => (t, occurrences t seen)) (first_occurrences seen).

(** The order of the ranking: the larger count first, and among equal counts
    the topic met first in [topics]. *)
Definition ranked_before (topics : list string) (a b : string * nat) : Prop :=
  (snd b < snd a)%nat ∨
  (snd a = snd b ∧ (first_index (fst a) topics < first_index (fst b) topics)%nat).

(** The invariant of mcq items: four options, the answer among them. *)
Definition mcq_invariant (item : QuizItem) : Prop :=
  ∃ opts a,
    options item = Some opts ∧ length opts = 4%nat ∧
    answer item = Some a ∧ a ∈ opts.

(** An mcq item as [_generate_mcq] builds it for [topic] and [subject]. *)
Definition generated_mcq (topic subject : string) (item : QuizItem) : Prop :=
  type item = "mcq" ∧ options item = Some (mcq_options topic subject) ∧
  (∃ a, answer item = Some a ∧ a ∈ mcq_options topic subject) ∧
  is_Some (explanation item).

(** A short item as [_generate_short] builds it for [topic]. *)
Definition generated_short (topic : string) (item : QuizItem) : Prop :=
  type item = "short" ∧ keywords item = Some (topic_keywords topic).

(** The order in which the topics were first met. *)
Definition met_before (topics : list string) (a b : string * nat) : Prop :=
  (first_index (fst a) topics < first_index (fst b) topics)%nat.

(** ** Worked examples (the scenarios of the specification) *)

Definition init_state : GradeState := mkState 0 [] [].

Definition ex_mcq : QuizItem :=
  mkItem "mcq" "Which one?" (Some ["o1"; "o2"; "o3"; "o4"]) (Some "o2")
    (Some "The correct answer is B.") None None (Some "calculus").

Definition ex_short : QuizItem :=
  mkItem "short" "Explain." None None None (Some "ideal")
    (Some ["derivative"; "integral"]) (Some "calculus").

Definition ex_answers : gmap string string :=
  <["q_0" := "o2"]> (<["q_1" := "The Derivative of a function."]> ∅).

Definition ex_row (s t : Z) (w : option string) : ResultRecord :=
  mkRow "student@example.com" "Student Demo" "Mathematics" "algebra" "Easy"
    "MCQ+Short" s t "2025-01-01T00:00:00" w None.

Definition ex_random : RandomState := mkRandom (fun n => n * 7 + 1)%nat 0.

(** ** Text normalisation ([_clean_text]) *)

(** [re.sub(r"\s+", " ", text)]: every maximal run of whitespace becomes one
    space; [in_run] tells that the previous character was whitespace. *)
Fixpoint sub_ws (in_run : bool) (s : string) : string :=
  match s with
  | EmptyString => EmptyString
  | String c s' =>
      if is_space c then
        if in_run then sub_ws true s' else String " " (sub_ws true s')
      else String c (sub_ws false s')
  end.

Definition _clean_text (text : string) : string := strip (sub_ws false text).

(** The character class of the words of [str.split()]. *)
Definition non_space (c : ascii) : bool := negb (is_space c).

(** ** Study notes and flashcards *)

(** The text-generation pipeline as the generators use it: the prompt goes
    in and [out[0]["generated_text"]] comes out; [None] when the call or the
    indexing raises. *)
Definition Pipeline : Type := string -> option string.

(** What [_get_llm_pipeline] reads and writes: [transformers] is the imported
    [pipeline] function ([None] when the import failed) together with what
    [pipeline("text-generation", model="distilgpt2")] gives ([None] when it
    raises); [_llm] is the module's cached handle. *)
Record LlmWorld := mkWorld {
  transformers : option (option Pipeline);
  _llm : option Pipeline
}.

Definition _get_llm_pipeline (w : LlmWorld) : option Pipeline * LlmWorld :=
  match _llm w with
  | Some handle => (Some handle, w)
  | None =>
      match transformers w with
      | None => (None, w)
      | Some loaded => (loaded, mkWorld (transformers w) loaded)
      end
  end.

(** The newline character of the f-strings. *)
Definition nl : string := String "010" EmptyString.

(** [s[n:]] for [n >= 0]. *)
Fixpoint str_drop (n : nat) (s : string) : string :=
  match n, s with
  | O, _ => s
  | S _, EmptyString => EmptyString
  | S n', String _ s' => str_drop n' s'
  end.

(** [str(z)] *)
Definition str_of_int (z : Z) : string :=
  if (z <? 0)%Z then "-" +:+ str_of_nat (Z.to_nat (- z))
  else str_of_nat (Z.to_nat z).

Definition notes_header (topic subject difficulty : string) : string :=
  "Subject: " +:+ subject +:+ " | Difficulty: " +:+ difficulty +:+ nl +:+
  "Topic: " +:+ topic +:+ nl +:+ nl.

Definition notes_points (topic subject difficulty : string) : list string :=
  [ "Core concept overview of '" +:+ topic +:+ "'.";
    "Key formulas/definitions relevant to " +:+ subject +:+ ".";
    "Common pitfalls and misconceptions.";
    "Examples ranging from " +:+ lower difficulty +:+ " to challenging.";
    "Mini checklist for quick revision." ].

Definition notes_prompt (topic subject difficulty : string) : string :=
  "Create concise study notes for " +:+ subject +:+ " on '" +:+ topic +:+ "'. " +:+
  "Target level: " +:+ difficulty +:+ ". Use bullet points and short explanations.".

Definition generate_study_notes (topic subject difficulty : string)
    (use_llm : bool) (w : LlmWorld) : string * LlmWorld :=
  let topic := strip topic in
  let header := notes_header topic subject difficulty in
  let fallback :=
    header +:+ join nl (map (fun p => "- " +:+ p)
                          (notes_points topic subject difficulty)) in
  if use_llm then
    let '(llm, w') := _get_llm_pipeline w in
    match llm with
    | Some run =>
        let prompt := notes_prompt topic subject difficulty in
        match run prompt with
        | Some generated =>
            (header +:+ _clean_text (str_drop (String.length prompt) generated), w')
        | None => (fallback, w')
        end
    | None => (fallback, w')
    end
  else (fallback, w).

Definition base_cards (topic subject difficulty : string)
    : list (string * string) :=
  [ ("Define the main idea of " +:+ topic +:+ " in " +:+ subject +:+ ".",
     "The main idea is ... (level " +:+ difficulty +:+ ").");
    ("Give an example related to " +:+ topic +:+ ".",
     "An example is ... relevant to " +:+ subject +:+ ".");
    ("State a common misconception about " +:+ topic +:+ ".",
     "A misconception is ... and the correction is ...");
    ("Provide a key formula/theorem for " +:+ topic +:+ ".",
     "One key formula/theorem is ...");
    ("Explain how to apply " +:+ topic +:+ " in practice.",
     "Apply it by ...") ].

(** [l * k] *)
Definition list_times {A} (l : list A) (k : Z) : list A :=
  concat (replicate (Z.to_nat k) l).

(** [l[:n]] *)
Definition py_take {A} (l : list A) (n : Z) : list A :=
  if (0 <=? n)%Z then take (Z.to_nat n) l
  else take (Z.to_nat (Z.of_nat (length l) + n)) l.

(** The line boundaries of [str.splitlines]. *)
Definition is_linebreak (c : ascii) : bool :=
  let n := ord c in
  between 10 13 n || between 28 30 n || (n =? 133)%nat.

(** [s.splitlines()]; [cur] is the line being read.  A carriage return
    followed by a line feed is one boundary. *)
Fixpoint splitlines_from (cur : string) (s : string) : list string :=
  match s with
  | EmptyString => flush cur
  | String c s' =>
      if is_linebreak c then
        cur :: (if Ascii.eqb c "013" then
                  match s' with
                  | String c' s'' =>
                      if Ascii.eqb c' "010" then splitlines_from EmptyString s''
                      else splitlines_from EmptyString s'
                  | EmptyString => splitlines_from EmptyString s'
                  end
                else splitlines_from EmptyString s')
      else splitlines_from (cur +:+ String c EmptyString) s'
  end.

Definition splitlines (s : string) : list string := splitlines_from EmptyString s.

(** [s.split(sep, 1)] when [sep] occurs in [s]: the text before the first
    [sep] and the text after it; [None] when [sep] does not occur. *)
Fixpoint partition_at (sep : ascii) (s : string) : option (string * string) :=
  match s with
  | EmptyString => None
  | String c s' =>
      if Ascii.eqb c sep then Some (EmptyString, s')
      else match partition_at sep s' with
           | Some (before, after) => Some (String c before, after)
           | None => None
           end
  end.

(** [s.split(sep, 1)[-1]] *)
Definition after_first (sep : ascii) (s : string) : string :=
  match partition_at sep s with
  | Some (_, after) => after
  | None => s
  end.

(** One line of the model's answer, read as ["Q: ... | A: ..."]. *)
Definition parse_card (line : string) : option (string * string) :=
  match partition_at "|" line with
  | None => None
  | Some (qpart, apart) =>
      let q := strip (after_first ":" qpart) in
      let a := strip (after_first ":" apart) in
      if is_empty q || is_empty a then None else Some (q, a)
  end.

Definition flashcards_prompt (topic subject difficulty : string) (num_cards : Z)
    : string :=
  "Create " +:+ str_of_int num_cards +:+ " flashcards as Q&A for " +:+ subject +:+
  " on '" +:+ topic +:+ "', " +:+ "level " +:+ difficulty +:+
  ". Format as 'Q: ... | A: ...' per line.".

Definition generate_flashcards (topic subject difficulty : string)
    (num_cards : Z) (use_llm : bool) (w : LlmWorld)
    : list (string * string) * LlmWorld :=
  let base := base_cards topic subject difficulty in
  let cards :=
    py_take (list_times base ((num_cards + Z.of_nat (length base) - 1)
                              / Z.of_nat (length base))) num_cards in
  if use_llm then
    let '(llm, w') := _get_llm_pipeline w in
    match llm with
    | Some run =>
        let prompt := flashcards_prompt topic subject difficulty num_cards in
        match run prompt with
        | Some generated =>
            let text := str_drop (String.length prompt) generated in
            let pairs := omap parse_card (splitlines text) in
            if (1 <=? length pairs)%nat then (py_take pairs num_cards, w')
            else (cards, w')
        | None => (cards, w')
        end
    | None => (cards, w')
    end
  else (cards, w).

Definition ex_pipeline : Pipeline :=
  fun prompt => Some (prompt +:+ "Q: What is a limit? | A: A value approached." +:+
                      nl +:+ "no card here" +:+ nl +:+ "Q: | A: empty question").

Definition ex_world : LlmWorld := mkWorld (Some (Some ex_pipeline)) None.

(** ** Accounts ([register_user], [authenticate_user]) *)

(** One entry of [users.json]; a key that is absent is [None]. *)
Record User := mkUser {
  u_email : option string;
  u_password : option string;
  u_role : option string;
  u_name : option string
}.

(** The file [users.json]: absent, not valid JSON, or holding the list that
    was last written to it. *)
Inductive UsersFile :=
  | UsersMissing
  | UsersCorrupt
  | UsersStored (users : list User).

Definition DEMO_USERS : list User :=
  [ mkUser (Some "student@example.com") (Some "student123") (Some "student")
      (Some "Student Demo");
    mkUser (Some "teacher@example.com") (Some "teacher123") (Some "teacher")
      (Some "Teacher Demo") ].

Definition _load_users (f : UsersFile) : list User :=
  match f with
  | UsersStored users => users
  | UsersMissing | UsersCorrupt => []
  end.

Definition _save_users (users : list User) : UsersFile := UsersStored users.

(** [(x or "")] *)
Definition or_empty (x : option string) : string := default "" x.

(** [role in {"student", "teacher"}] *)
Definition valid_role (role : string) : bool :=
  String.eqb role "student" || String.eqb role "teacher".

(** [u.get("email") == email] *)
Definition has_email (email : string) (u : User) : bool :=
  bool_decide (u_email u = Some email).

Definition register_user (name email password : option string) (role : string)
    (f : UsersFile) : (bool * string) * UsersFile :=
  let email := lower (strip (or_empty email)) in
  let password := strip (or_empty password) in
  let name := strip (or_empty name) in
  if is_empty email || is_empty password || negb (valid_role role) then
    ((false, "Please provide name, email, password, and valid role."), f)
  else
    let users := _load_users f in
    if existsb (has_email email) users then
      ((false, "Email already registered."), f)
    else
      ((true, "Registered"),
       _save_users (users ++ [mkUser (Some email) (Some password) (Some role)
                                (Some name)])).

Definition authenticate_user (email password : option string) (f : UsersFile)
    : option User :=
  let email := lower (strip (or_empty email)) in
  let password := strip (or_empty password) in
  find (fun u => has_email email u && bool_decide (u_password u = Some password))
    (_load_users f).

(** An account as [register_user] writes it. *)
Definition account_ok (u : User) : Prop :=
  ∃ e p r n,
    u = mkUser (Some e) (Some p) (Some r) (Some n) ∧
    e ≠ "" ∧ lower (strip e) = e ∧ p ≠ "" ∧ strip p = p ∧ valid_role r = true.

(** A well-formed store: well-formed accounts, no email twice. *)
Definition store_ok (users : list User) : Prop :=
  Forall account_ok users ∧ NoDup (map u_email users).

(** [s] is empty or starts with a character that is not whitespace. *)
Definition starts_non_space (s : string) : Prop :=
  match s with
  | EmptyString => True
  | String c _ => is_space c = false
  end.

(** ** The quiz form ([student_dashboard]) *)

(** The loop that fills [answers]: for each item, [answers[f"q_{idx}"]] is
    the value of the widget with key [f"ans_{idx}"] ([widget idx]). *)
Fixpoint collect_from (idx : nat) (items : list QuizItem) (widget : nat -> string)
    (answers : gmap string string) : gmap string string :=
  match items with
  | [] => answers
  | _ :: rest =>
      collect_from (S idx) rest widget (<[ans_key idx := widget idx]> answers)
  end.

Definition collect_answers (items : list QuizItem) (widget : nat -> string)
    : gmap string string :=
  collect_from 0 items widget ∅.

(** [", ".join(result.get("weak_areas", []))], the field stored with the
    result. *)
Definition weak_areas_field (r : GradeResult) : string :=
  join ", " (weak_areas r).

(** A keyword that some answer can hit: its lowercase form [kw.lower()] is
    not empty and made of characters of [[A-Za-z0-9]] only. *)
Definition matchable (kw : string) : bool :=
  negb (is_empty (lower kw)) && str_forall is_alnum (lower kw).

(** The letter of option [k]. *)
Definition option_letter (k : nat) : string :=
  nth k ["A"; "B"; "C"; "D"] "".

(** An mcq item whose explanation names the option that is its answer. *)
Definition mcq_consistent (topic subject difficulty : string) (item : QuizItem)
    : Prop :=
  question item =
    subject +:+ ": On '" +:+ topic +:+ "', which option is correct? (Level: "
    +:+ difficulty +:+ ")" ∧
  options item = Some (mcq_options topic subject) ∧
  topic_tag item = Some topic ∧
  ∃ k, (k < 4)%nat ∧
    answer item = mcq_options topic subject !! k ∧
    explanation item =
      Some ("The correct answer is " +:+ option_letter k +:+
            " due to core concept alignment.") ∧
    ∃ rest, answer item = Some ("Option " +:+ option_letter k +:+ rest).

(** ** Specification-side notions for the stored weak areas *)

(** No comma in [s]. *)
Definition comma_free (s : string) : bool :=
  str_forall (fun c => negb (Ascii.eqb c ",")) s.

(** A weak area that survives storing and reading back: trimmed, without
    comma. *)
Definition storable (w : string) : Prop :=
  strip w = w ∧ comma_free w = true.

(** An item whose tag is [topic] and whose keywords, if any, are keywords
    of [topic]. *)
Definition tagged (topic : string) (item : QuizItem) : Prop :=
  topic_tag item = Some topic ∧
  ∀ kw, kw ∈ default [] (keywords item) → kw ∈ topic_keywords topic.

(** ** Binary64 numbers *)

(** The number a finite binary64 stands for. *)
Definition float_value (f : float) : option Q :=
  match Prim2SF f with
  | S754_zero _ => Some 0%Q
  | S754_finite s m e =>
      Some ((if s then - (1) else 1) * (inject_Z (Z.pos m) * 2 ^ e))%Q
  | _ => None
  end.

(** The unit roundoff of binary64, [2^-53]. *)
Definition unit_roundoff : Q := 1 # 9007199254740992.

(** Where a number [y] lies between the integers [m] and [m + 1]. *)
Definition inbetween (m : Z) (l : location) (y : Q) : Prop :=
  match l with
  | loc_Exact => (y == inject_Z m)%Q
  | loc_Inexact Lt => (inject_Z m < y)%Q ∧ (y < inject_Z m + (1 # 2))%Q
  | loc_Inexact Eq => (y == inject_Z m + (1 # 2))%Q
  | loc_Inexact Gt => (inject_Z m + (1 # 2) < y)%Q ∧ (y < inject_Z m + 1)%Q
  end.

(** ** The grader and the state of the interpreter *)

(** What a run of the grader could read besides its arguments.  The salt of
    the [str] hashes is chosen when the interpreter starts, and with it the
    order in which a [set] of strings holds its elements: all that is known
    of [layout l], the elements of [set(l)] in the order of the hash table,
    is that it lists the distinct elements of [l]. *)
Record HashSalt := mkSalt {
  layout : list string -> list string;
  layout_perm : ∀ l, layout l ≡ₚ remove_dups l
}.

(** The state of the interpreter around [ai_engine.py]: the hash salt, the
    state of the [random] module (read by the item generator) and the
    module's global [_llm]. *)
Record PyWorld := mkPyWorld {
  hash_salt : HashSalt;
  random_state : RandomState;
  llm_world : LlmWorld
}.

(** [set(re.findall(r"[A-Za-z0-9]+", user_ans.lower()))], as laid out in
    world [w]. *)
Definition user_tokens_in (w : PyWorld) (user_ans : string) : list string :=
  layout (hash_salt w) (findall_alnum (lower user_ans)).

(** [x in s] on a set. *)
Definition set_contains (s : list string) (x : string) : bool :=
  bool_decide (x ∈ s).

(** The body of the loop, run in world [w]; the world after it is returned
    with the state of the loop. *)
Definition grade_item_in (w : PyWorld) (answers : gmap string string)
    (idx : nat) (item : QuizItem) (st : GradeState)
    : option GradeState * PyWorld :=
  let user_ans := user_answer answers idx in
  if String.eqb (type item) "mcq" then
    (a ← answer item;
     let correct := strip a in
     if String.eqb user_ans correct then
       Some (mkState (st_score st + 1)
               (st_feedback st ++ [qlabel idx +:+ ": Correct."])
               (st_weak st))
     else
       e ← explanation item;
       Some (mkState (st_score st)
               (st_feedback st ++ [qlabel idx +:+ ": Incorrect. " +:+ e])
               (st_weak st ++ [default "" (topic_tag item)])), w)
  else
    let kws := default [] (keywords item) in
    let toks := user_tokens_in w user_ans in
    let hits :=
      length (filter (fun kw => set_contains toks (lower kw) = true) kws) in
    if (Nat.max 1 (length kws / 2) <=? hits)%nat then
      (Some (mkState (st_score st + 1)
               (st_feedback st ++ [qlabel idx +:+ ": Good. Covered key points."])
               (st_weak st)), w)
    else
      let miss := filter (fun kw => set_contains toks (lower kw) = false) kws in
      (Some (mkState (st_score st)
               (st_feedback st ++
                  [qlabel idx +:+ ": Needs improvement. Mention: " +:+
                   (match miss with [] => "more specifics" | _ => join ", " miss end)
                   +:+ "."])
               (st_weak st ++ list_or miss [default "" (topic_tag item)])), w).

Fixpoint grade_loop_in (w : PyWorld) (answers : gmap string string) (idx : nat)
    (items : list QuizItem) (st : GradeState) : option GradeState * PyWorld :=
  match items with
  | [] => (Some st, w)
  | item :: rest =>
      match grade_item_in w answers idx item st with
      | (Some st', w') => grade_loop_in w' answers (S idx) rest st'
      | (None, w') => (None, w')
      end
  end.

(** A run of [grade_quiz_submission] in world [w]: the result (or [None]
    for the exception) and the world after the run. *)
Definition grade_quiz_submission_in (w : PyWorld) (items : list QuizItem)
    (answers : gmap string string) : option GradeResult * PyWorld :=
  match grade_loop_in w answers 0 items (mkState 0 [] []) with
  | (Some st, w') =>
      (Some (mkResult (st_score st) (Z.of_nat (length items)) (st_feedback st)
               (filter (fun w => w ≠ "") (st_weak st))), w')
  | (None, w') => (None, w')
  end.

(** Two hash salts: one keeps the elements of a set in the order of
    insertion, the other in the opposite order. *)
Definition salt_insertion : HashSalt :=
  mkSalt remove_dups (fun l => Permutation_refl (remove_dups l)).

Definition salt_reversed : HashSalt :=
  mkSalt (fun l => reverse (remove_dups l))
    (fun l => reverse_Permutation (remove_dups l)).

(** ** Specification-side notions for the result of the grader *)

(** [t] is [s] without its leading and trailing whitespace: [s] is [t]
    between two runs of whitespace, and [t] neither starts nor ends with a
    whitespace character. *)
Definition trimmed (s t : string) : Prop :=
  ∃ pre post,
    s = pre +:+ t +:+ post ∧
    str_forall is_space pre = true ∧ str_forall is_space post = true ∧
    starts_outside is_space t ∧ ends_outside is_space t.

(** What the grader did with one item: whether the item scored, and what it
    appended to weak_areas. *)
Record ItemOutcome := mkOutcome {
  scored : bool;
  appended : list string
}.

(** The returned score counts the items that scored, and the returned
    weak_areas are what the items appended, in item order, without the empty
    strings. *)
Definition tallies (r : GradeResult) (outs : list ItemOutcome) : Prop :=
  score r = Z.of_nat (length (filter (fun o => scored o = true) outs)) ∧
  weak_areas r = filter (fun w => w ≠ "") (concat (map appended outs)).

(** The state of the loop after an item with outcome [o] and feedback [fb]. *)
Definition after_item (o : ItemOutcome) (fb : string) (st : GradeState)
    : GradeState :=
  mkState (st_score st + (if scored o then 1 else 0))
    (st_feedback st ++ [fb]) (st_weak st ++ appended o).

(** ** Specification-side notions for the weak-area fields *)







(** * Properties *)

(** ** Strings *)

Lemma str_app_nil_l s : "" +:+ s = s.
Proof. reflexivity. Qed.

Lemma str_app_cons c s t : String c s +:+ t = String c (s +:+ t).
Proof. reflexivity. Qed.

Lemma str_app_nil_r s : s +:+ "" = s.
Proof. induction s as [|c s IH]; [done|]. by rewrite str_app_cons, IH. Qed.

Lemma str_app_assoc a b c : (a +:+ b) +:+ c = a +:+ (b +:+ c).
Proof. induction a as [|x a IH]; [done|]. by rewrite !str_app_cons, IH. Qed.

Lemma str_app_eq_inv l1 l2 k1 k2 :
  l1 +:+ l2 = k1 +:+ k2 →
  (∃ k, l1 = k1 +:+ k ∧ k2 = k +:+ l2) ∨ (∃ k, k1 = l1 +:+ k ∧ l2 = k +:+ k2).
Proof.
  revert k1. induction l1 as [|x l1 IH]; intros k1 H.
  - right. exists k1. by rewrite str_app_nil_l in *.
  - destruct k1 as [|y k1].
    + left. exists (String x l1). by rewrite str_app_nil_l in *.
    + rewrite !str_app_cons in H. inversion H as [[Hx Hl]]. subst y.
      destruct (IH _ Hl) as [[k [-> ->]]|[k [-> ->]]]; [left|right]; by exists k.
Qed.

Lemma str_app_eq_nil a b : a +:+ b = "" → a = "" ∧ b = "".
Proof. destruct a; [by rewrite str_app_nil_l|by rewrite str_app_cons]. Qed.

Lemma str_forall_app p a b :
  str_forall p (a +:+ b) = str_forall p a && str_forall p b.
Proof.
  induction a as [|x a IH]; [done|].
  rewrite str_app_cons. simpl. by rewrite IH, andb_assoc.
Qed.

Lemma flush_elem t cur : t ∈ flush cur ↔ t = cur ∧ cur ≠ "".
Proof.
  unfold flush. destruct cur; simpl.
  - rewrite elem_of_nil. split; [done|]. by intros [_ ?].
  - rewrite list_elem_of_singleton. split; [by intros ->|by intros [-> _]].
Qed.

Lemma last_char_cons c k : k ≠ "" → last_char (String c k) = last_char k.
Proof. by destruct k. Qed.

Lemma last_char_app a b : b ≠ "" → last_char (a +:+ b) = last_char b.
Proof.
  intros Hb. induction a as [|x a IH]; [done|].
  rewrite str_app_cons, last_char_cons; [done|].
  intros [_ ?]%str_app_eq_nil. done.
Qed.

Lemma last_char_forall p s c :
  str_forall p s = true → last_char s = Some c → p c = true.
Proof.
  induction s as [|x s IH]; [done|]. simpl str_forall.
  intros [Hx Hs]%andb_true_iff. destruct s as [|y s].
  - intros [= <-]. done.
  - rewrite last_char_cons by done. auto.
Qed.

(** A string of [p]-characters has no boundary inside. *)
Lemma ends_outside_forall p pre :
  str_forall p pre = true → ends_outside p pre → pre = "".
Proof.
  unfold ends_outside. intros Hall Hend.
  destruct (last_char pre) as [c|] eqn:Hl.
  - rewrite (last_char_forall _ _ _ Hall Hl) in Hend. done.
  - destruct pre as [|x pre]; [done|]. exfalso. clear -Hl.
    revert x Hl. induction pre as [|y pre IH]; intros x Hl; [done|].
    rewrite last_char_cons in Hl by done. eauto.
Qed.

Lemma starts_outside_forall p post :
  str_forall p post = true → starts_outside p post → post = "".
Proof.
  destruct post as [|c post]; [done|]. simpl. intros Hall Hs.
  by rewrite Hs in Hall.
Qed.

(** Words of a string that begins with a run [cur] closed by a boundary
    character [c]: the run itself, or a word of the rest. *)
Lemma is_word_boundary p cur c s t :
  str_forall p cur = true → p c = false →
  is_word p t (cur +:+ String c s) ↔ (t = cur ∧ cur ≠ "") ∨ is_word p t s.
Proof.
  intros Hcur Hc. split.
  - intros (pre & post & Heq & Hne & Ht & Hpre & Hpost).
    symmetry in Heq. apply str_app_eq_inv in Heq as [[k [-> Hk]]|[k [-> Hk]]].
    + destruct k as [|d k].
      * rewrite str_app_nil_l in Hk. destruct t as [|x t]; [done|].
        rewrite str_app_cons in Hk. injection Hk as <- _.
        simpl in Ht. by rewrite Hc in Ht.
      * rewrite str_app_cons in Hk. injection Hk as <- ->. right.
        exists k, post. split_and!; try done.
        unfold ends_outside in *. destruct k as [|y k]; [done|].
        rewrite last_char_app, last_char_cons in Hpre; done.
    + rewrite str_forall_app in Hcur. apply andb_true_iff in Hcur as [Hp Hk'].
      apply (ends_outside_forall p) in Hpre as ->; [|done].
      rewrite str_app_nil_l in *.
      apply str_app_eq_inv in Hk as [[k2 [-> Hk2]]|[k2 [-> Hk2]]].
      * destruct k2 as [|d k2].
        { rewrite str_app_nil_r. left. split; [done|].
          intros ->. done. }
        rewrite str_app_cons in Hk2. injection Hk2 as <- _.
        rewrite str_forall_app in Ht. simpl in Ht. rewrite Hc in Ht.
        by rewrite andb_false_r in Ht.
      * destruct k2 as [|d k2].
        { rewrite str_app_nil_r. by left. }
        subst post. rewrite str_app_cons in Hpost. simpl in Hpost.
        rewrite str_forall_app in Hk'. simpl in Hk'. rewrite Hpost in Hk'.
        by rewrite andb_false_r in Hk'.
  - intros [[-> Hne]|(pre & post & -> & Hne & Ht & Hpre & Hpost)].
    + exists "", (String c s). by split_and!.
    + exists (cur +:+ String c pre), post. split_and!; try done.
      * by rewrite str_app_assoc, str_app_cons.
      * unfold ends_outside in *. destruct pre as [|y pre].
        { by rewrite last_char_app. }
        by rewrite last_char_app, last_char_cons.
Qed.

(** [runs] returns exactly the words of the string. *)
Lemma runs_spec p s : ∀ cur t,
  str_forall p cur = true →
  t ∈ runs p cur s ↔ is_word p t (cur +:+ s).
Proof.
  induction s as [|c s IH]; intros cur t Hcur; simpl.
  - rewrite str_app_nil_r, flush_elem. split.
    + intros [-> Hne]. exists "", "". rewrite str_app_nil_r. by split_and!.
    + intros (pre & post & Heq & Hne & Ht & Hpre & Hpost). subst cur.
      rewrite !str_forall_app in Hcur.
      apply andb_true_iff in Hcur as [Hp [_ Hq]%andb_true_iff].
      apply (ends_outside_forall p) in Hpre as ->; [|done].
      apply (starts_outside_forall p) in Hpost as ->; [|done].
      by rewrite str_app_nil_r.
  - destruct (p c) eqn:Hc.
    + rewrite IH, str_app_assoc; [done|].
      rewrite str_forall_app. simpl. by rewrite Hcur, Hc.
    + rewrite elem_of_app, flush_elem, (IH "" t), str_app_nil_l by done.
      by rewrite is_word_boundary.
Qed.

Lemma findall_alnum_spec s t :
  t ∈ findall_alnum s ↔ is_word is_alnum t s.
Proof. unfold findall_alnum. by rewrite runs_spec. Qed.

Lemma lower_char_not_upper c : is_upper (lower_char c) = false.
Proof. by destruct c as [[] [] [] [] [] [] [] []]. Qed.

Lemma lower_no_upper s : str_forall (fun c => negb (is_upper c)) (lower s) = true.
Proof.
  induction s as [|c s IH]; [done|]. simpl.
  by rewrite lower_char_not_upper, IH.
Qed.

(** ** The grader, one item at a time *)

Lemma user_tokens_spec ua t :
  t ∈ user_tokens ua ↔ is_word is_alnum t (lower ua).
Proof.
  unfold user_tokens. by rewrite elem_of_list_to_set, findall_alnum_spec.
Qed.

Lemma hits_plus_missed kws toks :
  (keyword_hits kws toks + length (missed kws toks))%nat = length kws.
Proof.
  unfold keyword_hits, missed. induction kws as [|kw kws IH]; [done|].
  rewrite !filter_cons. destruct (decide (lower kw ∈ toks)).
  - rewrite decide_False by auto. simpl. lia.
  - rewrite decide_True by auto. simpl. lia.
Qed.

(** When a short item fails, no keyword was missed only if there was none. *)
Lemma missed_nil_on_failure kws toks :
  (keyword_hits kws toks < Nat.max 1 (length kws / 2))%nat →
  missed kws toks = [] ↔ kws = [].
Proof.
  intros Hlt. split; [|by intros ->].
  intros Hm. pose proof (hits_plus_missed kws toks) as Hsum.
  rewrite Hm in Hsum. simpl in Hsum.
  destruct kws as [|kw kws]; [done|]. exfalso.
  assert (length (kw :: kws) / 2 ≤ length (kw :: kws))%nat
    by (apply Nat.Div0.div_le_upper_bound; lia).
  simpl length in *. lia.
Qed.

Lemma type_short_not_mcq item : type item = "short" → String.eqb (type item) "mcq" = false.
Proof. by intros ->. Qed.

Lemma grade_item_short answers idx item st :
  String.eqb (type item) "mcq" = false →
  let kws := default [] (keywords item) in
  let toks := user_tokens (user_answer answers idx) in
  grade_item answers idx item st =
    if (Nat.max 1 (length kws / 2) <=? keyword_hits kws toks)%nat then
      Some (mkState (st_score st + 1)
              (st_feedback st ++ [qlabel idx +:+ ": Good. Covered key points."])
              (st_weak st))
    else
      Some (mkState (st_score st)
              (st_feedback st ++
                 [qlabel idx +:+ ": Needs improvement. Mention: " +:+
                  (match missed kws toks with
                   | [] => "more specifics"
                   | _ => join ", " (missed kws toks)
                   end) +:+ "."])
              (st_weak st ++ list_or (missed kws toks) [default "" (topic_tag item)])).
Proof. intros Ht. unfold grade_item. by rewrite Ht. Qed.

(** One iteration of the loop on an item of type short: the tokens are the
    alphanumeric words of the lowercased trimmed answer; the score grows by 1
    with weak_areas unchanged when the hits reach the threshold, and
    otherwise weak_areas is extended with the missed keywords, or with the
    topic_tag when the item has no keywords. *)
Lemma short_item_step (answers : gmap string string) (idx : nat)
    (item : QuizItem) (st : GradeState) :
  type item = "short" →
  let kws := default [] (keywords item) in
  let ua := strip (default "" (answers !! ans_key idx)) in
  ∃ (toks : gset string) (st' : GradeState),
    grade_item answers idx item st = Some st' ∧
    (∀ t, t ∈ toks ↔ is_word is_alnum t (lower ua)) ∧
    (∀ t, t ∈ toks →
       str_forall is_alnum t = true ∧
       str_forall (fun c => negb (is_upper c)) t = true) ∧
    let hits := length (filter (fun kw => lower kw ∈ toks) kws) in
    let miss := filter (fun kw => lower kw ∉ toks) kws in
    let threshold := Nat.max 1 (length kws / 2) in
    ((threshold ≤ hits)%nat →
       st_score st' = (st_score st + 1)%Z ∧ st_weak st' = st_weak st) ∧
    ((hits < threshold)%nat →
       st_score st' = st_score st ∧
       st_weak st' = st_weak st ++
         match kws with [] => [default "" (topic_tag item)] | _ => miss end).
Proof.
  intros Hty kws ua. exists (user_tokens ua).
  pose proof (grade_item_short answers idx item st (type_short_not_mcq _ Hty)) as Hg.
  cbv zeta in Hg. change (user_answer answers idx) with ua in Hg.
  change (default [] (keywords item)) with kws in Hg.
  pose proof (hits_plus_missed kws (user_tokens ua)) as Hsum.
  pose proof (missed_nil_on_failure kws (user_tokens ua)) as Hnil.
  assert (Htok : ∀ t, t ∈ user_tokens ua →
            str_forall is_alnum t = true ∧
            str_forall (fun c => negb (is_upper c)) t = true).
  { intros t (pre & post & Heq & _ & Hal & _)%user_tokens_spec.
    split; [done|]. pose proof (lower_no_upper ua) as Hlow.
    rewrite Heq, !str_forall_app in Hlow.
    by apply andb_true_iff in Hlow as [_ [? _]%andb_true_iff]. }
  unfold keyword_hits, missed in *.
  clearbody kws ua.
  set (hits := length (filter (fun kw => lower kw ∈ user_tokens ua) kws)) in *.
  set (miss := filter (fun kw => lower kw ∉ user_tokens ua) kws) in *.
  destruct (Nat.leb_spec (Nat.max 1 (length kws / 2)) hits) as [Hle|Hlt];
    eexists; (split; [exact Hg|]); (split; [apply user_tokens_spec|]);
    (split; [exact Htok|]); cbv zeta; cbn [st_score st_weak];
    (split; [intros ?|intros ?]).
  - done.
  - lia.
  - lia.
  - split; [done|]. f_equal. specialize (Hnil Hlt).
    destruct kws as [|kw kws']; [done|].
    destruct miss as [|m ms]; [|done].
    destruct Hnil as [Hn _]. by specialize (Hn eq_refl).
Qed.

Lemma weak_areas_no_empty items answers r :
  grade_quiz_submission items answers = Some r → "" ∉ weak_areas r.
Proof.
  unfold grade_quiz_submission. intros Hr.
  destruct (grade_loop answers 0 items (mkState 0 [] [])) as [st|]; [|done].
  simpl in Hr. injection Hr as <-. simpl.
  rewrite list_elem_of_filter. by intros [? _].
Qed.

(** C10 fails as stated: a short item that passes does not get the feedback
    string "Good, covered key points". *)
Lemma short_pass_feedback_counterexample :
  ¬ (∀ (answers : gmap string string) idx item st st',
       type item = "short" →
       (Nat.max 1 (length (default [] (keywords item)) / 2) ≤
          keyword_hits (default [] (keywords item))
            (user_tokens (user_answer answers idx)))%nat →
       grade_item answers idx item st = Some st' →
       st_feedback st' = st_feedback st ++ ["Good, covered key points"]).
Proof.
  intros H.
  specialize (H ex_answers 1%nat ex_short init_state
                (mkState 1 ["Q2: Good. Covered key points."] [])).
  discriminate H; vm_compute; first [reflexivity | lia].
Qed.

(** C10 (amended).  For an item of type short at index [idx], the feedback
    appended is "Q<idx+1>: Good. Covered key points." when the item passes
    the keyword-hit threshold; when it fails it is
    "Q<idx+1>: Needs improvement. Mention: <missed keywords joined by ', '>."
    and, when no keyword was missed,
    "Q<idx+1>: Needs improvement. Mention: more specifics.". *)
Theorem short_answer_feedback (answers : gmap string string) (idx : nat)
    (item : QuizItem) (st : GradeState) :
  type item = "short" →
  let kws := default [] (keywords item) in
  let toks := user_tokens (strip (default "" (answers !! ans_key idx))) in
  let hits := keyword_hits kws toks in
  let miss := missed kws toks in
  let threshold := Nat.max 1 (length kws / 2) in
  ∃ st' fb,
    grade_item answers idx item st = Some st' ∧
    st_feedback st' = st_feedback st ++ [fb] ∧
    ((threshold ≤ hits)%nat →
       fb = "Q" +:+ str_of_nat (idx + 1) +:+ ": Good. Covered key points.") ∧
    ((hits < threshold)%nat →
       (miss ≠ [] →
          fb = "Q" +:+ str_of_nat (idx + 1) +:+
               ": Needs improvement. Mention: " +:+ join ", " miss +:+ ".") ∧
       (miss = [] →
          fb = "Q" +:+ str_of_nat (idx + 1) +:+
               ": Needs improvement. Mention: more specifics.")).
Proof.
  intros Hty kws toks hits miss threshold.
  pose proof (grade_item_short answers idx item st (type_short_not_mcq _ Hty)) as Hg.
  cbv zeta in Hg. unfold user_answer in Hg.
  change (Nat.max 1 (length (default [] (keywords item)) / 2)) with threshold in Hg.
  change (keyword_hits _ _) with hits in Hg.
  change (missed _ _) with miss in Hg.
  clearbody hits miss threshold.
  destruct (Nat.leb_spec threshold hits) as [Hle|Hlt];
    do 2 eexists; (split; [exact Hg|]); (split; [reflexivity|]); split; intros ?;
    try lia.
  - unfold qlabel. by rewrite str_app_assoc.
  - unfold qlabel. split.
    + intros Hm. destruct miss; [done|]. by rewrite !str_app_assoc.
    + intros ->. by rewrite !str_app_assoc.
Qed.

(** Witness of [short_answer_feedback]. *)
Lemma short_answer_feedback_witness :
  type ex_short = "short" ∧
  ∃ st', grade_item ex_answers 1 ex_short init_state = Some st'.
Proof.
  split; [reflexivity|].
  destruct (short_answer_feedback ex_answers 1 ex_short init_state eq_refl)
    as (st' & fb & Hg & _).
  exists st'. exact Hg.
Defined.

(** ** The grading loop *)

(** One iteration appends one feedback entry, labelled with the item's
    position, and adds 0 or 1 to the score. *)
Lemma grade_item_step answers idx item st st' :
  grade_item answers idx item st = Some st' →
  ∃ rest,
    st_feedback st' = st_feedback st ++ [qlabel idx +:+ ": " +:+ rest] ∧
    (st_score st ≤ st_score st' ≤ st_score st + 1)%Z.
Proof.
  unfold grade_item. intros H.
  destruct (String.eqb (type item) "mcq").
  - destruct (answer item) as [a|]; [|done]. simpl in H.
    destruct (String.eqb _ (strip a)).
    + injection H as <-. exists "Correct.". simpl. split; [done|lia].
    + destruct (explanation item) as [e|]; [|done]. simpl in H.
      injection H as <-. exists ("Incorrect. " +:+ e). simpl. split; [done|lia].
  - destruct (Nat.leb _ _).
    + injection H as <-. exists "Good. Covered key points.". simpl.
      split; [done|lia].
    + injection H as <-. eexists ("Needs improvement. Mention: " +:+ _).
      simpl. split; [reflexivity|lia].
Qed.

Lemma grade_item_gradable answers idx item st :
  gradable item → is_Some (grade_item answers idx item st).
Proof.
  unfold gradable, grade_item. intros Hg.
  destruct (String.eqb_spec (type item) "mcq") as [Hty|_].
  - destruct (Hg Hty) as [[a ->] [e ->]]. simpl.
    by destruct (String.eqb _ _).
  - by destruct (Nat.leb _ _).
Qed.

Lemma grade_loop_gradable answers items :
  Forall gradable items →
  ∀ idx st, is_Some (grade_loop answers idx items st).
Proof.
  induction 1 as [|item items Hi _ IH]; intros idx st; simpl; [done|].
  destruct (grade_item_gradable answers idx item st Hi) as [st1 ->]. simpl.
  apply IH.
Qed.

Lemma grade_loop_spec answers items :
  ∀ idx st st',
    grade_loop answers idx items st = Some st' →
    ∃ fbs,
      st_feedback st' = st_feedback st ++ fbs ∧
      length fbs = length items ∧
      (st_score st ≤ st_score st' ≤ st_score st + Z.of_nat (length items))%Z ∧
      ∀ i item, items !! i = Some item →
        ∃ rest sta stb,
          fbs !! i = Some (qlabel (idx + i) +:+ ": " +:+ rest) ∧
          grade_item answers (idx + i) item sta = Some stb ∧
          st_feedback stb =
            st_feedback sta ++ [qlabel (idx + i) +:+ ": " +:+ rest].
Proof.
  induction items as [|item items IH]; intros idx st st' H; simpl in H.
  - injection H as <-. exists []. rewrite app_nil_r. simpl.
    split_and!; [done|done|lia|lia|]. intros i it Hi. done.
  - destruct (grade_item answers idx item st) as [st1|] eqn:H1; [|done].
    simpl in H. destruct (grade_item_step _ _ _ _ _ H1) as (rest & Hfb & Hsc).
    destruct (IH _ _ _ H) as (fbs & Hfbs & Hlen & Hscore & Hidx).
    exists ((qlabel idx +:+ ": " +:+ rest) :: fbs). split_and!.
    + by rewrite Hfbs, Hfb, <-app_assoc.
    + simpl. by rewrite Hlen.
    + simpl length. lia.
    + simpl length. lia.
    + intros [|i] it Hi; simpl in Hi.
      * injection Hi as <-. exists rest, st, st1. rewrite Nat.add_0_r.
        by split_and!.
      * destruct (Hidx i it Hi) as (r & sta & stb & ? & ? & ?).
        exists r, sta, stb. by rewrite <-Nat.add_succ_comm.
Qed.

(** C3. Shape of the result.  For every list of items and every answers
    map, a result returned by [grade_quiz_submission] has total
    [len(items)]; its feedback_list has one entry per item, the entry at
    position [i] being the one the loop body appends for item [i] (it starts
    with "Q<i+1>: "); its weak_areas has no empty string; and
    [0 <= score <= total].  A result is returned whenever every mcq item has
    its answer and explanation. *)
Theorem grade_result_shape (items : list QuizItem) (answers : gmap string string) :
  (Forall gradable items → is_Some (grade_quiz_submission items answers)) ∧
  (∀ r, grade_quiz_submission items answers = Some r →
     total r = Z.of_nat (length items) ∧
     length (feedback_list r) = length items ∧
     (∀ i item, items !! i = Some item →
        ∃ rest sta stb,
          feedback_list r !! i =
            Some ("Q" +:+ str_of_nat (i + 1) +:+ ": " +:+ rest) ∧
          grade_item answers i item sta = Some stb ∧
          st_feedback stb =
            st_feedback sta ++ ["Q" +:+ str_of_nat (i + 1) +:+ ": " +:+ rest]) ∧
     ("" ∉ weak_areas r) ∧
     (0 ≤ score r ≤ total r)%Z).
Proof.
  split.
  - intros Hg. unfold grade_quiz_submission.
    destruct (grade_loop_gradable answers items Hg 0%nat (mkState 0 [] []))
      as [st ->]. by eexists.
  - intros r Hr. pose proof (weak_areas_no_empty _ _ _ Hr) as Hweak.
    unfold grade_quiz_submission in Hr.
    destruct (grade_loop answers 0 items (mkState 0 [] [])) as [st|] eqn:Hst;
      [|done].
    simpl in Hr. injection Hr as <-.
    destruct (grade_loop_spec _ _ _ _ _ Hst) as (fbs & Hfb & Hlen & Hsc & Hidx).
    simpl in Hfb, Hsc, Hweak |- *. split_and!.
    + done.
    + by rewrite Hfb.
    + intros i item Hi.
      destruct (Hidx i item Hi) as (rest & sta & stb & H1 & H2 & H3).
      exists rest, sta, stb. simpl in *. rewrite Hfb.
      unfold qlabel in *. rewrite !str_app_assoc in *. by split_and!.
    + done.
    + lia.
    + lia.
Qed.

(** Witness of [grade_result_shape]: one mcq item and one short item. *)
Lemma grade_result_shape_witness :
  ∃ r, grade_quiz_submission [ex_mcq; ex_short] ex_answers = Some r ∧
       total r = 2%Z.
Proof.
  assert (Hg : Forall gradable [ex_mcq; ex_short]).
  { constructor; [|constructor; [|constructor]]; intros Hty;
      [split; eexists; reflexivity | discriminate Hty]. }
  destruct (grade_result_shape [ex_mcq; ex_short] ex_answers) as [Hsome Hshape].
  destruct (Hsome Hg) as [r Hr].
  exists r. split; [exact Hr|]. exact (proj1 (Hshape r Hr)).
Defined.

(** ** Determinism *)

(** Membership in a set does not depend on how the set is laid out. *)
Lemma set_contains_tokens w ua x :
  set_contains (user_tokens_in w ua) x = bool_decide (x ∈ user_tokens ua).
Proof.
  unfold set_contains, user_tokens_in, user_tokens. apply bool_decide_ext.
  by rewrite layout_perm, elem_of_remove_dups, elem_of_list_to_set.
Qed.

Lemma filter_hits_in w ua (kws : list string) :
  filter (fun kw => set_contains (user_tokens_in w ua) (lower kw) = true) kws =
  filter (fun kw => lower kw ∈ user_tokens ua) kws.
Proof.
  apply list_filter_iff. intros kw. rewrite set_contains_tokens.
  apply bool_decide_eq_true.
Qed.

Lemma filter_missed_in w ua (kws : list string) :
  filter (fun kw => set_contains (user_tokens_in w ua) (lower kw) = false) kws =
  filter (fun kw => lower kw ∉ user_tokens ua) kws.
Proof.
  apply list_filter_iff. intros kw. rewrite set_contains_tokens.
  apply bool_decide_eq_false.
Qed.

Lemma grade_item_in_world w answers idx item st :
  grade_item_in w answers idx item st = (grade_item answers idx item st, w).
Proof.
  unfold grade_item_in, grade_item, keyword_hits, missed.
  destruct (String.eqb (type item) "mcq"); [done|].
  cbv zeta. rewrite filter_hits_in, filter_missed_in.
  by destruct (Nat.leb _ _).
Qed.

Lemma grade_loop_in_world w answers items : ∀ idx st,
  grade_loop_in w answers idx items st = (grade_loop answers idx items st, w).
Proof.
  induction items as [|item items IH]; intros idx st; [done|].
  cbn [grade_loop_in grade_loop]. rewrite grade_item_in_world.
  destruct (grade_item answers idx item st) as [st1|]; [|done].
  apply IH.
Qed.

(** C9. Grading is deterministic.  A run of [grade_quiz_submission] happens
    in a state of the interpreter: a hash salt, which fixes the order of the
    elements of the set of tokens, the state of the [random] module and the
    global [_llm].  Two runs on the same (items, answers), in any two such
    states, give the same outcome: the same score, total, feedback_list and
    weak_areas, or both raise.  A run leaves the state as it found it, so
    that grading again gives the same result, and its outcome is the one
    [grade_quiz_submission] computes from the items and the answers alone. *)
Theorem grading_deterministic (items : list QuizItem)
    (answers : gmap string string) (w1 w2 : PyWorld) :
  (grade_quiz_submission_in w1 items answers).1 =
    (grade_quiz_submission_in w2 items answers).1 ∧
  (grade_quiz_submission_in w1 items answers).2 = w1 ∧
  (grade_quiz_submission_in w1 items answers).1 =
    grade_quiz_submission items answers.
Proof.
  assert (Hrun : ∀ w, grade_quiz_submission_in w items answers =
                      (grade_quiz_submission items answers, w)).
  { intros w. unfold grade_quiz_submission_in, grade_quiz_submission.
    rewrite grade_loop_in_world.
    by destruct (grade_loop answers 0 items (mkState 0 [] [])). }
  by rewrite !Hrun.
Qed.

(** Two runs of the scenario, with the set of tokens laid out in opposite
    orders and different random states. *)
Example two_worlds_scenario :
  user_tokens_in (mkPyWorld salt_insertion ex_random ex_world)
    "The Derivative of a function." ≠
  user_tokens_in (mkPyWorld salt_reversed (mkRandom (fun _ => 0%nat) 5) (mkWorld None None))
    "The Derivative of a function." ∧
  (grade_quiz_submission_in (mkPyWorld salt_insertion ex_random ex_world)
     [ex_mcq; ex_short] ex_answers).1 =
  (grade_quiz_submission_in
     (mkPyWorld salt_reversed (mkRandom (fun _ => 0%nat) 5) (mkWorld None None))
     [ex_mcq; ex_short] ex_answers).1.
Proof. split; [vm_compute; discriminate|vm_compute; reflexivity]. Qed.

(** ** The item generator *)

Lemma random_choice_four {A} (a b c d : A) rs :
  ∃ x, random_choice [a; b; c; d] rs =
         Some (x, mkRandom (tape rs) (S (cursor rs))) ∧
       x ∈ [a; b; c; d].
Proof.
  unfold random_choice. simpl length.
  pose proof (Nat.mod_upper_bound (tape rs (cursor rs)) 4 ltac:(lia)) as Hlt.
  destruct (tape rs (cursor rs) mod 4)%nat as [|[|[|[|n]]]]; [..|lia];
    eexists; (split; [reflexivity|]); set_solver.
Qed.

Lemma mcq_item_spec topic subject difficulty rs :
  ∃ item rs',
    mcq_item topic subject difficulty rs = Some (item, rs') ∧
    generated_mcq topic subject item.
Proof.
  unfold mcq_item.
  destruct (random_choice_four "A" "B" "C" "D" rs) as (x & -> & Hx).
  rewrite !elem_of_cons, elem_of_nil in Hx.
  destruct Hx as [->|[->|[->|[->|[]]]]]; do 2 eexists;
    (split; [reflexivity|]); (split_and!; [done|done| |by eexists]);
    eexists; (split; [reflexivity|]); unfold mcq_options; set_solver.
Qed.

Lemma generate_mcq_loop_spec topic subject difficulty n :
  ∀ rs, ∃ items rs',
    generate_mcq_loop topic subject difficulty n rs = Some (items, rs') ∧
    length items = n ∧ Forall (generated_mcq topic subject) items.
Proof.
  induction n as [|n IH]; intros rs; simpl.
  - by exists [], rs.
  - destruct (mcq_item_spec topic subject difficulty rs) as (item & rs1 & -> & Hi).
    simpl. destruct (IH rs1) as (items & rs2 & -> & Hlen & Hall). simpl.
    exists (item :: items), rs2. split_and!; [done|by rewrite <-Hlen|by constructor].
Qed.

Lemma short_item_spec topic subject difficulty rs :
  ∃ item rs',
    short_item topic subject difficulty rs = Some (item, rs') ∧
    generated_short topic item.
Proof.
  unfold short_item, starters.
  destruct (random_choice_four "Explain the concept of"
              "Give a short definition of" "List two key points about"
              "Describe a real-world application of" rs) as (x & -> & _).
  simpl. by do 2 eexists.
Qed.

Lemma generate_short_loop_spec topic subject difficulty n :
  ∀ rs, ∃ items rs',
    generate_short_loop topic subject difficulty n rs = Some (items, rs') ∧
    length items = n ∧ Forall (generated_short topic) items.
Proof.
  induction n as [|n IH]; intros rs; simpl.
  - by exists [], rs.
  - destruct (short_item_spec topic subject difficulty rs) as (item & rs1 & -> & Hi).
    simpl. destruct (IH rs1) as (items & rs2 & -> & Hlen & Hall). simpl.
    exists (item :: items), rs2. split_and!; [done|by rewrite <-Hlen|by constructor].
Qed.

(** [generate_quiz_items] always returns, and returns [max(0, num_mcq)]
    generated mcq items followed by [max(0, num_short)] generated short
    items. *)
Lemma generate_quiz_items_spec topic subject difficulty num_mcq num_short use_llm rs :
  ∃ mcqs shorts rs',
    generate_quiz_items topic subject difficulty num_mcq num_short use_llm rs =
      Some (mcqs ++ shorts, rs') ∧
    length mcqs = Z.to_nat num_mcq ∧ length shorts = Z.to_nat num_short ∧
    Forall (generated_mcq topic subject) mcqs ∧
    Forall (generated_short topic) shorts.
Proof.
  unfold generate_quiz_items, _generate_mcq, _generate_short.
  destruct (generate_mcq_loop_spec topic subject difficulty (Z.to_nat num_mcq) rs)
    as (mcqs & rs1 & -> & Hm & Hmall).
  simpl.
  destruct (generate_short_loop_spec topic subject difficulty (Z.to_nat num_short) rs1)
    as (shorts & rs2 & -> & Hs & Hsall).
  simpl. by exists mcqs, shorts, rs2.
Qed.

(** C4 fails as stated: with [num_mcq = -1] and [num_short = 2] the result
    has 2 items, not [num_mcq + num_short = 1]. *)
Lemma generate_count_counterexample :
  ¬ (∀ topic subject difficulty num_mcq num_short use_llm rs items rs',
       generate_quiz_items topic subject difficulty num_mcq num_short use_llm rs =
         Some (items, rs') →
       Z.of_nat (length items) = (num_mcq + num_short)%Z).
Proof.
  intros H.
  destruct (generate_quiz_items "algebra" "Mathematics" "Easy" (-1) 2 false ex_random)
    as [[items rs']|] eqn:Hg.
  - pose proof (H _ _ _ _ _ _ _ _ _ Hg) as Hlen.
    vm_compute in Hg. injection Hg as <- _. simpl in Hlen. lia.
  - vm_compute in Hg. discriminate Hg.
Qed.

(** C4 (amended).  For every topic, subject, difficulty and non-negative
    num_mcq and num_short, [generate_quiz_items] returns exactly
    [num_mcq + num_short] items: the first [num_mcq] have type mcq and the
    remaining [num_short] have type short. *)
Theorem generate_quiz_items_count (topic subject difficulty : string)
    (num_mcq num_short : Z) (use_llm : bool) (rs : RandomState) :
  (0 ≤ num_mcq)%Z → (0 ≤ num_short)%Z →
  ∃ items rs',
    generate_quiz_items topic subject difficulty num_mcq num_short use_llm rs =
      Some (items, rs') ∧
    Z.of_nat (length items) = (num_mcq + num_short)%Z ∧
    Forall (fun item => type item = "mcq") (take (Z.to_nat num_mcq) items) ∧
    Forall (fun item => type item = "short") (drop (Z.to_nat num_mcq) items) ∧
    Z.of_nat (length (drop (Z.to_nat num_mcq) items)) = num_short.
Proof.
  intros Hm Hs.
  destruct (generate_quiz_items_spec topic subject difficulty num_mcq num_short
              use_llm rs) as (mcqs & shorts & rs' & Hg & Hlm & Hls & Hma & Hsa).
  exists (mcqs ++ shorts), rs'. rewrite <-Hlm.
  rewrite take_app_length, drop_app_length, length_app.
  split_and!; [done|lia| | |lia].
  - eapply Forall_impl; [exact Hma|]. by intros item [? _].
  - eapply Forall_impl; [exact Hsa|]. by intros item [? _].
Qed.

(** Witness of [generate_quiz_items_count]: 3 mcq and 2 short items. *)
Lemma generate_quiz_items_count_witness :
  ∃ items rs',
    generate_quiz_items "algebra" "Mathematics" "Easy" 3 2 false ex_random =
      Some (items, rs') ∧
    Z.of_nat (length items) = 5%Z.
Proof.
  destruct (generate_quiz_items_count "algebra" "Mathematics" "Easy" 3 2 false
              ex_random ltac:(lia) ltac:(lia)) as (items & rs' & Hg & Hlen & _).
  exists items, rs'. split; [exact Hg|exact Hlen].
Defined.

(** C5. Every mcq item produced by the generator has exactly 4 options, and
    its answer is one of them: this holds for every item [_generate_mcq]
    returns, and for every item of type mcq [generate_quiz_items] returns,
    whatever the random draws. *)
Theorem generated_mcq_invariant (topic subject difficulty : string)
    (num_mcq num_short : Z) (use_llm : bool) (rs : RandomState) :
  (∃ mcqs rs',
     _generate_mcq topic subject difficulty num_mcq rs = Some (mcqs, rs') ∧
     Forall (fun item => type item = "mcq" ∧ mcq_invariant item) mcqs) ∧
  (∃ items rs',
     generate_quiz_items topic subject difficulty num_mcq num_short use_llm rs =
       Some (items, rs') ∧
     ∀ item, item ∈ items → type item = "mcq" → mcq_invariant item).
Proof.
  assert (Hinv : ∀ item, generated_mcq topic subject item →
                   type item = "mcq" ∧ mcq_invariant item).
  { intros item (Hty & Ho & (a & Ha & Hin) & _). split; [done|].
    by exists (mcq_options topic subject), a. }
  split.
  - unfold _generate_mcq.
    destruct (generate_mcq_loop_spec topic subject difficulty (Z.to_nat num_mcq) rs)
      as (mcqs & rs' & Hg & _ & Hall).
    exists mcqs, rs'. split; [done|]. eapply Forall_impl; [exact Hall|exact Hinv].
  - destruct (generate_quiz_items_spec topic subject difficulty num_mcq num_short
                use_llm rs) as (mcqs & shorts & rs' & Hg & _ & _ & Hma & Hsa).
    exists (mcqs ++ shorts), rs'. split; [done|].
    intros item [Hin|Hin]%elem_of_app Hty.
    + rewrite Forall_forall in Hma. by apply Hinv, Hma.
    + rewrite Forall_forall in Hsa. destruct (Hsa item Hin) as [Hs _]. congruence.
Qed.

(** ** Grading an empty submission *)

Lemma strip_nonspace c s : is_space c = false → strip (String c s) ≠ "".
Proof.
  intros Hc. unfold strip.
  change (lstrip (String c s)) with (if is_space c then lstrip s else String c s).
  rewrite Hc.
  change (rstrip (String c s))
    with (if is_space c && is_empty (rstrip s) then "" else String c (rstrip s)).
  by rewrite Hc.
Qed.

Lemma mcq_options_strip topic subject a :
  a ∈ mcq_options topic subject → strip a ≠ "".
Proof.
  unfold mcq_options. rewrite !elem_of_cons, elem_of_nil.
  intros [->|[->|[->|[->|[]]]]]; by apply strip_nonspace.
Qed.

Lemma user_answer_missing idx : user_answer ∅ idx = "".
Proof. unfold user_answer. by rewrite lookup_empty. Qed.

Lemma keyword_hits_no_tokens kws : keyword_hits kws ∅ = 0%nat.
Proof.
  unfold keyword_hits. induction kws as [|kw kws IH]; [done|].
  rewrite filter_cons, decide_False; [done|]. apply not_elem_of_empty.
Qed.

(** A short item, whatever its keywords, fails on a missing answer. *)
Lemma grade_item_missing_short idx item st :
  String.eqb (type item) "mcq" = false →
  ∃ st', grade_item ∅ idx item st = Some st' ∧ st_score st' = st_score st.
Proof.
  intros Hty. rewrite (grade_item_short ∅ idx item st Hty). cbv zeta.
  rewrite user_answer_missing.
  change (user_tokens "") with (∅ : gset string).
  rewrite keyword_hits_no_tokens.
  destruct (Nat.leb_spec (Nat.max 1 (length (default [] (keywords item)) / 2)) 0)
    as [Hle|_]; [lia|].
  by eexists.
Qed.

(** A generated mcq item is scored incorrect on a missing answer. *)
Lemma grade_item_missing_mcq topic subject idx item st :
  generated_mcq topic subject item →
  ∃ st', grade_item ∅ idx item st = Some st' ∧ st_score st' = st_score st.
Proof.
  intros (Hty & _ & (a & Ha & Hin) & [e He]).
  unfold grade_item. rewrite Hty, Ha, He, user_answer_missing.
  change (String.eqb "mcq" "mcq") with true. cbn -[String.eqb strip].
  apply mcq_options_strip in Hin.
  destruct (String.eqb_spec "" (strip a)) as [Heq|_]; [by rewrite <-Heq in Hin|].
  by eexists.
Qed.

Lemma grade_loop_missing topic subject items :
  Forall (fun item => generated_mcq topic subject item ∨
                      generated_short topic item) items →
  ∀ idx st, ∃ st',
    grade_loop ∅ idx items st = Some st' ∧ st_score st' = st_score st.
Proof.
  induction 1 as [|item items Hi _ IH]; intros idx st; simpl.
  - by exists st.
  - assert (∃ st1, grade_item ∅ idx item st = Some st1 ∧ st_score st1 = st_score st)
      as (st1 & -> & Hs1).
    { destruct Hi as [Hm|[Hs _]].
      - by eapply grade_item_missing_mcq.
      - by apply grade_item_missing_short, type_short_not_mcq. }
    simpl. destruct (IH (S idx) st1) as (st' & -> & Hs'). exists st'.
    split; [done|congruence].
Qed.

(** C6. Grading the items of [generate_quiz_items] against an answers map
    with no keys gives score 0: every item leaves the score unchanged, the
    mcq items because the empty answer differs from the item's answer, the
    short items because zero keyword hits are below the threshold, which is
    at least 1 also when the keywords list is empty. *)
Theorem empty_submission_scores_zero (topic subject difficulty : string)
    (num_mcq num_short : Z) (use_llm : bool) (rs : RandomState) :
  ∃ items rs' r,
    generate_quiz_items topic subject difficulty num_mcq num_short use_llm rs =
      Some (items, rs') ∧
    grade_quiz_submission items ∅ = Some r ∧
    score r = 0%Z ∧
    (∀ i item st, items !! i = Some item →
       ∃ st', grade_item ∅ i item st = Some st' ∧ st_score st' = st_score st) ∧
    (∀ i item st, type item = "short" →
       (Nat.max 1 (length (default [] (keywords item)) / 2) >
          keyword_hits (default [] (keywords item)) (user_tokens (user_answer ∅ i)))%nat ∧
       ∃ st', grade_item ∅ i item st = Some st' ∧ st_score st' = st_score st).
Proof.
  destruct (generate_quiz_items_spec topic subject difficulty num_mcq num_short
              use_llm rs) as (mcqs & shorts & rs' & Hg & _ & _ & Hma & Hsa).
  assert (Hall : Forall (fun item => generated_mcq topic subject item ∨
                                     generated_short topic item) (mcqs ++ shorts)).
  { apply Forall_app. split; (eapply Forall_impl; [eassumption|]); auto. }
  destruct (grade_loop_missing topic subject _ Hall 0%nat (mkState 0 [] []))
    as (st & Hst & Hsc).
  exists (mcqs ++ shorts), rs'. eexists. split_and!.
  - exact Hg.
  - unfold grade_quiz_submission. rewrite Hst. reflexivity.
  - exact Hsc.
  - intros i item st0 Hi. apply list_elem_of_lookup_2 in Hi.
    rewrite Forall_forall in Hall. destruct (Hall item Hi) as [Hm|[Hs _]].
    + by eapply grade_item_missing_mcq.
    + by apply grade_item_missing_short, type_short_not_mcq.
  - intros i item st0 Hty. split.
    + rewrite user_answer_missing. change (user_tokens "") with (∅ : gset string).
      rewrite keyword_hits_no_tokens. lia.
    + by apply grade_item_missing_short, type_short_not_mcq.
Qed.

(** ** Weak-area frequencies *)

Lemma weak_counts_fold df :
  weak_counts df = fold_left dict_incr (all_topics df) [].
Proof.
  unfold weak_counts, all_topics. generalize (@nil (string * nat)) as acc.
  induction (weak_fields df) as [|areas fields IH]; intros acc; simpl; [done|].
  by rewrite fold_left_app, IH.
Qed.

Lemma dict_incr_counted (cnt : string → nat) keys x :
  NoDup keys →
  dict_incr (map (fun t => (t, cnt t)) keys) x =
    if decide (x ∈ keys)
    then map (fun t => (t, (cnt t + if decide (t = x) then 1 else 0)%nat)) keys
    else map (fun t => (t, cnt t)) keys ++ [(x, 1%nat)].
Proof.
  induction keys as [|k keys IH]; intros Hnd; cbn [map dict_incr].
  - by rewrite decide_False by apply not_elem_of_nil.
  - apply NoDup_cons in Hnd as [Hk Hnd].
    destruct (String.eqb_spec k x) as [->|Hne].
    + rewrite decide_True by apply list_elem_of_here.
      rewrite decide_True by done. f_equal.
      apply map_ext_in. intros t Ht%list_elem_of_In.
      rewrite decide_False by (intros ->; done). by rewrite Nat.add_0_r.
    + rewrite IH by done. rewrite (decide_False (P := k = x)) by done.
      rewrite Nat.add_0_r. destruct (decide (x ∈ keys)) as [Hin|Hin].
      * by rewrite decide_True by (by apply list_elem_of_further).
      * rewrite decide_False; [done|].
        intros [?|?]%elem_of_cons; [by subst|done].
Qed.

Lemma elem_of_first_occurrences l t : t ∈ first_occurrences l ↔ t ∈ l.
Proof.
  induction l as [|x l IH]; simpl; [done|].
  rewrite !elem_of_cons, list_elem_of_filter, IH.
  destruct (decide (t = x)) as [->|Hne]; [by split; auto|]. tauto.
Qed.

Lemma NoDup_first_occurrences l : NoDup (first_occurrences l).
Proof.
  induction l as [|x l IH]; simpl; [constructor|].
  apply NoDup_cons. split; [|by apply NoDup_filter].
  rewrite list_elem_of_filter. by intros [? _].
Qed.

Lemma first_occurrences_snoc l x :
  first_occurrences (l ++ [x]) =
    if decide (x ∈ l) then first_occurrences l else first_occurrences l ++ [x].
Proof.
  induction l as [|y l IH]; cbn [first_occurrences app].
  - by rewrite decide_False by apply not_elem_of_nil.
  - rewrite IH. destruct (decide (x ∈ l)) as [Hin|Hin].
    + by rewrite decide_True by (by apply list_elem_of_further).
    + rewrite filter_app, filter_cons, filter_nil.
      destruct (decide (x = y)) as [->|Hne].
      * rewrite (decide_True (P := y ∈ y :: l)) by apply list_elem_of_here.
        rewrite (decide_False (P := y ≠ y)) by (intros H; by apply H).
        by rewrite app_nil_r.
      * rewrite (decide_False (P := x ∈ y :: l))
          by (intros [?|?]%elem_of_cons; done).
        by rewrite (decide_True (P := x ≠ y)) by done.
Qed.

Lemma occurrences_snoc t l x :
  occurrences t (l ++ [x]) =
    (occurrences t l + if decide (x = t) then 1 else 0)%nat.
Proof.
  unfold occurrences. rewrite filter_app, length_app, filter_cons, filter_nil.
  by destruct (decide (x = t)).
Qed.

Lemma occurrences_not_elem t l : t ∉ l → occurrences t l = 0%nat.
Proof.
  unfold occurrences. induction l as [|x l IH]; [done|].
  rewrite not_elem_of_cons. intros [Hne Hl].
  rewrite filter_cons, decide_False by done. auto.
Qed.

(** One more topic read: the dict is the dict of counts of the longer list. *)
Lemma dict_incr_counts_of seen x :
  dict_incr (counts_of seen) x = counts_of (seen ++ [x]).
Proof.
  unfold counts_of.
  rewrite dict_incr_counted by apply NoDup_first_occurrences.
  rewrite first_occurrences_snoc.
  destruct (decide (x ∈ seen)) as [Hin|Hin].
  - rewrite decide_True by (by apply elem_of_first_occurrences).
    apply map_ext. intros t. rewrite occurrences_snoc.
    by destruct (decide (t = x)), (decide (x = t)).
  - rewrite decide_False by (by rewrite elem_of_first_occurrences).
    rewrite map_app. simpl. f_equal.
    + apply map_ext_in. intros t Ht%list_elem_of_In.
      apply (proj1 (elem_of_first_occurrences _ _)) in Ht.
      rewrite occurrences_snoc, decide_False; [by rewrite Nat.add_0_r|].
      intros Heq. apply Hin. by rewrite Heq.
    + rewrite occurrences_snoc, decide_True, occurrences_not_elem by done. done.
Qed.

Lemma fold_dict_incr l : ∀ seen,
  fold_left dict_incr l (counts_of seen) = counts_of (seen ++ l).
Proof.
  induction l as [|x l IH]; intros seen; simpl.
  - by rewrite app_nil_r.
  - by rewrite dict_incr_counts_of, IH, <-app_assoc.
Qed.

Lemma weak_counts_spec df : weak_counts df = counts_of (all_topics df).
Proof. rewrite weak_counts_fold. apply (fold_dict_incr _ []). Qed.

Lemma first_index_head x l : first_index x (x :: l) = 0%nat.
Proof. simpl. by rewrite String.eqb_refl. Qed.

Lemma first_index_tail t x l :
  t ≠ x → first_index t (x :: l) = S (first_index t l).
Proof.
  intros Hne. simpl. destruct (String.eqb_spec x t) as [Heq|_]; [|done].
  by destruct Hne.
Qed.

Lemma StronglySorted_filter_impl {A} (R R' : A → A → Prop) (P : A → Prop)
    `{∀ x, Decision (P x)} l :
  (∀ a b, P a → P b → R a b → R' a b) →
  StronglySorted R l → StronglySorted R' (filter P l).
Proof.
  intros Himpl. induction 1 as [|a l Hs IH Hall]; [constructor|].
  rewrite filter_cons. destruct (decide (P a)) as [Ha|_]; [|done].
  constructor; [done|]. apply Forall_forall.
  intros b [Hb Hin]%list_elem_of_filter. rewrite Forall_forall in Hall. auto.
Qed.

(** The keys of the dict are in the order in which the topics were first
    met. *)
Lemma first_occurrences_sorted l :
  StronglySorted (fun a b => (first_index a l < first_index b l)%nat)
    (first_occurrences l).
Proof.
  induction l as [|x l IH]; simpl first_occurrences; constructor.
  - eapply StronglySorted_filter_impl; [|exact IH].
    intros a b Ha Hb Hlt. cbv beta in Hlt. rewrite !first_index_tail by done. lia.
  - apply Forall_forall. intros b [Hb _]%list_elem_of_filter.
    rewrite first_index_head, first_index_tail by done. lia.
Qed.

Lemma counts_of_sorted topics :
  StronglySorted (met_before topics) (counts_of topics).
Proof.
  unfold counts_of. generalize (first_occurrences_sorted topics).
  generalize (first_occurrences topics) as l.
  induction 1 as [|a l Hs IH Hall]; simpl; constructor; [done|].
  apply Forall_forall. intros b Hb%list_elem_of_In%in_map_iff.
  destruct Hb as (t & <- & Ht%list_elem_of_In).
  rewrite Forall_forall in Hall. by apply Hall.
Qed.

(** The stable sort. *)
Lemma insert_desc_perm x l : insert_desc x l ≡ₚ x :: l.
Proof.
  induction l as [|y l IH]; simpl; [done|].
  destruct (snd y <=? snd x)%nat; [done|]. rewrite IH. apply Permutation_swap.
Qed.

Lemma sorted_desc_perm l : sorted_desc l ≡ₚ l.
Proof.
  induction l as [|x l IH]; simpl; [done|]. by rewrite insert_desc_perm, IH.
Qed.

Lemma insert_desc_sorted topics x l :
  StronglySorted (ranked_before topics) l →
  Forall (met_before topics x) l →
  StronglySorted (ranked_before topics) (insert_desc x l).
Proof.
  induction 1 as [|y l Hs IH Hall]; intros Hx; simpl.
  - repeat constructor.
  - apply Forall_cons in Hx as [Hxy Hxl].
    destruct (Nat.leb_spec (snd y) (snd x)) as [Hle|Hlt].
    + constructor; [by constructor|]. constructor.
      * unfold ranked_before, met_before in *. lia.
      * rewrite Forall_forall in Hall, Hxl |- *. intros z Hz.
        specialize (Hall z Hz). specialize (Hxl z Hz).
        unfold ranked_before, met_before in *. lia.
    + constructor; [by apply IH|].
      rewrite insert_desc_perm. constructor; [|done].
      unfold ranked_before. lia.
Qed.

Lemma sorted_desc_sorted topics l :
  StronglySorted (met_before topics) l →
  StronglySorted (ranked_before topics) (sorted_desc l).
Proof.
  induction 1 as [|x l Hs IH Hall]; simpl; [constructor|].
  apply insert_desc_sorted; [done|]. by rewrite sorted_desc_perm.
Qed.

(** ** Binary64 arithmetic *)

Lemma inject_Z_xO p : (inject_Z (Zpos p~0) == 2 * inject_Z (Zpos p))%Q.
Proof. rewrite Pos2Z.inj_xO, inject_Z_mult. reflexivity. Qed.

Lemma inject_Z_xI p : (inject_Z (Zpos p~1) == 2 * inject_Z (Zpos p) + 1)%Q.
Proof. rewrite Pos2Z.inj_xI, inject_Z_plus, inject_Z_mult. reflexivity. Qed.

Lemma shr_1_inbetween mrs y y' :
  (y == 2 * y')%Q →
  (0 ≤ shr_m mrs)%Z →
  inbetween (shr_m mrs) (loc_of_shr_record mrs) y →
  (0 ≤ shr_m (shr_1 mrs))%Z ∧
  shr_m (shr_1 mrs) = (shr_m mrs / 2)%Z ∧
  inbetween (shr_m (shr_1 mrs)) (loc_of_shr_record (shr_1 mrs)) y'.
Proof.
  destruct mrs as [m r s]. cbn [shr_m]. intros Hy Hm.
  destruct m as [|p|p]; [| |lia].
  - destruct r, s; cbn [shr_1 shr_m loc_of_shr_record inbetween orb];
      intros H; (split; [lia|]); (split; [done|]);
      change (inject_Z 0) with 0%Q in *; lra.
  - destruct p as [p|p|].
    + pose proof (inject_Z_xI p) as Hp.
      assert (Hd : (Z.pos p~1 / 2 = Z.pos p)%Z)
        by (rewrite Pos2Z.inj_xI; symmetry; apply Z.div_unique with 1%Z; lia).
      destruct r, s; cbn [shr_1 shr_m loc_of_shr_record inbetween orb];
        intros H; (split; [lia|]); (split; [by rewrite Hd|]); lra.
    + pose proof (inject_Z_xO p) as Hp.
      assert (Hd : (Z.pos p~0 / 2 = Z.pos p)%Z)
        by (rewrite Pos2Z.inj_xO; symmetry; apply Z.div_unique with 0%Z; lia).
      destruct r, s; cbn [shr_1 shr_m loc_of_shr_record inbetween orb];
        intros H; (split; [lia|]); (split; [by rewrite Hd|]); lra.
    + destruct r, s; cbn [shr_1 shr_m loc_of_shr_record inbetween orb];
        intros H; (split; [lia|]); (split; [done|]);
        change (inject_Z 1) with 1%Q in *; change (inject_Z 0) with 0%Q; lra.
Qed.

Lemma iter_shr_inbetween p : ∀ mrs y y',
  (y == inject_Z (2 ^ Zpos p) * y')%Q →
  (0 ≤ shr_m mrs)%Z →
  inbetween (shr_m mrs) (loc_of_shr_record mrs) y →
  (0 ≤ shr_m (SpecFloat.iter_pos shr_1 p mrs))%Z ∧
  shr_m (SpecFloat.iter_pos shr_1 p mrs) = (shr_m mrs / 2 ^ Zpos p)%Z ∧
  inbetween (shr_m (SpecFloat.iter_pos shr_1 p mrs))
    (loc_of_shr_record (SpecFloat.iter_pos shr_1 p mrs)) y'.
Proof.
  induction p as [p IH|p IH|]; intros mrs y y' Hy Hm Hin; cbn [SpecFloat.iter_pos].
  - assert (Hpow : (2 ^ Z.pos p~1 = 2 * (2 ^ Z.pos p * 2 ^ Z.pos p))%Z).
    { rewrite Pos2Z.inj_xI, Z.pow_add_r, Z.pow_mul_r, Z.pow_1_r by lia.
      change (2 ^ 2)%Z with 4%Z.
      replace (4 ^ Z.pos p)%Z with (2 ^ Z.pos p * 2 ^ Z.pos p)%Z; [lia|].
      rewrite <-Z.pow_mul_l. done. }
    rewrite Hpow, !inject_Z_mult in Hy.
    destruct (shr_1_inbetween mrs y
                (inject_Z (2 ^ Z.pos p) * (inject_Z (2 ^ Z.pos p) * y'))%Q)
      as (H1 & E1 & I1); [change (inject_Z 2) with 2%Q in Hy; lra|done|done|].
    destruct (IH (shr_1 mrs) _ (inject_Z (2 ^ Z.pos p) * y')%Q (Qeq_refl _) H1 I1)
      as (H2 & E2 & I2).
    destruct (IH _ _ y' (Qeq_refl _) H2 I2) as (H3 & E3 & I3).
    split; [done|]. split; [|done].
    rewrite E3, E2, E1, Hpow, !Z.div_div by lia. done.
  - assert (Hpow : (2 ^ Z.pos p~0 = 2 ^ Z.pos p * 2 ^ Z.pos p)%Z).
    { rewrite (Pos2Z.inj_xO p), Z.pow_mul_r by lia. change (2 ^ 2)%Z with 4%Z.
      rewrite <-Z.pow_mul_l. done. }
    rewrite Hpow, inject_Z_mult in Hy.
    destruct (IH mrs y (inject_Z (2 ^ Z.pos p) * y')%Q) as (H2 & E2 & I2);
      [lra|done|done|].
    destruct (IH _ _ y' (Qeq_refl _) H2 I2) as (H3 & E3 & I3).
    split; [done|]. split; [|done].
    rewrite E3, E2, Hpow, !Z.div_div by lia. done.
  - change (2 ^ 1)%Z with 2%Z in *. change (inject_Z 2) with 2%Q in Hy.
    by apply (shr_1_inbetween mrs y y').
Qed.

Lemma digits2_pos_size p : digits2_pos p = Pos.size p.
Proof. induction p as [p IH|p IH|]; simpl; congruence. Qed.

Lemma Zdigits2_bounds m :
  (0 < m)%Z → (2 ^ (Zdigits2 m - 1) ≤ m < 2 ^ Zdigits2 m)%Z.
Proof.
  destruct m as [|p|p]; [lia| |lia]. intros _. cbn [Zdigits2].
  rewrite digits2_pos_size.
  pose proof (Pos.size_gt p) as Hgt. pose proof (Pos.size_le p) as Hle.
  apply Pos2Z.pos_lt_pos in Hgt. apply Pos2Z.pos_le_pos in Hle.
  rewrite Pos2Z.inj_pow in Hgt, Hle. rewrite (Pos2Z.inj_xO p) in Hle.
  replace (Z.pos (Pos.size p)) with (Z.pos (Pos.size p) - 1 + 1)%Z in Hle at 1 by lia.
  rewrite Z.pow_add_r in Hle by lia. change (2 ^ 1)%Z with 2%Z in Hle.
  change (Z.pos 2) with 2%Z in *. lia.
Qed.

Lemma Zdigits2_unique m d :
  (2 ^ (d - 1) ≤ m < 2 ^ d)%Z → (0 < d)%Z → Zdigits2 m = d.
Proof.
  intros Hm Hd.
  assert (H0 : (0 < m)%Z).
  { assert (0 < 2 ^ (d - 1))%Z by (apply Z.pow_pos_nonneg; lia). lia. }
  pose proof (Zdigits2_bounds m H0) as Hb.
  assert (Hpos : (0 < Zdigits2 m)%Z) by (destruct m; [lia|done|lia]).
  destruct (Z.lt_trichotomy (Zdigits2 m) d) as [Hlt|[Heq|Hgt]]; [|done|].
  - assert (2 ^ Zdigits2 m ≤ 2 ^ (d - 1))%Z by (apply Z.pow_le_mono_r; lia). lia.
  - assert (2 ^ d ≤ 2 ^ (Zdigits2 m - 1))%Z by (apply Z.pow_le_mono_r; lia). lia.
Qed.

Lemma loc_of_shr_record_of_loc m l :
  loc_of_shr_record (shr_record_of_loc m l) = l ∧
  shr_m (shr_record_of_loc m l) = m.
Proof. by destruct l as [|[]]. Qed.

(** The first shift of [binary_round_aux]: a mantissa of at least 53 bits
    is cut to 53 bits. *)
Lemma shr_fexp_spec mx ex lx y :
  (2 ^ 52 ≤ mx)%Z → (-1074 ≤ ex)%Z → inbetween mx lx y →
  ∃ mrs k y1,
    shr_fexp prec emax mx ex lx = (mrs, (ex + k)%Z) ∧
    (0 ≤ k)%Z ∧ k = (Zdigits2 mx - 53)%Z ∧
    (y == inject_Z (2 ^ k) * y1)%Q ∧
    (2 ^ 52 ≤ shr_m mrs < 2 ^ 53)%Z ∧
    inbetween (shr_m mrs) (loc_of_shr_record mrs) y1.
Proof.
  intros Hmx Hex Hin.
  assert (H0 : (0 < mx)%Z) by (change (2 ^ 52)%Z with 4503599627370496%Z in Hmx; lia).
  pose proof (Zdigits2_bounds mx H0) as Hd.
  assert (Hd53 : (53 ≤ Zdigits2 mx)%Z).
  { destruct (Z.le_gt_cases 53 (Zdigits2 mx)) as [?|Hlt]; [done|].
    assert (2 ^ Zdigits2 mx ≤ 2 ^ 52)%Z by (apply Z.pow_le_mono_r; lia). lia. }
  unfold shr_fexp, fexp, SpecFloat.emin, prec, emax.
  replace (Z.max (Zdigits2 mx + ex - 53) (3 - 1024 - 53) - ex)%Z
    with (Zdigits2 mx - 53)%Z by lia.
  destruct (loc_of_shr_record_of_loc mx lx) as [Hl Hm].
  destruct (Zdigits2 mx - 53)%Z as [|p|p] eqn:Hk; [| |lia].
  - exists (shr_record_of_loc mx lx), 0%Z, y. cbn [shr].
    rewrite Z.add_0_r, Hl, Hm.
    assert (Hdig : Zdigits2 mx = 53%Z) by lia. rewrite Hdig in Hd.
    split_and!; [done|lia|done| |lia|lia|done].
    change (inject_Z (2 ^ 0)) with 1%Q. lra.
  - set (y1 := (y * / inject_Z (2 ^ Z.pos p))%Q).
    assert (Hpos : (0 < inject_Z (2 ^ Z.pos p))%Q).
    { change 0%Q with (inject_Z 0). rewrite <-Zlt_Qlt.
      apply Z.pow_pos_nonneg; lia. }
    assert (Hy : (y == inject_Z (2 ^ Z.pos p) * y1)%Q).
    { unfold y1. field. lra. }
    destruct (iter_shr_inbetween p (shr_record_of_loc mx lx) y y1 Hy)
      as (Hge & Heq & Hin1); [by rewrite Hm; lia|by rewrite Hl, Hm|].
    exists (SpecFloat.iter_pos shr_1 p (shr_record_of_loc mx lx)), (Z.pos p), y1.
    cbn [shr]. split; [done|]. split; [lia|]. split; [done|].
    split; [done|]. split; [|done].
    rewrite Heq, Hm.
    assert (Hdig : Zdigits2 mx = (53 + Z.pos p)%Z) by lia.
    rewrite Hdig in Hd.
    replace (53 + Z.pos p - 1)%Z with (52 + Z.pos p)%Z in Hd by lia.
    rewrite !Z.pow_add_r in Hd by lia.
    assert (0 < 2 ^ Z.pos p)%Z by (apply Z.pow_pos_nonneg; lia).
    split.
    + apply Z.div_le_lower_bound; lia.
    + apply Z.div_lt_upper_bound; lia.
Qed.

Lemma inbetween_bounds m l y :
  inbetween m l y → (inject_Z m <= y)%Q ∧ (y < inject_Z m + 1)%Q.
Proof. destruct l as [|[]]; simpl; intros H; split; lra. Qed.

Lemma round_nearest_even_spec m l y :
  inbetween m l y →
  (m ≤ round_nearest_even m l ≤ m + 1)%Z ∧
  (- (1 # 2) <= inject_Z (round_nearest_even m l) - y)%Q ∧
  (inject_Z (round_nearest_even m l) - y <= 1 # 2)%Q.
Proof.
  pose proof (inject_Z_plus m 1) as Hs. change (inject_Z 1) with 1%Q in Hs.
  destruct l as [|[]]; cbn [round_nearest_even inbetween]; intros H;
    try destruct (Z.even m); (split; [lia|]); rewrite ?Hs; split; lra.
Qed.

(** The second shift of [binary_round_aux]: only a mantissa that rounding
    has pushed to [2^53] is shifted. *)
Lemma shr_fexp_exact m e :
  (2 ^ 52 ≤ m ≤ 2 ^ 53)%Z → (-1074 ≤ e)%Z →
  ∃ m' e',
    shr_fexp prec emax m e loc_Exact = (Build_shr_record (Z.pos m') false false, e') ∧
    (2 ^ 52 ≤ Z.pos m' < 2 ^ 53)%Z ∧ (e ≤ e' ≤ e + 1)%Z ∧
    (Z.pos m' * 2 ^ (e' - e) = m)%Z.
Proof.
  intros Hm He. unfold shr_fexp, fexp, SpecFloat.emin, prec, emax.
  destruct (Z.eq_dec m (2 ^ 53)%Z) as [->|Hne].
  - change (Zdigits2 (2 ^ 53)%Z) with 54%Z.
    replace (Z.max (54 + e - 53) (3 - 1024 - 53) - e)%Z with 1%Z by lia.
    exists (2 ^ 52)%positive, (e + 1)%Z. split; [done|].
    replace (e + 1 - e)%Z with 1%Z by lia. split; [done|]. split; [lia|done].
  - assert (Hdig : Zdigits2 m = 53%Z) by (apply Zdigits2_unique; lia).
    rewrite Hdig.
    replace (Z.max (53 + e - 53) (3 - 1024 - 53) - e)%Z with 0%Z by lia.
    destruct m as [|p|p]; [discriminate Hdig| |lia].
    exists p, e. cbn [shr shr_record_of_loc]. split; [done|].
    rewrite Z.sub_diag. split; [lia|]. split; [lia|]. cbn. lia.
Qed.

(** Rounding to nearest, on a mantissa of at least 53 bits: the result is a
    normal number within a relative error of [2^-53]. *)
Lemma round_aux_correct sx mx ex lx y :
  (2 ^ 52 ≤ mx)%Z → (-1074 ≤ ex)%Z → (Zdigits2 mx + ex ≤ 1023)%Z →
  inbetween mx lx y →
  ∃ m e,
    binary_round_aux prec emax sx mx ex lx = S754_finite sx m e ∧
    (2 ^ 52 ≤ Z.pos m < 2 ^ 53)%Z ∧
    (ex + (Zdigits2 mx - 53) ≤ e ≤ ex + (Zdigits2 mx - 53) + 1)%Z ∧
    (- (unit_roundoff * y) <= inject_Z (Z.pos m * 2 ^ (e - ex)) - y)%Q ∧
    (inject_Z (Z.pos m * 2 ^ (e - ex)) - y <= unit_roundoff * y)%Q.
Proof.
  intros Hmx Hex Hov Hin.
  destruct (shr_fexp_spec mx ex lx y Hmx Hex Hin)
    as (mrs & k & y1 & Hshr & Hk & Hkd & Hy & Hm1 & Hin1).
  destruct (round_nearest_even_spec _ _ _ Hin1) as (Hm2 & Hlo & Hhi).
  destruct (inbetween_bounds _ _ _ Hin1) as [Hge _].
  set (m2 := round_nearest_even (shr_m mrs) (loc_of_shr_record mrs)) in *.
  destruct (shr_fexp_exact m2 (ex + k)) as (m & e & Hshr2 & Hm & He & Hval);
    [lia|lia|].
  exists m, e. unfold binary_round_aux. rewrite Hshr. fold m2. rewrite Hshr2.
  cbn [shr_m]. unfold emax, prec.
  assert (Hle : (e <=? 1024 - 53)%Z = true) by (apply Z.leb_le; lia).
  rewrite Hle. split; [done|]. split; [done|]. split; [lia|].
  assert (Hpow : (Z.pos m * 2 ^ (e - ex) = m2 * 2 ^ k)%Z).
  { replace (e - ex)%Z with ((e - (ex + k)) + k)%Z by lia.
    rewrite Z.pow_add_r by lia. rewrite Z.mul_assoc, Hval. done. }
  rewrite Hpow, inject_Z_mult.
  assert (HP : (0 < inject_Z (2 ^ k))%Q).
  { change 0%Q with (inject_Z 0). rewrite <-Zlt_Qlt. apply Z.pow_pos_nonneg; lia. }
  assert (H52 : (inject_Z (2 ^ 52) <= y1)%Q).
  { apply Qle_trans with (inject_Z (shr_m mrs)); [|done].
    rewrite <-Zle_Qle. lia. }
  change (inject_Z (2 ^ 52)) with (4503599627370496 # 1)%Q in H52.
  unfold unit_roundoff. set (P := inject_Z (2 ^ k)) in *. set (a := inject_Z m2) in *.
  split; nra.
Qed.

(** A mantissa of exactly 53 bits is not changed by rounding. *)
Lemma round_aux_exact sx m e :
  (2 ^ 52 ≤ Z.pos m < 2 ^ 53)%Z → (-1074 ≤ e ≤ 971)%Z →
  binary_round_aux prec emax sx (Z.pos m) e loc_Exact = S754_finite sx m e.
Proof.
  intros Hm He.
  assert (Hshr : shr_fexp prec emax (Z.pos m) e loc_Exact =
                 (Build_shr_record (Z.pos m) false false, e)).
  { unfold shr_fexp, fexp, SpecFloat.emin, prec, emax.
    rewrite (Zdigits2_unique (Z.pos m) 53) by lia.
    replace (Z.max (53 + e - 53) (3 - 1024 - 53) - e)%Z with 0%Z by lia.
    done. }
  unfold binary_round_aux. rewrite Hshr.
  cbn [shr_m loc_of_shr_record round_nearest_even]. rewrite Hshr.
  cbn [shr_m]. unfold emax, prec.
  assert (Hle : (e <=? 1024 - 53)%Z = true) by (apply Z.leb_le; lia).
  by rewrite Hle.
Qed.

Lemma iter_xO_spec p d : Z.pos (Pos.iter xO p d) = (Z.pos p * 2 ^ Z.pos d)%Z.
Proof.
  induction d as [|d IH] using Pos.peano_ind.
  - cbn [Pos.iter]. rewrite (Pos2Z.inj_xO p). change (2 ^ 1)%Z with 2%Z. lia.
  - rewrite Pos.iter_succ, (Pos2Z.inj_xO (Pos.iter xO p d)), IH, Pos2Z.inj_succ.
    rewrite Z.pow_succ_r by lia. lia.
Qed.

(** A positive integer below [2^53] is converted exactly: [z = m * 2^e]. *)
Lemma of_uint63_exact z :
  (0 < z < 2 ^ 53)%Z →
  ∃ m e,
    Prim2SF (of_uint63 (of_Z z)) = S754_finite false m e ∧
    (2 ^ 52 ≤ Z.pos m < 2 ^ 53)%Z ∧ (-52 ≤ e ≤ 0)%Z ∧
    (Z.pos m = z * 2 ^ (- e))%Z.
Proof.
  intros Hz. rewrite of_uint63_spec, of_Z_spec.
  rewrite Z.mod_small
    by (change wB with (2 ^ 63)%Z; change (2 ^ 53)%Z with 9007199254740992%Z in Hz;
        change (2 ^ 63)%Z with 9223372036854775808%Z; lia).
  destruct z as [|p|p]; [lia| |lia]. cbn [binary_normalize].
  pose proof (Zdigits2_bounds (Z.pos p) ltac:(lia)) as Hd. cbn [Zdigits2] in Hd.
  set (d := Z.pos (digits2_pos p)) in *.
  assert (Hd53 : (1 ≤ d ≤ 53)%Z).
  { split; [subst d; lia|].
    destruct (Z.le_gt_cases d 53) as [?|Hgt]; [done|].
    assert (2 ^ 53 ≤ 2 ^ (d - 1))%Z by (apply Z.pow_le_mono_r; lia). lia. }
  unfold binary_round. fold d. unfold fexp, SpecFloat.emin, prec, emax.
  replace (Z.max (d + 0 - 53) (3 - 1024 - 53))%Z with (d - 53)%Z by lia.
  unfold shl_align. rewrite Z.sub_0_r.
  destruct (d - 53)%Z as [|q|q] eqn:Hq; [|lia|].
  - assert (d = 53%Z) as Hd' by lia. rewrite Hd' in Hd.
    change (53 - 1)%Z with 52%Z in Hd.
    exists p, 0%Z. split; [by apply round_aux_exact; [|lia]|].
    split; [done|]. split; [lia|]. cbn. lia.
  - assert (Hm : Z.pos (Pos.iter xO p q) = (Z.pos p * 2 ^ Z.pos q)%Z)
      by apply iter_xO_spec.
    assert (Hdq : d = (53 - Z.pos q)%Z) by lia.
    assert (Hpq : (2 ^ 52 ≤ Z.pos p * 2 ^ Z.pos q < 2 ^ 53)%Z).
    { rewrite Hdq in Hd.
      assert (E1 : (2 ^ 52 = 2 ^ (53 - Z.pos q - 1) * 2 ^ Z.pos q)%Z)
        by (rewrite <-Z.pow_add_r by lia; f_equal; lia).
      assert (E2 : (2 ^ 53 = 2 ^ (53 - Z.pos q) * 2 ^ Z.pos q)%Z)
        by (rewrite <-Z.pow_add_r by lia; f_equal; lia).
      assert (0 < 2 ^ Z.pos q)%Z by (apply Z.pow_pos_nonneg; lia).
      rewrite E1, E2.
      split; [apply Z.mul_le_mono_nonneg_r; lia|apply Z.mul_lt_mono_pos_r; lia]. }
    exists (Pos.iter xO p q), (Z.neg q).
    split; [apply round_aux_exact; [by rewrite Hm|lia]|].
    rewrite Hm. split; [done|]. split; [lia|]. done.
Qed.

Lemma new_location_spec d r q y :
  (0 ≤ r < d)%Z →
  (y * inject_Z d == inject_Z (q * d + r))%Q →
  inbetween q (new_location d r) y.
Proof.
  intros Hr Hy. rewrite inject_Z_plus, inject_Z_mult in Hy.
  assert (HD : (0 < inject_Z d)%Q)
    by (change 0%Q with (inject_Z 0); rewrite <-Zlt_Qlt; lia).
  assert (HRD' : (inject_Z r < inject_Z d)%Q) by (rewrite <-Zlt_Qlt; lia).
  assert (H2 : ∀ z, (2 * inject_Z z == inject_Z (2 * z))%Q).
  { intros z. rewrite inject_Z_mult. reflexivity. }
  unfold new_location, new_location_even, new_location_odd.
  destruct (Z.even d) eqn:Hev; cbv beta;
    (destruct (Z.eqb_spec r 0) as [Hr0|Hr0];
     [assert (inject_Z r == 0)%Q as HR by (by rewrite Hr0)
     |assert (0 < inject_Z r)%Q as HR
        by (change 0%Q with (inject_Z 0); rewrite <-Zlt_Qlt; lia)]).
  - cbn [inbetween]. apply (Qmult_inj_r _ _ (inject_Z d)); lra.
  - destruct (Z.compare_spec (2 * r) d) as [Hc|Hc|Hc]; cbn [inbetween].
    + assert (2 * inject_Z r == inject_Z d)%Q as HRD by (by rewrite H2, Hc).
      apply (Qmult_inj_r _ _ (inject_Z d)); [lra|].
      rewrite Qmult_plus_distr_l. lra.
    + assert (2 * inject_Z r < inject_Z d)%Q as HRD
        by (rewrite H2, <-Zlt_Qlt; lia).
      split; nra.
    + assert (inject_Z d < 2 * inject_Z r)%Q as HRD
        by (rewrite H2, <-Zlt_Qlt; lia).
      split; nra.
  - cbn [inbetween]. apply (Qmult_inj_r _ _ (inject_Z d)); lra.
  - assert (Hodd : (2 * r ≠ d)%Z).
    { intros <-. rewrite Z.even_mul in Hev. done. }
    destruct (Z.compare_spec (2 * r + 1) d) as [Hc|Hc|Hc]; cbn [inbetween].
    + assert (2 * inject_Z r < inject_Z d)%Q as HRD
        by (rewrite H2, <-Zlt_Qlt; lia).
      split; nra.
    + assert (2 * inject_Z r < inject_Z d)%Q as HRD
        by (rewrite H2, <-Zlt_Qlt; lia).
      split; nra.
    + assert (inject_Z d < 2 * inject_Z r)%Q as HRD
        by (rewrite H2, <-Zlt_Qlt; lia).
      split; nra.
Qed.

Lemma inject_Z_pos z : (0 < z)%Z → (0 < inject_Z z)%Q.
Proof. intros H. change 0%Q with (inject_Z 0). by rewrite <-Zlt_Qlt. Qed.

(** The quotient of two numbers of 53 bits is within [2^-53] of the exact
    quotient, relatively. *)
Lemma SFdiv_correct mS eS mT eT :
  (2 ^ 52 ≤ Z.pos mS < 2 ^ 53)%Z → (2 ^ 52 ≤ Z.pos mT < 2 ^ 53)%Z →
  (-52 ≤ eS ≤ 11)%Z → (-52 ≤ eT ≤ 11)%Z →
  ∃ m e,
    SFdiv prec emax (S754_finite false mS eS) (S754_finite false mT eT) =
      S754_finite false m e ∧
    (2 ^ 52 ≤ Z.pos m < 2 ^ 53)%Z ∧
    (eS - eT - 53 ≤ e ≤ eS - eT - 51)%Z ∧
    let y := (inject_Z (Z.pos mS * 2 ^ 53) / inject_Z (Z.pos mT))%Q in
    (- (unit_roundoff * y) <= inject_Z (Z.pos m * 2 ^ (e - (eS - eT - 53))) - y)%Q ∧
    (inject_Z (Z.pos m * 2 ^ (e - (eS - eT - 53))) - y <= unit_roundoff * y)%Q.
Proof.
  intros HmS HmT HeS HeT.
  unfold SFdiv, SFdiv_core_binary. cbn [xorb].
  rewrite (Zdigits2_unique (Z.pos mS) 53), (Zdigits2_unique (Z.pos mT) 53) by lia.
  unfold fexp, SpecFloat.emin, prec, emax.
  replace (Z.min (Z.max (53 + eS - (53 + eT) - 53) (3 - 1024 - 53)) (eS - eT))
    with (eS - eT - 53)%Z by lia.
  replace (eS - eT - (eS - eT - 53))%Z with 53%Z by lia.
  rewrite Z.shiftl_mul_pow2 by lia.
  pose proof (Z_div_mod (Z.pos mS * 2 ^ 53) (Z.pos mT) ltac:(lia)) as Hdm.
  destruct (Z.div_eucl (Z.pos mS * 2 ^ 53) (Z.pos mT)) as [q r].
  destruct Hdm as [Hqr Hr].
  set (y := (inject_Z (Z.pos mS * 2 ^ 53) / inject_Z (Z.pos mT))%Q).
  assert (HT : (0 < inject_Z (Z.pos mT))%Q) by (apply inject_Z_pos; lia).
  assert (Hy : (y * inject_Z (Z.pos mT) == inject_Z (q * Z.pos mT + r))%Q).
  { unfold y. rewrite Hqr, (Z.mul_comm (Z.pos mT) q). field. lra. }
  pose proof (new_location_spec _ _ _ _ Hr Hy) as Hin.
  change (2 ^ 52)%Z with 4503599627370496%Z in *.
  change (2 ^ 53)%Z with 9007199254740992%Z in *.
  assert (Hq : (4503599627370496 ≤ q < 18014398509481984)%Z) by nia.
  assert (Hdq : (Zdigits2 q ≤ 54)%Z).
  { pose proof (Zdigits2_bounds q ltac:(lia)) as Hb.
    destruct (Z.le_gt_cases (Zdigits2 q) 54) as [?|Hgt]; [done|].
    assert (2 ^ 54 ≤ 2 ^ (Zdigits2 q - 1))%Z by (apply Z.pow_le_mono_r; lia).
    change (2 ^ 54)%Z with 18014398509481984%Z in *. lia. }
  assert (Hdq' : (53 ≤ Zdigits2 q)%Z).
  { pose proof (Zdigits2_bounds q ltac:(lia)) as Hb.
    destruct (Z.le_gt_cases 53 (Zdigits2 q)) as [?|Hlt]; [done|].
    assert (2 ^ Zdigits2 q ≤ 2 ^ 52)%Z by (apply Z.pow_le_mono_r; lia).
    change (2 ^ 52)%Z with 4503599627370496%Z in *. lia. }
  destruct (round_aux_correct false q (eS - eT - 53) (new_location (Z.pos mT) r) y)
    as (m & e & Hres & Hm & He & Hlo & Hhi);
    [change (2 ^ 52)%Z with 4503599627370496%Z; lia|lia|lia|done|].
  exists m, e. split; [exact Hres|]. split; [exact Hm|]. split; [lia|].
  by split.
Qed.

(** The product of two numbers of 53 bits is within [2^-53] of the exact
    product, relatively. *)
Lemma SFmul_correct m1 e1 m2 e2 :
  (2 ^ 52 ≤ Z.pos m1 < 2 ^ 53)%Z → (2 ^ 52 ≤ Z.pos m2 < 2 ^ 53)%Z →
  (-1074 ≤ e1 + e2 ≤ 900)%Z →
  ∃ m e,
    SFmul prec emax (S754_finite false m1 e1) (S754_finite false m2 e2) =
      S754_finite false m e ∧
    (e1 + e2 ≤ e)%Z ∧
    let y := inject_Z (Z.pos m1 * Z.pos m2) in
    (- (unit_roundoff * y) <= inject_Z (Z.pos m * 2 ^ (e - (e1 + e2))) - y)%Q ∧
    (inject_Z (Z.pos m * 2 ^ (e - (e1 + e2))) - y <= unit_roundoff * y)%Q.
Proof.
  intros Hm1 Hm2 He. unfold SFmul. cbn [xorb].
  change (2 ^ 52)%Z with 4503599627370496%Z in *.
  change (2 ^ 53)%Z with 9007199254740992%Z in *.
  assert (Hp : (4503599627370496 * 4503599627370496 ≤ Z.pos (m1 * m2)
                < 9007199254740992 * 9007199254740992)%Z)
    by (rewrite Pos2Z.inj_mul; nia).
  assert (Hd : (Zdigits2 (Z.pos (m1 * m2)) ≤ 106)%Z).
  { pose proof (Zdigits2_bounds (Z.pos (m1 * m2)) ltac:(lia)) as Hb.
    destruct (Z.le_gt_cases (Zdigits2 (Z.pos (m1 * m2))) 106) as [?|Hgt]; [done|].
    assert (2 ^ 106 ≤ 2 ^ (Zdigits2 (Z.pos (m1 * m2)) - 1))%Z
      by (apply Z.pow_le_mono_r; lia).
    change (2 ^ 106)%Z with (9007199254740992 * 9007199254740992)%Z in *. lia. }
  assert (Hd' : (53 ≤ Zdigits2 (Z.pos (m1 * m2)))%Z).
  { pose proof (Zdigits2_bounds (Z.pos (m1 * m2)) ltac:(lia)) as Hb.
    destruct (Z.le_gt_cases 53 (Zdigits2 (Z.pos (m1 * m2)))) as [?|Hlt]; [done|].
    assert (2 ^ Zdigits2 (Z.pos (m1 * m2)) ≤ 2 ^ 52)%Z
      by (apply Z.pow_le_mono_r; lia).
    change (2 ^ 52)%Z with 4503599627370496%Z in *. lia. }
  destruct (round_aux_correct false (Z.pos (m1 * m2)) (e1 + e2) loc_Exact
              (inject_Z (Z.pos m1 * Z.pos m2)))
    as (m & e & Hres & Hm & Hee & Hlo & Hhi).
  - change (2 ^ 52)%Z with 4503599627370496%Z. lia.
  - lia.
  - lia.
  - cbn [inbetween]. by rewrite Pos2Z.inj_mul.
  - exists m, e. split; [exact Hres|]. split; [lia|]. by split.
Qed.

Lemma pow2_pos e : (0 < 2 ^ e)%Q.
Proof. by apply Qpower_0_lt. Qed.

Lemma scaled_value m e ex :
  (ex ≤ e)%Z →
  (inject_Z (Z.pos m * 2 ^ (e - ex)) == inject_Z (Z.pos m) * 2 ^ e * 2 ^ (- ex))%Q.
Proof.
  intros H. rewrite inject_Z_mult, Zpower_Qpower by lia.
  change (inject_Z 2) with 2%Q.
  replace (e - ex)%Z with (e + - ex)%Z by lia.
  rewrite Qpower_plus by done. ring.
Qed.

Lemma inject_pow2 k : (0 ≤ k)%Z → (inject_Z (2 ^ k) == 2 ^ k)%Q.
Proof. intros H. by rewrite Zpower_Qpower. Qed.

(** Cancelling a positive factor in a relative error bound. *)
Lemma rel_err_scale (c a t : Q) :
  (0 < c)%Q →
  (- (unit_roundoff * (t * c)) <= a * c - t * c)%Q ∧ (a * c - t * c <= unit_roundoff * (t * c))%Q →
  (- (unit_roundoff * t) <= a - t)%Q ∧ (a - t <= unit_roundoff * t)%Q.
Proof. intros Hc [Hlo Hhi]. unfold unit_roundoff in *. split; nra. Qed.

(** A positive integer below [2^63] is converted with a relative error of at
    most [2^-53]. *)
Lemma of_uint63_round z :
  (0 < z < 2 ^ 63)%Z →
  ∃ m e,
    Prim2SF (of_uint63 (of_Z z)) = S754_finite false m e ∧
    (2 ^ 52 ≤ Z.pos m < 2 ^ 53)%Z ∧ (-52 ≤ e ≤ 11)%Z ∧
    (- (unit_roundoff * inject_Z z) <= inject_Z (Z.pos m) * 2 ^ e - inject_Z z)%Q ∧
    (inject_Z (Z.pos m) * 2 ^ e - inject_Z z <= unit_roundoff * inject_Z z)%Q.
Proof.
  intros Hz.
  assert (HzQ : (0 < inject_Z z)%Q) by (apply inject_Z_pos; lia).
  destruct (Z.lt_ge_cases z (2 ^ 53)) as [Hlt|Hge].
  - destruct (of_uint63_exact z ltac:(lia)) as (m & e & H & Hm & He & Hv).
    exists m, e. split; [done|]. split; [done|]. split; [lia|].
    assert (E : (inject_Z (Z.pos m) * 2 ^ e == inject_Z z)%Q).
    { rewrite Hv, inject_Z_mult, inject_pow2 by lia.
      rewrite (Qpower_opp 2 e). pose proof (pow2_pos e). field. lra. }
    rewrite E. unfold unit_roundoff. split; lra.
  - rewrite of_uint63_spec, of_Z_spec.
    rewrite Z.mod_small
      by (change wB with (2 ^ 63)%Z; change (2 ^ 63)%Z with 9223372036854775808%Z in *;
          lia).
    destruct z as [|p|p]; [lia| |lia]. cbn [binary_normalize].
    pose proof (Zdigits2_bounds (Z.pos p) ltac:(lia)) as Hd.
    assert (Hd' : (54 ≤ Zdigits2 (Z.pos p) ≤ 63)%Z).
    { split.
      - destruct (Z.le_gt_cases 54 (Zdigits2 (Z.pos p))) as [?|Hgt]; [done|].
        assert (2 ^ Zdigits2 (Z.pos p) ≤ 2 ^ 53)%Z by (apply Z.pow_le_mono_r; lia).
        lia.
      - destruct (Z.le_gt_cases (Zdigits2 (Z.pos p)) 63) as [?|Hgt]; [done|].
        assert (2 ^ 63 ≤ 2 ^ (Zdigits2 (Z.pos p) - 1))%Z
          by (apply Z.pow_le_mono_r; lia).
        lia. }
    cbn [Zdigits2] in Hd, Hd'.
    set (d := Z.pos (digits2_pos p)) in *.
    unfold binary_round. fold d. unfold fexp, SpecFloat.emin, prec, emax.
    replace (Z.max (d + 0 - 53) (3 - 1024 - 53))%Z with (d - 53)%Z by lia.
    unfold shl_align. rewrite Z.sub_0_r.
    destruct (d - 53)%Z as [|q|q] eqn:Hq; [lia| |lia].
    destruct (round_aux_correct false (Z.pos p) 0 loc_Exact (inject_Z (Z.pos p)))
      as (m & e & Hres & Hm & He & Hlo & Hhi).
    + assert (2 ^ 52 ≤ 2 ^ 53)%Z by (apply Z.pow_le_mono_r; lia). lia.
    + lia.
    + cbn [Zdigits2]. fold d. lia.
    + cbn [inbetween]. reflexivity.
    + cbn [Zdigits2] in He. fold d in He.
      exists m, e. split; [exact Hres|]. split; [exact Hm|]. split; [lia|].
      rewrite scaled_value in Hlo, Hhi by lia.
      change (2 ^ (- 0))%Q with 1%Q in Hlo, Hhi.
      rewrite Qmult_1_r in Hlo, Hhi. by split.
Qed.

(** [(s / t) * 100] in binary64, for integers that are converted exactly:
    within a relative error of [2^-52 + 2^-106] of [100 * s / t]. *)
Lemma percentage_error (s t : Z) :
  (0 < s < 2 ^ 53)%Z → (0 < t < 2 ^ 53)%Z →
  ∃ v,
    float_value (of_uint63 (of_Z s) / of_uint63 (of_Z t) * of_uint63 (of_Z 100))%float
      = Some v ∧
    let x := (100 * inject_Z s / inject_Z t)%Q in
    (Qabs (v - x) <= (unit_roundoff * 2 + unit_roundoff * unit_roundoff) * x)%Q.
Proof.
  intros Hs Ht.
  destruct (of_uint63_exact s Hs) as (mS & eS & HS & HmS & HeS & HvS).
  destruct (of_uint63_exact t Ht) as (mT & eT & HT & HmT & HeT & HvT).
  destruct (of_uint63_exact 100 ltac:(done)) as (mC & eC & HC & HmC & HeC & HvC).
  destruct (SFdiv_correct mS eS mT eT HmS HmT ltac:(lia) ltac:(lia))
    as (m1 & e1 & Hdiv & Hm1 & He1 & Hb1).
  destruct (SFmul_correct m1 e1 mC eC Hm1 HmC ltac:(lia))
    as (m2 & e2 & Hmul & He2 & Hb2).
  cbv zeta in Hb1, Hb2.
  unfold float_value.
  rewrite mul_spec, div_spec, HS, HT, HC. unfold SF64mul, SF64div.
  rewrite Hdiv, Hmul. eexists. split; [reflexivity|]. cbv zeta.
  assert (HsQ : (0 < inject_Z s)%Q) by (apply inject_Z_pos; lia).
  assert (HtQ : (0 < inject_Z t)%Q) by (apply inject_Z_pos; lia).
  set (x := (100 * inject_Z s / inject_Z t)%Q).
  assert (Hx : (0 < x)%Q).
  { unfold x. apply Qlt_shift_div_l; [done|]. lra. }
  set (V1 := (inject_Z (Z.pos m1) * 2 ^ e1)%Q).
  set (v := (inject_Z (Z.pos m2) * 2 ^ e2)%Q).
  (* the quotient *)
  assert (H1 : (- (unit_roundoff * (x * (1 # 100))) <= V1 - x * (1 # 100))%Q ∧
               (V1 - x * (1 # 100) <= unit_roundoff * (x * (1 # 100)))%Q).
  { apply (rel_err_scale (2 ^ (- (eS - eT - 53)))%Q); [apply pow2_pos|].
    rewrite scaled_value in Hb1 by lia. fold V1 in Hb1.
    assert (Hy : (inject_Z (Z.pos mS * 2 ^ 53) / inject_Z (Z.pos mT) ==
                  x * (1 # 100) * 2 ^ (- (eS - eT - 53)))%Q).
    { rewrite HvS, HvT, !inject_Z_mult, !inject_pow2 by lia.
      replace (- (eS - eT - 53))%Z with (- eS + (53 + - - eT))%Z by lia.
      rewrite !Qpower_plus by done. rewrite (Qpower_opp 2 (- eT)).
      pose proof (pow2_pos (- eT)). pose proof (pow2_pos (- eS)).
      unfold x. field. split; lra. }
    rewrite Hy in Hb1. exact Hb1. }
  (* the product *)
  assert (H2 : (- (unit_roundoff * (100 * V1)) <= v - 100 * V1)%Q ∧
               (v - 100 * V1 <= unit_roundoff * (100 * V1))%Q).
  { apply (rel_err_scale (2 ^ (- (e1 + eC)))%Q); [apply pow2_pos|].
    rewrite scaled_value in Hb2 by lia. fold v in Hb2.
    assert (Hy : (inject_Z (Z.pos m1 * Z.pos mC) ==
                  100 * V1 * 2 ^ (- (e1 + eC)))%Q).
    { rewrite HvC, !inject_Z_mult, inject_pow2 by lia.
      replace (- (e1 + eC))%Z with (- e1 + - eC)%Z by lia.
      rewrite Qpower_plus by done. rewrite (Qpower_opp 2 e1).
      pose proof (pow2_pos e1). unfold V1.
      change (inject_Z 100) with 100%Q. field. lra. }
    rewrite Hy in Hb2. exact Hb2. }
  destruct H1 as [H1lo H1hi], H2 as [H2lo H2hi].
  apply Qabs_Qle_condition. unfold unit_roundoff in *.
  split; lra.
Qed.

(** A quotient of two approximations, against the quotient of the numbers
    they approximate. *)
Lemma quotient_bounds (s t VS VT rho x : Q) :
  (0 < s)%Q → (0 < t)%Q →
  (- (unit_roundoff * s) <= VS - s)%Q → (VS - s <= unit_roundoff * s)%Q →
  (- (unit_roundoff * t) <= VT - t)%Q → (VT - t <= unit_roundoff * t)%Q →
  (rho * VT == VS)%Q → (x * t == 100 * s)%Q →
  (0 < rho)%Q ∧
  (rho * (1 - unit_roundoff) <= (1 + unit_roundoff) * (x * (1 # 100)))%Q ∧
  ((1 - unit_roundoff) * (x * (1 # 100)) <= rho * (1 + unit_roundoff))%Q.
Proof.
  unfold unit_roundoff. intros Hs Ht HS1 HS2 HT1 HT2 Hr Hx.
  assert (HVT : (0 < VT)%Q) by lra.
  assert (HVS : (0 < VS)%Q) by lra.
  assert (Hrho : (0 < rho)%Q) by nra.
  split; [done|]. split.
  - apply (Qmult_le_r _ _ t); [done|]. nra.
  - apply (Qmult_le_r _ _ t); [done|]. nra.
Qed.

(** [(s / t) * 100] in binary64, for positive int64 numbers: within a
    relative error of [2^-50] of [100 * s / t]. *)
Lemma percentage_error_int64 (s t : Z) :
  (0 < s < 2 ^ 63)%Z → (0 < t < 2 ^ 63)%Z →
  ∃ v,
    float_value (of_uint63 (of_Z s) / of_uint63 (of_Z t) * of_uint63 (of_Z 100))%float
      = Some v ∧
    let x := (100 * inject_Z s / inject_Z t)%Q in
    (Qabs (v - x) <= unit_roundoff * 8 * x)%Q.
Proof.
  intros Hs Ht.
  destruct (of_uint63_round s Hs) as (mS & eS & HS & HmS & HeS & HS1 & HS2).
  destruct (of_uint63_round t Ht) as (mT & eT & HT & HmT & HeT & HT1 & HT2).
  destruct (of_uint63_exact 100 ltac:(done)) as (mC & eC & HC & HmC & HeC & HvC).
  destruct (SFdiv_correct mS eS mT eT HmS HmT HeS HeT)
    as (m1 & e1 & Hdiv & Hm1 & He1 & Hb1).
  destruct (SFmul_correct m1 e1 mC eC Hm1 HmC ltac:(lia))
    as (m2 & e2 & Hmul & He2 & Hb2).
  cbv zeta in Hb1, Hb2.
  unfold float_value.
  rewrite mul_spec, div_spec, HS, HT, HC. unfold SF64mul, SF64div.
  rewrite Hdiv, Hmul. eexists. split; [reflexivity|]. cbv zeta.
  assert (HsQ : (0 < inject_Z s)%Q) by (apply inject_Z_pos; lia).
  assert (HtQ : (0 < inject_Z t)%Q) by (apply inject_Z_pos; lia).
  assert (HmSQ : (0 < inject_Z (Z.pos mS))%Q) by (apply inject_Z_pos; lia).
  assert (HmTQ : (0 < inject_Z (Z.pos mT))%Q) by (apply inject_Z_pos; lia).
  set (x := (100 * inject_Z s / inject_Z t)%Q).
  assert (Hx : (0 < x)%Q).
  { unfold x. apply Qlt_shift_div_l; [done|]. lra. }
  set (VS := (inject_Z (Z.pos mS) * 2 ^ eS)%Q) in *.
  set (VT := (inject_Z (Z.pos mT) * 2 ^ eT)%Q) in *.
  set (rho := (VS / VT)%Q).
  set (V1 := (inject_Z (Z.pos m1) * 2 ^ e1)%Q).
  set (v := (inject_Z (Z.pos m2) * 2 ^ e2)%Q).
  assert (HVT : (0 < VT)%Q).
  { unfold VT. pose proof (pow2_pos eT). nra. }
  destruct (quotient_bounds (inject_Z s) (inject_Z t) VS VT rho x)
    as (Hrho & Hr1 & Hr2); try done.
  { unfold rho. field. lra. }
  { unfold x. field. lra. }
  (* the quotient *)
  assert (H1 : (- (unit_roundoff * rho) <= V1 - rho)%Q ∧
               (V1 - rho <= unit_roundoff * rho)%Q).
  { apply (rel_err_scale (2 ^ (- (eS - eT - 53)))%Q); [apply pow2_pos|].
    rewrite scaled_value in Hb1 by lia. fold V1 in Hb1.
    assert (Hy : (inject_Z (Z.pos mS * 2 ^ 53) / inject_Z (Z.pos mT) ==
                  rho * 2 ^ (- (eS - eT - 53)))%Q).
    { rewrite inject_Z_mult, inject_pow2 by lia.
      replace (- (eS - eT - 53))%Z with (- eS + (53 + eT))%Z by lia.
      rewrite !Qpower_plus by done. rewrite (Qpower_opp 2 eS).
      pose proof (pow2_pos eT). pose proof (pow2_pos eS).
      unfold rho, VS, VT. field. split_and!; lra. }
    rewrite Hy in Hb1. exact Hb1. }
  (* the product *)
  assert (H2 : (- (unit_roundoff * (100 * V1)) <= v - 100 * V1)%Q ∧
               (v - 100 * V1 <= unit_roundoff * (100 * V1))%Q).
  { apply (rel_err_scale (2 ^ (- (e1 + eC)))%Q); [apply pow2_pos|].
    rewrite scaled_value in Hb2 by lia. fold v in Hb2.
    assert (Hy : (inject_Z (Z.pos m1 * Z.pos mC) ==
                  100 * V1 * 2 ^ (- (e1 + eC)))%Q).
    { rewrite HvC, !inject_Z_mult, inject_pow2 by lia.
      replace (- (e1 + eC))%Z with (- e1 + - eC)%Z by lia.
      rewrite Qpower_plus by done. rewrite (Qpower_opp 2 e1).
      pose proof (pow2_pos e1). unfold V1.
      change (inject_Z 100) with 100%Q. field. lra. }
    rewrite Hy in Hb2. exact Hb2. }
  destruct H1 as [H1lo H1hi], H2 as [H2lo H2hi].
  apply Qabs_Qle_condition. unfold unit_roundoff in *.
  split; lra.
Qed.

(** ** Average percentage *)

Lemma wrap64_small z : (- 2 ^ 63 ≤ z < 2 ^ 63)%Z → wrap64 z = z.
Proof.
  intros H. unfold wrap64.
  change (2 ^ 63)%Z with 9223372036854775808%Z in *.
  change (2 ^ 64)%Z with 18446744073709551616%Z.
  rewrite Z.mod_small by lia. lia.
Qed.

Lemma to_float_nonneg z : (0 ≤ z)%Z → to_float z = of_uint63 (of_Z z).
Proof.
  intros H. unfold to_float.
  destruct (Z.eqb_spec z (- 2 ^ 63)) as [Hz|_].
  - change (2 ^ 63)%Z with 9223372036854775808%Z in Hz. lia.
  - destruct (Z.ltb_spec z 0); [lia|done].
Qed.

Lemma col_sum_nonneg (col : ResultRecord → Z) df :
  Forall (fun r => (0 ≤ col r)%Z) df → (0 ≤ foldr Z.add 0 (map col df))%Z.
Proof. induction 1 as [|r df Hr _ IH]; simpl; lia. Qed.

(** [(0 / t) * 100] is 0. *)
Lemma ratio_pct_zero t :
  (0 < t < 2 ^ 63)%Z → float_value (ratio_pct 0 t) = Some 0%Q.
Proof.
  intros Ht. unfold ratio_pct, float_value.
  rewrite !to_float_nonneg by lia.
  destruct (of_uint63_round t Ht) as (mT & eT & HT & _).
  destruct (of_uint63_exact 100 ltac:(done)) as (mC & eC & HC & _).
  rewrite mul_spec, div_spec, HT, HC.
  change (Prim2SF (of_uint63 (of_Z 0))) with (S754_zero false). done.
Qed.

(** C8 fails as stated.  When [100 * sum(score) / sum(total)] is the integer
    7, for one row with score 7 and total 100, the average is not 7: the code
    computes [(7 / 100) * 100], which is 7.000000000000001 in binary64.  And
    the sums are int64 sums: for two rows with score 1 and total [2^62] the
    sum of the totals wraps around to [-2^63] and the average is negative. *)
Lemma average_formula_counterexample :
  ¬ (∀ df,
       col_sum row_total df ≠ 0%Z →
       ∃ v, float_value (export_pdf_report_avg df) = Some v ∧
            (v == 100 * inject_Z (foldr Z.add 0%Z (map row_score df)) /
                  inject_Z (foldr Z.add 0%Z (map row_total df)))%Q) ∧
  (∃ v, float_value
          (export_pdf_report_avg
             [ex_row 1 (2 ^ 62) None; ex_row 1 (2 ^ 62) None]) = Some v ∧
        (v < 0)%Q).
Proof.
  split.
  - intros H. destruct (H [ex_row 7 100 None]) as (v & Hv & Heq).
    + vm_compute. discriminate.
    + vm_compute in Hv. injection Hv as <-. vm_compute in Heq. discriminate Heq.
  - eexists. split; [vm_compute; reflexivity|]. vm_compute. reflexivity.
Qed.

(** C8 (amended).  The average percentage of the report and of the
    dashboard is 0 when the sum of the totals is 0.  For rows with
    non-negative scores and totals whose sums [s] and [t > 0] are below
    [2^63], so that no int64 sum wraps around, the report and the dashboard
    compute the same binary64 number [(s / t) * 100]: the sums are converted
    to binary64 and the quotient is rounded before the multiplication.  Its
    value is within a relative error of [2^-50] of [100 * s / t], and within
    [2^-52 + 2^-106] when both sums are below [2^53] and so converted
    exactly.  Rows with totals [5, 5] and scores [3, 5] give exactly 80.0. *)
Theorem average_percentage (df : list ResultRecord) :
  let s := foldr Z.add 0%Z (map row_score df) in
  let t := foldr Z.add 0%Z (map row_total df) in
  (col_sum row_total df = 0%Z →
     export_pdf_report_avg df = 0%float ∧
     teacher_dashboard_class_avg df = 0%float) ∧
  (Forall (fun r => (0 ≤ row_score r)%Z ∧ (0 ≤ row_total r)%Z) df →
   (s < 2 ^ 63)%Z → (0 < t < 2 ^ 63)%Z →
     teacher_dashboard_class_avg df = export_pdf_report_avg df ∧
     ∃ v, float_value (export_pdf_report_avg df) = Some v ∧
          (Qabs (v - 100 * inject_Z s / inject_Z t) <=
             unit_roundoff * 8 * (100 * inject_Z s / inject_Z t))%Q ∧
          ((s < 2 ^ 53)%Z → (t < 2 ^ 53)%Z →
           (Qabs (v - 100 * inject_Z s / inject_Z t) <=
              (unit_roundoff * 2 + unit_roundoff * unit_roundoff) *
              (100 * inject_Z s / inject_Z t))%Q)) ∧
  (∀ r1 r2,
     row_score r1 = 3%Z → row_total r1 = 5%Z →
     row_score r2 = 5%Z → row_total r2 = 5%Z →
     export_pdf_report_avg [r1; r2] = 80%float ∧
     teacher_dashboard_class_avg [r1; r2] = 80%float).
Proof.
  intros s t. split_and!.
  - unfold export_pdf_report_avg, teacher_dashboard_class_avg.
    intros ->. by split.
  - intros Hrows Hs Ht.
    assert (Hs0 : (0 ≤ s)%Z).
    { apply col_sum_nonneg. eapply Forall_impl; [exact Hrows|]. by intros r [? _]. }
    assert (HS : col_sum row_score df = s).
    { apply wrap64_small. fold s. lia. }
    assert (HT : col_sum row_total df = t).
    { apply wrap64_small. fold t. lia. }
    unfold export_pdf_report_avg, teacher_dashboard_class_avg.
    rewrite HS, HT.
    destruct (Z.eqb_spec t 0) as [?|_]; [lia|].
    destruct (Z.ltb_spec 0 t) as [_|?]; [|lia]. split; [done|].
    destruct (Z.eq_dec s 0%Z) as [Hz|Hnz].
    + rewrite Hz. exists 0%Q. split; [by apply ratio_pct_zero|].
      change (inject_Z 0) with 0%Q.
      assert (E : (100 * 0 / inject_Z t == 0)%Q) by (unfold Qdiv; ring).
      rewrite E. unfold unit_roundoff.
      split; [|intros _ _]; apply Qabs_Qle_condition; split; lra.
    + unfold ratio_pct. rewrite !to_float_nonneg by lia.
      destruct (percentage_error_int64 s t) as (v & Hv & H8); [lia|lia|].
      exists v. split; [exact Hv|]. split; [exact H8|].
      intros Hs53 Ht53.
      destruct (percentage_error s t) as (v' & Hv' & H2); [lia|lia|].
      rewrite Hv in Hv'. injection Hv' as <-. exact H2.
  - intros r1 r2 Hs1 Ht1 Hs2 Ht2.
    unfold export_pdf_report_avg, teacher_dashboard_class_avg, col_sum.
    simpl. rewrite Hs1, Ht1, Hs2, Ht2. by split; vm_compute.
Qed.

(** Witness of [average_percentage]: one row with score 7 and total 100,
    whose average is not 7. *)
Lemma average_percentage_witness :
  ∃ v, float_value (export_pdf_report_avg [ex_row 7 100 None]) = Some v ∧
       (Qabs (v - 100 * 7 / 100) <= unit_roundoff * 8 * (100 * 7 / 100))%Q ∧
       (Qabs (v - 100 * 7 / 100) <=
          (unit_roundoff * 2 + unit_roundoff * unit_roundoff) * (100 * 7 / 100))%Q.
Proof.
  destruct (average_percentage [ex_row 7 100 None]) as (_ & Hb & _).
  destruct Hb as [_ (v & Hv & H8 & H2)].
  - repeat constructor; simpl; lia.
  - vm_compute. reflexivity.
  - split; vm_compute; reflexivity.
  - exists v. split; [exact Hv|]. split; [exact H8|].
    apply H2; vm_compute; reflexivity.
Defined.

(** ** The scenarios, evaluated *)

Example grade_scenario :
  grade_quiz_submission [ex_mcq; ex_short] ex_answers =
    Some (mkResult 2 2 ["Q1: Correct."; "Q2: Good. Covered key points."] []).
Proof. vm_compute. reflexivity. Qed.

Example grade_scenario_unanswered :
  grade_quiz_submission [ex_mcq; ex_short] ∅ =
    Some (mkResult 0 2
            ["Q1: Incorrect. The correct answer is B.";
             "Q2: Needs improvement. Mention: derivative, integral."]
            ["calculus"; "derivative"; "integral"]).
Proof. vm_compute. reflexivity. Qed.

Example weak_area_scenario :
  export_pdf_report_weak_areas
    [ex_row 3 5 (Some "algebra, algebra, geometry"); ex_row 4 5 None;
     ex_row 5 5 (Some "geometry,Algebra , algebra")] =
    [("algebra", 3%nat); ("geometry", 2%nat); ("Algebra", 1%nat)].
Proof. vm_compute. reflexivity. Qed.

Example average_scenario :
  export_pdf_report_avg [ex_row 3 5 None; ex_row 5 5 None] = 80%float.
Proof. vm_compute. reflexivity. Qed.

(** Two totals of [2^62]: the int64 sum wraps around to [-2^63]; the report
    divides by it, which gives [-200 / 2^63] (about -2.17e-17), and the
    dashboard shows 0. *)
Example average_wrapped :
  col_sum row_total [ex_row 1 (2 ^ 62) None; ex_row 1 (2 ^ 62) None] =
    (- 2 ^ 63)%Z ∧
  to_float (- 2 ^ 63) = (-9223372036854775808)%float ∧
  export_pdf_report_avg [ex_row 1 (2 ^ 62) None; ex_row 1 (2 ^ 62) None] =
    (-0x1.9p-56)%float ∧
  teacher_dashboard_class_avg [ex_row 1 (2 ^ 62) None; ex_row 1 (2 ^ 62) None] =
    0%float.
Proof. by vm_compute. Qed.

(** A score of [2^53 + 1] is not a binary64 number: it is converted to
    [2^53], and against a total of [2^54] the average is exactly 50.0,
    slightly below [100 * (2^53 + 1) / 2^54]. *)
Example average_large :
  to_float (2 ^ 53 + 1) = to_float (2 ^ 53) ∧
  export_pdf_report_avg [ex_row (2 ^ 53 + 1) (2 ^ 54) None] = 50%float.
Proof. by vm_compute. Qed.

(** * Further properties *)

(** ** Text normalisation *)

Lemma rstrip_all_space_or s :
  rstrip s = "" ∨ ∃ c r, rstrip s = String c r.
Proof. destruct (rstrip s); eauto. Qed.

Lemma rstrip_cons c s :
  rstrip (String c s) =
    if is_space c && is_empty (rstrip s) then "" else String c (rstrip s).
Proof. reflexivity. Qed.

Lemma rstrip_app a b :
  rstrip (a +:+ b) = if is_empty (rstrip b) then rstrip a else a +:+ rstrip b.
Proof.
  induction a as [|c a IH].
  - rewrite !str_app_nil_l. by destruct (rstrip b).
  - rewrite str_app_cons, !rstrip_cons, IH.
    destruct (is_empty (rstrip b)) eqn:Hb; [done|].
    rewrite str_app_cons.
    destruct (a +:+ rstrip b) as [|x y] eqn:Hab.
    + apply str_app_eq_nil in Hab as [_ Hr]. by rewrite Hr in Hb.
    + by rewrite andb_false_r.
Qed.

Lemma rstrip_non_space s : str_forall non_space s = true → rstrip s = s.
Proof.
  induction s as [|c s IH]; [done|]. simpl str_forall. unfold non_space at 1.
  intros [Hc Hs]%andb_true_iff. rewrite rstrip_cons, IH by done.
  apply negb_true_iff in Hc. by rewrite Hc.
Qed.

Lemma lstrip_non_space s : str_forall non_space s = true → lstrip s = s.
Proof.
  destruct s as [|c s]; [done|]. simpl. unfold non_space at 1.
  intros [Hc _]%andb_true_iff. apply negb_true_iff in Hc. by rewrite Hc.
Qed.

Lemma strip_non_space s : str_forall non_space s = true → strip s = s.
Proof.
  intros H. unfold strip. by rewrite lstrip_non_space, rstrip_non_space.
Qed.

(** After a whitespace character, [sub_ws] emits no leading whitespace. *)
Lemma lstrip_sub_ws_run s : lstrip (sub_ws true s) = sub_ws true s.
Proof.
  induction s as [|c s IH]; [done|]. simpl.
  destruct (is_space c) eqn:Hc; [exact IH|]. simpl. by rewrite Hc.
Qed.

Lemma lstrip_sub_ws b s : lstrip (sub_ws b s) = lstrip (sub_ws true s).
Proof.
  destruct s as [|c s]; [done|]. simpl.
  destruct (is_space c) eqn:Hc; [|done]. destruct b; [done|].
  simpl. change (is_space " ") with true. cbv iota. done.
Qed.

Lemma runs_non_empty p s : ∀ cur t,
  str_forall p cur = true → t ∈ runs p cur s → t ≠ "".
Proof.
  intros cur t Hcur Ht. apply runs_spec in Ht; [|done].
  by destruct Ht as (_ & _ & _ & Hne & _).
Qed.

Lemma join_space_cons x l :
  join " " (x :: l) = match l with [] => x | _ => x +:+ " " +:+ join " " l end.
Proof. by destruct l. Qed.

Lemma join_space_empty l :
  Forall (fun w => w ≠ "") l → join " " l = "" → l = [].
Proof.
  destruct 1 as [|x l Hx Hl]; [done|]. rewrite join_space_cons.
  destruct l; [done|]. intros [? _]%str_app_eq_nil. done.
Qed.

Lemma split_ws_from_non_empty s : Forall (fun w => w ≠ "") (runs non_space "" s).
Proof.
  apply Forall_forall. intros t Ht.
  exact (runs_non_empty non_space s "" t eq_refl Ht).
Qed.

(** The two halves of the induction: with a word being read, and between
    words. *)
Lemma flush_non_empty cur : cur ≠ "" → flush cur = [cur].
Proof. by destruct cur. Qed.

Lemma clean_text_runs s :
  (∀ cur, cur ≠ "" → str_forall non_space cur = true →
     rstrip (cur +:+ sub_ws false s) = join " " (runs non_space cur s)) ∧
  (∀ b, rstrip (lstrip (sub_ws b s)) = join " " (runs non_space "" s)).
Proof.
  induction s as [|c s [IH1 IH2]]; split.
  - intros cur Hne Hcur. cbn [sub_ws runs].
    by rewrite str_app_nil_r, rstrip_non_space, flush_non_empty.
  - by intros [].
  - intros cur Hne Hcur. cbn [sub_ws runs]. unfold non_space at 1.
    destruct (is_space c) eqn:Hc; cbn [negb].
    + rewrite flush_non_empty by done. cbn [app]. rewrite join_space_cons.
      specialize (IH2 true). rewrite lstrip_sub_ws_run in IH2.
      change (cur +:+ String " " (sub_ws true s))
        with (cur +:+ " " +:+ sub_ws true s).
      rewrite <-str_app_assoc, rstrip_app, IH2.
      pose proof (split_ws_from_non_empty s) as Hall.
      destruct (runs non_space "" s) as [|w ws] eqn:Hw.
      * cbn [join is_empty]. rewrite rstrip_app.
        change (is_empty (rstrip " ")) with true. cbv iota.
        by apply rstrip_non_space.
      * destruct (join " " (w :: ws)) as [|y z] eqn:Hj.
        { by apply join_space_empty in Hj. }
        cbn [is_empty]. by rewrite str_app_assoc.
    + change (cur +:+ String c (sub_ws false s))
        with (cur +:+ String c "" +:+ sub_ws false s).
      rewrite <-str_app_assoc. apply IH1.
      * intros [_ ?]%str_app_eq_nil. done.
      * rewrite str_forall_app. cbn [str_forall]. unfold non_space at 2.
        by rewrite Hcur, Hc.
  - intros b. cbn [sub_ws runs]. unfold non_space at 1.
    destruct (is_space c) eqn:Hc; cbn [negb].
    + cbn [flush is_empty app]. destruct b.
      * apply IH2.
      * cbn [lstrip]. change (is_space " ") with true. cbv iota. apply IH2.
    + cbn [lstrip]. rewrite Hc, str_app_nil_l. rewrite <-(IH1 (String c "")); [done|done|].
      cbn [str_forall]. unfold non_space. by rewrite Hc.
Qed.

Lemma clean_text_words text : _clean_text text = join " " (split_ws text).
Proof.
  unfold _clean_text, strip, split_ws. apply (proj2 (clean_text_runs text)).
Qed.

(** X1. [_clean_text(text)] is [" ".join(text.split())]: the words of the
    text, in order, separated by single spaces. *)
Theorem clean_text_join_split (text : string) :
  _clean_text text = join " " (split_ws text).
Proof.
  unfold _clean_text, strip, split_ws.
  destruct (clean_text_runs text) as [_ Hbetween]. apply Hbetween.
Qed.

Lemma runs_app_run p x : ∀ cur s,
  str_forall p x = true → runs p cur (x +:+ s) = runs p (cur +:+ x) s.
Proof.
  induction x as [|c x IH]; intros cur s Hx.
  - by rewrite str_app_nil_l, str_app_nil_r.
  - cbn [str_forall] in Hx. apply andb_true_iff in Hx as [Hc Hx].
    rewrite str_app_cons. cbn [runs]. rewrite Hc, IH by done.
    by rewrite str_app_assoc.
Qed.

(** Splitting what was joined with one separator character gives the words
    back, when no word is empty or contains a separator-class character. *)
Lemma runs_join p c l :
  p c = false →
  Forall (fun w => w ≠ "" ∧ str_forall p w = true) l →
  runs p "" (join (String c "") l) = l.
Proof.
  intros Hc. induction 1 as [|x l [Hne Hx] Hl IH]; [done|].
  destruct l as [|y l].
  - cbn [join]. transitivity (runs p "" (x +:+ "")); [by rewrite str_app_nil_r|].
    rewrite runs_app_run by done. cbn [runs].
    by rewrite str_app_nil_l, flush_non_empty.
  - change (join (String c "") (x :: y :: l))
      with (x +:+ String c (join (String c "") (y :: l))).
    rewrite runs_app_run by done. cbn [runs]. rewrite Hc, str_app_nil_l.
    by rewrite flush_non_empty, IH.
Qed.

Lemma split_ws_words s :
  Forall (fun w => w ≠ "" ∧ str_forall non_space w = true) (split_ws s).
Proof.
  apply Forall_forall. intros t Ht. unfold split_ws in Ht.
  apply (runs_spec non_space s "" t eq_refl) in Ht.
  by destruct Ht as (_ & _ & _ & Hne & Hall & _).
Qed.

(** X2. [_clean_text] keeps the words of the text and is idempotent:
    cleaning a cleaned text changes nothing. *)
Theorem clean_text_idempotent (text : string) :
  split_ws (_clean_text text) = split_ws text ∧
  _clean_text (_clean_text text) = _clean_text text.
Proof.
  assert (Hw : split_ws (_clean_text text) = split_ws text).
  { rewrite clean_text_words. unfold split_ws at 1.
    apply (runs_join non_space " " (split_ws text)); [done|].
    apply split_ws_words. }
  split; [done|]. by rewrite (clean_text_words (_clean_text text)), Hw,
    clean_text_words.
Qed.

(** ** Study notes *)

Lemma join_split_no_words s : split_ws s = [] → _clean_text s = "".
Proof. intros H. by rewrite clean_text_words, H. Qed.

(** X3. Study notes with the model.  When the pipeline is available and the
    call succeeds, the notes are the header followed by the words of the
    generated continuation (the generated text without its first
    [len(prompt)] characters) separated by single spaces; so a continuation
    without any word gives the header alone, not the fallback bullets.
    When the model is not asked for, is unavailable or raises, the notes are
    the header followed by the five fallback bullets. *)
Theorem study_notes_body (topic subject difficulty : string) (w : LlmWorld) :
  let header := notes_header (strip topic) subject difficulty in
  let prompt := notes_prompt (strip topic) subject difficulty in
  let fallback := fst (generate_study_notes topic subject difficulty false w) in
  (∀ run generated,
     fst (_get_llm_pipeline w) = Some run → run prompt = Some generated →
     let continuation := str_drop (String.length prompt) generated in
     fst (generate_study_notes topic subject difficulty true w) =
       header +:+ join " " (split_ws continuation) ∧
     (split_ws continuation = [] →
      fst (generate_study_notes topic subject difficulty true w) = header)) ∧
  (fst (_get_llm_pipeline w) = None →
     fst (generate_study_notes topic subject difficulty true w) = fallback) ∧
  (∀ run, fst (_get_llm_pipeline w) = Some run → run prompt = None →
     fst (generate_study_notes topic subject difficulty true w) = fallback) ∧
  fallback =
    header +:+ join nl (map (fun p => "- " +:+ p)
                          (notes_points (strip topic) subject difficulty)).
Proof.
  intros header prompt fallback. unfold generate_study_notes in *.
  fold header prompt. split_and!.
  - intros run generated Hrun Hgen.
    destruct (_get_llm_pipeline w) as [llm w'] eqn:Hw. cbn [fst] in Hrun.
    subst llm. rewrite Hgen. cbn [fst]. rewrite clean_text_words.
    split; [done|]. intros ->. cbn [join]. by rewrite str_app_nil_r.
  - destruct (_get_llm_pipeline w) as [llm w'] eqn:Hw. cbn [fst].
    by intros ->.
  - intros run Hrun Hnone.
    destruct (_get_llm_pipeline w) as [llm w'] eqn:Hw. cbn [fst] in Hrun.
    subst llm. by rewrite Hnone.
  - done.
Qed.

(** ** Flashcards *)

Lemma length_list_times {A} (l : list A) k :
  length (concat (replicate k l)) = (k * length l)%nat.
Proof.
  induction k as [|k IH]; [done|]. simpl. rewrite length_app, IH. lia.
Qed.

Lemma lookup_list_times {A} (l : list A) k i :
  (i < k * length l)%nat →
  concat (replicate k l) !! i = l !! (i mod length l)%nat.
Proof.
  revert i. induction k as [|k IH]; intros i Hi; [lia|]. simpl.
  destruct (decide (i < length l)%nat) as [Hlt|Hge].
  - rewrite lookup_app_l by done. by rewrite Nat.mod_small.
  - rewrite lookup_app_r by lia. rewrite IH by lia.
    replace i with ((i - length l) + 1 * length l)%nat at 2 by lia.
    by rewrite Nat.Div0.mod_add.
Qed.

Lemma elem_of_list_times {A} (l : list A) k x :
  x ∈ concat (replicate k l) → x ∈ l.
Proof.
  induction k as [|k IH]; simpl; [by intros ?%elem_of_nil|].
  rewrite elem_of_app. intros [?|?]; auto.
Qed.

Lemma elem_of_py_take {A} (l : list A) n x : x ∈ py_take l n → x ∈ l.
Proof.
  unfold py_take. destruct (0 <=? n)%Z; intros H; by eapply subseteq_take.
Qed.

Lemma length_py_take {A} (l : list A) n :
  (0 ≤ n)%Z → (length (py_take l n) ≤ Z.to_nat n)%nat.
Proof.
  intros Hn. unfold py_take. destruct (Z.leb_spec 0 n); [|lia].
  rewrite length_take. lia.
Qed.

(** The cards built without the model. *)
Lemma fallback_cards (l : list (string * string)) (n : Z) :
  length l = 5%nat →
  let cards := py_take (list_times l ((n + 5 - 1) / 5)) n in
  length cards = Z.to_nat n ∧
  ∀ i, (i < Z.to_nat n)%nat → cards !! i = l !! (i mod 5)%nat.
Proof.
  intros Hl cards. unfold cards, py_take, list_times.
  destruct (Z.leb_spec 0 n) as [Hn|Hn].
  - assert (Hk : (Z.to_nat n ≤ Z.to_nat ((n + 5 - 1) / 5) * 5)%nat).
    { pose proof (Z.div_mod (n + 5 - 1) 5 ltac:(lia)) as Hdm.
      pose proof (Z.mod_pos_bound (n + 5 - 1) 5 ltac:(lia)) as Hb.
      assert (0 ≤ (n + 5 - 1) / 5)%Z by (apply Z.div_pos; lia). lia. }
    split.
    + rewrite length_take, length_list_times, Hl. lia.
    + intros i Hi. rewrite lookup_take_lt by done.
      rewrite lookup_list_times by (rewrite Hl; lia). by rewrite Hl.
  - assert (Hk : ((n + 5 - 1) / 5 ≤ 0)%Z).
    { apply Z.lt_succ_r. apply Z.div_lt_upper_bound; lia. }
    replace (Z.to_nat ((n + 5 - 1) / 5)) with 0%nat by lia.
    simpl. split; [by rewrite take_nil; simpl; lia|]. intros i Hi. lia.
Qed.

(** A line without the separator gives no card. *)
Lemma partition_at_absent sep s :
  str_forall (fun c => negb (Ascii.eqb c sep)) s = true →
  partition_at sep s = None.
Proof.
  induction s as [|c s IH]; [done|]. cbn [str_forall partition_at].
  intros [Hc Hs]%andb_true_iff. apply negb_true_iff in Hc.
  by rewrite Hc, IH.
Qed.

Lemma splitlines_forall p n : ∀ s cur,
  (String.length s ≤ n)%nat →
  str_forall p cur = true → str_forall p s = true →
  Forall (fun line => str_forall p line = true) (splitlines_from cur s).
Proof.
  induction n as [|n IH]; intros s cur Hlen Hcur Hs.
  - destruct s; [|simpl in Hlen; lia]. simpl. unfold flush.
    destruct (is_empty cur); by repeat constructor.
  - destruct s as [|c s]; [simpl; unfold flush; destruct (is_empty cur);
                           by repeat constructor|].
    cbn [str_forall] in Hs. apply andb_true_iff in Hs as [Hc Hs].
    cbn [String.length] in Hlen. cbn [splitlines_from].
    destruct (is_linebreak c).
    + constructor; [done|]. destruct (Ascii.eqb c "013").
      * destruct s as [|c' s']; [apply IH; [lia|done|done]|].
        cbn [str_forall] in Hs. apply andb_true_iff in Hs as [Hc' Hs'].
        cbn [String.length] in Hlen.
        destruct (Ascii.eqb c' "010"); apply IH; try done;
          cbn [String.length str_forall]; try lia.
        by rewrite Hc', Hs'.
      * apply IH; [lia|done|done].
    + apply IH; [lia| |done]. rewrite str_forall_app. cbn [str_forall].
      by rewrite Hcur, Hc.
Qed.

Lemma no_bar_no_cards text :
  str_forall (fun c => negb (Ascii.eqb c "|")) text = true →
  omap parse_card (splitlines text) = [].
Proof.
  intros Hbar. unfold splitlines.
  pose proof (splitlines_forall _ (String.length text) text "" (le_n _) eq_refl Hbar)
    as Hall.
  induction Hall as [|line lines Hline _ IH]; [done|].
  cbn [omap list_omap]. unfold parse_card at 1.
  by rewrite (partition_at_absent _ _ Hline).
Qed.

(** X4. Flashcards without the model.  When the model is not asked for, is
    unavailable or raises, or when its continuation contains no "|", the
    result has exactly [max(0, num_cards)] cards and card [i] is template card
    [i mod 5]: the five templates are cycled. *)
Theorem flashcards_fallback (topic subject difficulty : string) (num_cards : Z)
    (use_llm : bool) (w : LlmWorld) :
  let prompt := flashcards_prompt topic subject difficulty num_cards in
  (use_llm = false ∨
   fst (_get_llm_pipeline w) = None ∨
   (∃ run, fst (_get_llm_pipeline w) = Some run ∧
      (run prompt = None ∨
       ∃ generated, run prompt = Some generated ∧
         str_forall (fun c => negb (Ascii.eqb c "|"))
           (str_drop (String.length prompt) generated) = true))) →
  let cards := fst (generate_flashcards topic subject difficulty num_cards use_llm w) in
  length cards = Z.to_nat num_cards ∧
  ∀ i, (i < Z.to_nat num_cards)%nat →
    cards !! i = base_cards topic subject difficulty !! (i mod 5)%nat.
Proof.
  intros prompt Hcase cards.
  pose proof (fallback_cards (base_cards topic subject difficulty) num_cards eq_refl)
    as Hfb. cbv zeta in Hfb.
  assert (Hcards : cards =
    py_take (list_times (base_cards topic subject difficulty)
               ((num_cards + 5 - 1) / 5)) num_cards); [|by rewrite Hcards].
  unfold cards, generate_flashcards. fold prompt.
  change (Z.of_nat (length (base_cards topic subject difficulty))) with 5%Z.
  destruct use_llm; [|done].
  destruct (_get_llm_pipeline w) as [llm w'] eqn:Hw. cbn [fst] in Hcase.
  destruct Hcase as [?|[->|(run & -> & Hrun)]]; [done|done|].
  destruct Hrun as [->|(generated & -> & Hbar)]; [done|].
  by rewrite (no_bar_no_cards _ Hbar).
Qed.

(** Witness of [flashcards_fallback]: seven cards without the model. *)
Lemma flashcards_fallback_witness :
  length (fst (generate_flashcards "limits" "Mathematics" "Easy" 7 false ex_world)) = 7%nat.
Proof.
  exact (proj1 (flashcards_fallback "limits" "Mathematics" "Easy" 7 false ex_world
                  (or_introl eq_refl))).
Defined.

Lemma base_cards_non_empty topic subject difficulty c :
  c ∈ base_cards topic subject difficulty → c.1 ≠ "" ∧ c.2 ≠ "".
Proof.
  unfold base_cards. rewrite !elem_of_cons, elem_of_nil.
  intros [->|[->|[->|[->|[->|[]]]]]]; split; discriminate.
Qed.

Lemma parse_card_non_empty line c :
  parse_card line = Some c → c.1 ≠ "" ∧ c.2 ≠ "".
Proof.
  unfold parse_card. destruct (partition_at "|" line) as [[qpart apart]|]; [|done].
  cbv zeta.
  destruct (strip (after_first ":" qpart)) as [|x q] eqn:Hq;
    destruct (strip (after_first ":" apart)) as [|y a] eqn:Ha; try done.
  by intros [= <-].
Qed.

(** X5. Every flashcard returned, with or without the model, has a
    non-empty question and a non-empty answer, and for [num_cards >= 0] at
    most [num_cards] cards are returned. *)
Theorem flashcards_well_formed (topic subject difficulty : string) (num_cards : Z)
    (use_llm : bool) (w : LlmWorld) :
  let cards := fst (generate_flashcards topic subject difficulty num_cards use_llm w) in
  Forall (fun c => c.1 ≠ "" ∧ c.2 ≠ "") cards ∧
  ((0 ≤ num_cards)%Z → (length cards ≤ Z.to_nat num_cards)%nat).
Proof.
  intros cards.
  assert (Hbase : ∀ k c,
            c ∈ py_take (list_times (base_cards topic subject difficulty) k) num_cards →
            c.1 ≠ "" ∧ c.2 ≠ "").
  { intros k c Hc%elem_of_py_take%elem_of_list_times.
    by eapply base_cards_non_empty. }
  assert (Hpairs : ∀ text c,
            c ∈ py_take (omap parse_card (splitlines text)) num_cards →
            c.1 ≠ "" ∧ c.2 ≠ "").
  { intros text c Hc%elem_of_py_take.
    apply list_elem_of_omap in Hc as (line & _ & Hline).
    by eapply parse_card_non_empty. }
  unfold cards, generate_flashcards. destruct use_llm.
  - destruct (_get_llm_pipeline w) as [[run|] w'];
      [destruct (run _) as [generated|]; [destruct (Nat.leb _ _)|]|];
      cbn [fst]; (split; [apply Forall_forall; eauto|apply length_py_take]).
  - cbn [fst]. split; [apply Forall_forall; eauto|apply length_py_take].
Qed.

(** ** Accounts *)

Lemma is_space_lower_char c : is_space (lower_char c) = is_space c.
Proof. by destruct c as [[] [] [] [] [] [] [] []]. Qed.

Lemma lower_char_idem c : lower_char (lower_char c) = lower_char c.
Proof. by destruct c as [[] [] [] [] [] [] [] []]. Qed.

Lemma lower_idem s : lower (lower s) = lower s.
Proof.
  induction s as [|c s IH]; [done|]. simpl. by rewrite lower_char_idem, IH.
Qed.

Lemma is_empty_lower s : is_empty (lower s) = is_empty s.
Proof. by destruct s. Qed.

Lemma lower_lstrip s : lower (lstrip s) = lstrip (lower s).
Proof.
  induction s as [|c s IH]; [done|]. cbn [lstrip lower].
  rewrite is_space_lower_char. by destruct (is_space c).
Qed.

Lemma lower_rstrip s : lower (rstrip s) = rstrip (lower s).
Proof.
  induction s as [|c s IH]; [done|]. cbn [lower]. rewrite !rstrip_cons.
  rewrite is_space_lower_char, <-IH, is_empty_lower.
  by destruct (is_space c && is_empty (rstrip s)).
Qed.

Lemma lower_strip s : lower (strip s) = strip (lower s).
Proof. unfold strip. by rewrite lower_rstrip, lower_lstrip. Qed.

Lemma lstrip_starts s : starts_non_space (lstrip s).
Proof.
  induction s as [|c s IH]; [done|]. cbn [lstrip].
  by destruct (is_space c) eqn:Hc.
Qed.

Lemma lstrip_fixed s : starts_non_space s → lstrip s = s.
Proof. destruct s as [|c s]; [done|]. simpl. by intros ->. Qed.

Lemma rstrip_starts s : starts_non_space s → starts_non_space (rstrip s).
Proof.
  destruct s as [|c s]; [done|]. simpl. intros Hc. by rewrite Hc.
Qed.

Lemma rstrip_idem s : rstrip (rstrip s) = rstrip s.
Proof.
  induction s as [|c s IH]; [done|]. rewrite rstrip_cons.
  destruct (is_space c && is_empty (rstrip s)) eqn:Hc; [done|].
  by rewrite rstrip_cons, IH, Hc.
Qed.

Lemma strip_idem s : strip (strip s) = strip s.
Proof.
  unfold strip. rewrite (lstrip_fixed (rstrip (lstrip s))).
  - apply rstrip_idem.
  - apply rstrip_starts, lstrip_starts.
Qed.

Lemma find_app_some {A} (p : A → bool) l l' x :
  find p l = Some x → find p (l ++ l') = Some x.
Proof.
  induction l as [|y l IH]; [done|]. simpl. by destruct (p y).
Qed.

Lemma find_app_none {A} (p : A → bool) l l' :
  find p l = None → find p (l ++ l') = find p l'.
Proof.
  induction l as [|y l IH]; [done|]. simpl. by destruct (p y).
Qed.

Lemma find_no_email email q users :
  existsb (has_email email) users = false →
  find (fun u => has_email email u && q u) users = None.
Proof.
  induction users as [|u users IH]; [done|]. simpl.
  intros [-> Hrest]%orb_false_iff. simpl. auto.
Qed.

(** What a registration does to the store. *)
Lemma register_user_cases name email password role f :
  let e := lower (strip (or_empty email)) in
  let p := strip (or_empty password) in
  let new := mkUser (Some e) (Some p) (Some role) (Some (strip (or_empty name))) in
  (fst (fst (register_user name email password role f)) = false ∧
   snd (register_user name email password role f) = f) ∨
  (register_user name email password role f =
     ((true, "Registered"), UsersStored (_load_users f ++ [new])) ∧
   e ≠ "" ∧ p ≠ "" ∧ valid_role role = true ∧
   existsb (has_email e) (_load_users f) = false).
Proof.
  intros e p new. unfold register_user. fold e p.
  destruct e as [|x e'] eqn:He; [by left|].
  destruct p as [|y p'] eqn:Hp; [by left|].
  destruct (valid_role role) eqn:Hr; [|by left]. cbn [is_empty orb negb].
  destruct (existsb _ _) eqn:Hex; [by left|]. right. by split_and!.
Qed.

(** X6. Register, then log in.  After a successful [register_user], any
    spelling of the same email (case, surrounding whitespace) with the same
    password (up to surrounding whitespace) authenticates, and
    [authenticate_user] returns the account just written: normalised email,
    trimmed password and name, the role given. *)
Theorem register_then_authenticate (name email password : option string)
    (role msg : string) (f f' : UsersFile) :
  register_user name email password role f = ((true, msg), f') →
  ∀ email2 password2,
    lower (strip (or_empty email2)) = lower (strip (or_empty email)) →
    strip (or_empty password2) = strip (or_empty password) →
    authenticate_user email2 password2 f' =
      Some (mkUser (Some (lower (strip (or_empty email))))
              (Some (strip (or_empty password))) (Some role)
              (Some (strip (or_empty name)))).
Proof.
  intros Hreg email2 password2 He Hp.
  destruct (register_user_cases name email password role f)
    as [[Hfail _]|(Hok & _ & _ & _ & Hnew)]; cbv zeta in *.
  - rewrite Hreg in Hfail. done.
  - rewrite Hok in Hreg. injection Hreg as _ <-.
    unfold authenticate_user. rewrite He, Hp. cbn [_load_users].
    rewrite find_app_none by (by apply find_no_email).
    cbn [find]. unfold has_email. cbn [u_email u_password].
    by rewrite !bool_decide_eq_true_2.
Qed.

(** Witness of [register_then_authenticate]: a new account on the demo
    store, then a login with another spelling of the email. *)
Lemma register_then_authenticate_witness :
  authenticate_user (Some "ADA@Example.com") (Some "pw1 ")
    (snd (register_user (Some "Ada") (Some " ada@example.com ") (Some "pw1")
            "student" (UsersStored DEMO_USERS))) =
    Some (mkUser (Some "ada@example.com") (Some "pw1") (Some "student") (Some "Ada")).
Proof.
  exact (register_then_authenticate (Some "Ada") (Some " ada@example.com ")
           (Some "pw1") "student" "Registered" (UsersStored DEMO_USERS) _ eq_refl
           (Some "ADA@Example.com") (Some "pw1 ") eq_refl eq_refl).
Defined.

Lemma has_email_map email users :
  existsb (has_email email) users = false → Some email ∉ map u_email users.
Proof.
  induction users as [|u users IH]; simpl; [intros _; apply not_elem_of_nil|].
  intros [Hu Hrest]%orb_false_iff. apply not_elem_of_cons. split; [|auto].
  unfold has_email in Hu. apply bool_decide_eq_false in Hu. congruence.
Qed.

(** X7. The store stays well formed.  If every stored account has a
    non-empty normalised email, a non-empty trimmed password and a role in
    {student, teacher}, and no email occurs twice, the same holds after any
    call of [register_user], successful or not; the demo accounts and the
    empty store are well formed.  From such a store [authenticate_user]
    returns only such accounts, with the normalised email and the trimmed
    password that were given. *)
Theorem store_stays_well_formed (name email password : option string)
    (role : string) (f : UsersFile) :
  store_ok DEMO_USERS ∧ store_ok (_load_users UsersMissing) ∧
  store_ok (_load_users UsersCorrupt) ∧
  (store_ok (_load_users f) →
   store_ok (_load_users (snd (register_user name email password role f))) ∧
   ∀ u, authenticate_user email password f = Some u →
        account_ok u ∧ u_email u = Some (lower (strip (or_empty email))) ∧
        u_password u = Some (strip (or_empty password)) ∧
        ∃ r, u_role u = Some r ∧ (r = "student" ∨ r = "teacher")).
Proof.
  split_and!.
  - split.
    + repeat constructor; do 4 eexists; (split; [reflexivity|]); by split_and!.
    + apply NoDup_ListNoDup. by repeat constructor; simpl; intuition discriminate.
  - split; constructor.
  - split; constructor.
  - intros [Hall Hnd]. split.
    + destruct (register_user_cases name email password role f)
        as [[_ ->]|(-> & He & Hp & Hr & Hnew)]; cbv zeta in *; [done|].
      cbn [snd _load_users]. split.
      * apply Forall_app. split; [done|]. constructor; [|constructor].
        do 4 eexists. split; [reflexivity|]. split_and!; try done.
        -- by rewrite <-lower_strip, strip_idem, lower_idem.
        -- apply strip_idem.
      * rewrite map_app. apply NoDup_app. split_and!; [done| |].
        -- intros x Hx [->|[]%elem_of_nil]%elem_of_cons.
           by apply has_email_map in Hnew.
        -- apply NoDup_singleton.
    + intros u Hu. unfold authenticate_user in Hu.
      apply find_some in Hu as [Hin Hpred].
      apply andb_true_iff in Hpred as [Hmail Hpw].
      apply bool_decide_eq_true in Hmail. apply bool_decide_eq_true in Hpw.
      rewrite Forall_forall in Hall.
      pose proof (Hall u (proj2 (list_elem_of_In _ _) Hin)) as Hok.
      split_and!; [done|done|done|].
      destruct Hok as (e & p & r & n & -> & _ & _ & _ & _ & Hr).
      exists r. split; [done|]. unfold valid_role in Hr.
      apply orb_true_iff in Hr as [Hr|Hr]; apply String.eqb_eq in Hr; auto.
Qed.

(** X8. A registration touches one login only.  For every email and
    password other than the registered pair (another normalised email,
    another trimmed password), and for every pair when the registration
    fails, [authenticate_user] answers after the call what it answered
    before: existing accounts keep working and nothing else opens. *)
Theorem registration_preserves_logins (name email password : option string)
    (role : string) (f : UsersFile) (email2 password2 : option string) :
  let f' := snd (register_user name email password role f) in
  (lower (strip (or_empty email2)) ≠ lower (strip (or_empty email)) ∨
   strip (or_empty password2) ≠ strip (or_empty password) ∨
   fst (fst (register_user name email password role f)) = false) →
  authenticate_user email2 password2 f' = authenticate_user email2 password2 f.
Proof.
  intros f' Hcase. unfold f'.
  destruct (register_user_cases name email password role f)
    as [[_ ->]|(Hok & _ & _ & _ & Hnew)]; cbv zeta in *; [done|].
  rewrite Hok in *. cbn [fst snd] in *. unfold authenticate_user.
  cbn [_load_users].
  set (e2 := lower (strip (or_empty email2))) in *.
  set (p2 := strip (or_empty password2)) in *.
  set (pred := fun u => has_email e2 u && bool_decide (u_password u = Some p2)).
  destruct (find pred (_load_users f)) as [u|] eqn:Hfind.
  - by apply find_app_some.
  - rewrite find_app_none by done. cbn [find]. unfold pred, has_email.
    cbn [u_email u_password].
    destruct Hcase as [Hne|[Hne|?]]; [| |done].
    + rewrite bool_decide_eq_false_2; [done|]. congruence.
    + rewrite (bool_decide_eq_false_2 (Some _ = Some p2)) by congruence.
      by rewrite andb_false_r.
Qed.

(** Witness of [registration_preserves_logins]: the demo student still logs
    in after another account was added. *)
Lemma registration_preserves_logins_witness :
  authenticate_user (Some "student@example.com") (Some "student123")
    (snd (register_user (Some "Ada") (Some "ada@example.com") (Some "pw1")
            "student" (UsersStored DEMO_USERS))) =
  authenticate_user (Some "student@example.com") (Some "student123")
    (UsersStored DEMO_USERS).
Proof.
  apply (registration_preserves_logins (Some "Ada") (Some "ada@example.com")
           (Some "pw1") "student" (UsersStored DEMO_USERS)
           (Some "student@example.com") (Some "student123")).
  left. vm_compute. discriminate.
Defined.

(** X9. An email registers once.  After a successful registration, a
    second [register_user] for any spelling of the same email fails and
    leaves the file as it is, whatever name, password and role it gives. *)
Theorem duplicate_email_rejected (name email password : option string)
    (role msg : string) (f f' : UsersFile)
    (name2 email2 password2 : option string) (role2 : string) :
  register_user name email password role f = ((true, msg), f') →
  lower (strip (or_empty email2)) = lower (strip (or_empty email)) →
  fst (fst (register_user name2 email2 password2 role2 f')) = false ∧
  snd (register_user name2 email2 password2 role2 f') = f'.
Proof.
  intros Hreg He.
  destruct (register_user_cases name email password role f)
    as [[Hfail _]|(Hok & _ & _ & _ & _)]; cbv zeta in *.
  { rewrite Hreg in Hfail. done. }
  rewrite Hok in Hreg. injection Hreg as _ <-.
  destruct (register_user_cases name2 email2 password2 role2
              (UsersStored (_load_users f ++
                 [mkUser (Some (lower (strip (or_empty email))))
                    (Some (strip (or_empty password))) (Some role)
                    (Some (strip (or_empty name)))])))
    as [?|(_ & _ & _ & _ & Hnew)]; cbv zeta in *; [done|].
  exfalso. rewrite He in Hnew. cbn [_load_users] in Hnew.
  rewrite existsb_app in Hnew. apply orb_false_iff in Hnew as [_ Hnew].
  cbn [existsb] in Hnew. unfold has_email in Hnew. cbn [u_email] in Hnew.
  by rewrite bool_decide_eq_true_2 in Hnew.
Qed.

(** Witness of [duplicate_email_rejected]. *)
Lemma duplicate_email_rejected_witness :
  fst (fst (register_user (Some "Eve") (Some "ADA@example.com ") (Some "other")
              "teacher"
              (snd (register_user (Some "Ada") (Some "ada@example.com")
                      (Some "pw1") "student" (UsersStored DEMO_USERS))))) = false.
Proof.
  exact (proj1 (duplicate_email_rejected (Some "Ada") (Some "ada@example.com")
                  (Some "pw1") "student" "Registered" (UsersStored DEMO_USERS) _
                  (Some "Eve") (Some "ADA@example.com ") (Some "other") "teacher"
                  eq_refl eq_refl)).
Defined.

(** ** The quiz form and the grader *)

Lemma str_of_nat_inj i j : str_of_nat i = str_of_nat j → i = j.
Proof.
  unfold str_of_nat. intros H. apply DecimalNat.Unsigned.to_uint_inj.
  assert (Some (Nat.to_uint i) = Some (Nat.to_uint j)) as [= ->]; [|done].
  by rewrite <-!NilEmpty.usu, H.
Qed.

Lemma ans_key_inj i j : ans_key i = ans_key j → i = j.
Proof.
  unfold ans_key. intros H. apply str_of_nat_inj.
  by apply (String.app_inj "q_") in H.
Qed.

Lemma collect_from_lookup items widget : ∀ idx answers i,
  collect_from idx items widget answers !! ans_key i =
    if decide (idx ≤ i < idx + length items)%nat then Some (widget i)
    else answers !! ans_key i.
Proof.
  induction items as [|item items IH]; intros idx answers i; simpl.
  - rewrite decide_False by lia. done.
  - rewrite IH. destruct (decide (i = idx)) as [->|Hne].
    + rewrite (decide_False (P := (S idx ≤ idx < _)%nat)) by lia.
      rewrite decide_True by lia. apply lookup_insert_eq.
    + rewrite lookup_insert_ne by (intros ?%ans_key_inj; done).
      destruct (decide (S idx ≤ i < S idx + length items)%nat);
        [by rewrite decide_True by lia|by rewrite decide_False by lia].
Qed.

Lemma collect_answers_user_answer items widget i :
  (i < length items)%nat →
  user_answer (collect_answers items widget) i = strip (widget i).
Proof.
  intros Hi. unfold user_answer, collect_answers.
  rewrite collect_from_lookup, decide_True by lia. done.
Qed.

(** X10. The submitted dict.  The answers collected by the quiz form hold,
    under the key of item [i], the value of widget [i], for every item and
    for nothing else; the keys of different items differ, so the grader
    reads for item [i] exactly the trimmed value of widget [i]. *)
Theorem collected_answers_lookup (items : list QuizItem) (widget : nat → string)
    (i : nat) :
  (∀ j, ans_key i = ans_key j → i = j) ∧
  collect_answers items widget !! ans_key i =
    (if decide (i < length items)%nat then Some (widget i) else None) ∧
  ((i < length items)%nat →
   user_answer (collect_answers items widget) i = strip (widget i)).
Proof.
  assert (Hl : collect_answers items widget !! ans_key i =
               if decide (i < length items)%nat then Some (widget i) else None).
  { unfold collect_answers. rewrite collect_from_lookup, lookup_empty.
    destruct (decide (i < length items)%nat);
      [by rewrite decide_True by lia|by rewrite decide_False by lia]. }
  split_and!.
  - intros j. apply ans_key_inj.
  - exact Hl.
  - intros Hi. unfold user_answer. rewrite Hl. by rewrite decide_True.
Qed.

Lemma grade_loop_app answers l1 l2 : ∀ idx st,
  grade_loop answers idx (l1 ++ l2) st =
    grade_loop answers idx l1 st ≫= grade_loop answers (idx + length l1) l2.
Proof.
  induction l1 as [|item l1 IH]; intros idx st; simpl.
  - by rewrite Nat.add_0_r.
  - destruct (grade_item answers idx item st) as [st1|]; [|done]. simpl.
    rewrite IH. by rewrite Nat.add_succ_comm.
Qed.

(** One item either passes (score + 1, weak areas untouched) or leaves the
    score as it is. *)
Lemma grade_item_outcome answers idx item st st' :
  grade_item answers idx item st = Some st' →
  (st_score st' = (st_score st + 1)%Z ∧ st_weak st' = st_weak st) ∨
  st_score st' = st_score st.
Proof.
  unfold grade_item. intros H.
  destruct (String.eqb (type item) "mcq").
  - destruct (answer item) as [a|]; [|done]. simpl in H.
    destruct (String.eqb _ (strip a)).
    + injection H as <-. by left.
    + destruct (explanation item) as [e|]; [|done]. simpl in H.
      injection H as <-. by right.
  - destruct (Nat.leb _ _); injection H as <-; [by left|by right].
Qed.

Lemma grade_loop_perfect answers items : ∀ idx st st',
  grade_loop answers idx items st = Some st' →
  st_score st' = (st_score st + Z.of_nat (length items))%Z →
  st_weak st' = st_weak st.
Proof.
  induction items as [|item items IH]; intros idx st st' H Hsc; simpl in H.
  - by injection H as <-.
  - destruct (grade_item answers idx item st) as [st1|] eqn:H1; [|done].
    simpl in H. destruct (grade_loop_spec _ _ _ _ _ H) as (_ & _ & _ & Hb & _).
    simpl length in Hsc.
    destruct (grade_item_outcome _ _ _ _ _ H1) as [[Hs1 Hw1]|Hs1].
    + rewrite <-Hw1. apply (IH _ _ _ H). lia.
    + lia.
Qed.

(** X11. A perfect score leaves no weak area: when the returned score
    equals the total, weak_areas is empty; so a non-empty weak_areas means
    that some item failed. *)
Theorem perfect_score_no_weak_areas (items : list QuizItem)
    (answers : gmap string string) (r : GradeResult) :
  grade_quiz_submission items answers = Some r →
  (score r = total r → weak_areas r = []) ∧
  (weak_areas r ≠ [] → (score r < total r)%Z).
Proof.
  unfold grade_quiz_submission. intros Hr.
  destruct (grade_loop answers 0 items (mkState 0 [] [])) as [st|] eqn:Hst;
    [|done].
  simpl in Hr. injection Hr as <-. simpl.
  destruct (grade_loop_spec _ _ _ _ _ Hst) as (_ & _ & _ & Hb & _).
  simpl in Hb.
  assert (Hperfect : st_score st = Z.of_nat (length items) →
                     filter (fun w => w ≠ "") (st_weak st) = []).
  { intros Hsc. by rewrite (grade_loop_perfect _ _ _ _ _ Hst). }
  split; [done|]. intros Hw.
  destruct (decide (st_score st = Z.of_nat (length items))) as [Heq|Hne]; [|lia].
  by apply Hperfect in Heq.
Qed.

(** Witness of [perfect_score_no_weak_areas]: the scenario with both items
    passed. *)
Lemma perfect_score_no_weak_areas_witness :
  grade_quiz_submission [ex_mcq; ex_short] ex_answers =
    Some (mkResult 2 2 ["Q1: Correct."; "Q2: Good. Covered key points."] []) ∧
  weak_areas (mkResult 2 2 ["Q1: Correct."; "Q2: Good. Covered key points."] []) = [].
Proof.
  assert (Hr : grade_quiz_submission [ex_mcq; ex_short] ex_answers =
               Some (mkResult 2 2 ["Q1: Correct."; "Q2: Good. Covered key points."] []))
    by (vm_compute; reflexivity).
  split; [exact Hr|].
  exact (proj1 (perfect_score_no_weak_areas [ex_mcq; ex_short] ex_answers _ Hr)
           eq_refl).
Defined.

Lemma grade_loop_own_answers answers items : ∀ idx st,
  (∀ i item, items !! i = Some item →
     type item = "mcq" ∧
     ∃ a, answer item = Some a ∧ user_answer answers (idx + i) = strip a) →
  ∃ st',
    grade_loop answers idx items st = Some st' ∧
    st_score st' = (st_score st + Z.of_nat (length items))%Z ∧
    ∃ fbs, st_feedback st' = st_feedback st ++ fbs ∧
      length fbs = length items ∧
      ∀ i, (i < length items)%nat →
        fbs !! i = Some (qlabel (idx + i) +:+ ": Correct.").
Proof.
  induction items as [|item items IH]; intros idx st Hall; simpl.
  - exists st. split_and!; [done|lia|]. exists []. rewrite app_nil_r.
    split_and!; [done|done|]. simpl. lia.
  - destruct (Hall 0%nat item eq_refl) as (Hty & a & Ha & Hua).
    rewrite Nat.add_0_r in Hua.
    assert (H1 : grade_item answers idx item st =
                 Some (mkState (st_score st + 1)
                         (st_feedback st ++ [qlabel idx +:+ ": Correct."])
                         (st_weak st))).
    { unfold grade_item. rewrite Hty, Ha, Hua. simpl.
      by rewrite String.eqb_refl. }
    rewrite H1. simpl.
    destruct (IH (S idx) (mkState (st_score st + 1)
                            (st_feedback st ++ [qlabel idx +:+ ": Correct."])
                            (st_weak st))) as (st' & -> & Hsc & fbs & Hfb & Hlen & Hi).
    { intros i it Hit. rewrite Nat.add_succ_comm. apply (Hall (S i) it Hit). }
    exists st'. simpl in Hsc, Hfb. split_and!; [done|lia|].
    exists ((qlabel idx +:+ ": Correct.") :: fbs). split_and!.
    + by rewrite Hfb, <-app_assoc.
    + simpl. by rewrite Hlen.
    + intros [|i] Hlt; simpl.
      * by rewrite Nat.add_0_r.
      * rewrite <-Nat.add_succ_comm. apply Hi. simpl in Hlt. lia.
Qed.

Lemma generated_short_gradable topic item : generated_short topic item → gradable item.
Proof. intros [Hty _] Hmcq. congruence. Qed.

(** X12. The quiz flow, answered from the key.  For the items of
    [generate_quiz_items] and a form in which every mcq widget holds the
    item's own answer string, the grader marks each of the first
    [max(0, num_mcq)] items "Q<i+1>: Correct." and the score is at least
    [max(0, num_mcq)]: generator, form and grader agree on positions and
    keys. *)
Theorem own_answers_are_correct (topic subject difficulty : string)
    (num_mcq num_short : Z) (use_llm : bool) (rs rs' : RandomState)
    (items : list QuizItem) (widget : nat → string) :
  generate_quiz_items topic subject difficulty num_mcq num_short use_llm rs =
    Some (items, rs') →
  (∀ i item a, items !! i = Some item → type item = "mcq" →
     answer item = Some a → widget i = a) →
  ∃ r,
    grade_quiz_submission items (collect_answers items widget) = Some r ∧
    (Z.max 0 num_mcq ≤ score r)%Z ∧
    ∀ i, (i < Z.to_nat num_mcq)%nat →
      feedback_list r !! i = Some ("Q" +:+ str_of_nat (i + 1) +:+ ": Correct.").
Proof.
  intros Hgen Hwidget.
  destruct (generate_quiz_items_spec topic subject difficulty num_mcq num_short
              use_llm rs) as (mcqs & shorts & rs2 & Hg & Hlm & Hls & Hma & Hsa).
  rewrite Hgen in Hg. injection Hg as -> <-.
  set (answers := collect_answers (mcqs ++ shorts) widget).
  destruct (grade_loop_own_answers answers mcqs 0 (mkState 0 [] []))
    as (st1 & Hst1 & Hsc1 & fbs1 & Hfb1 & Hlen1 & Hcorrect).
  { intros i item Hi. rewrite Forall_forall in Hma.
    destruct (Hma item (list_elem_of_lookup_2 _ _ _ Hi)) as (Hty & _ & (a & Ha & _) & _).
    split; [done|]. exists a. split; [done|]. simpl.
    assert (Hlt : (i < length (mcqs ++ shorts))%nat).
    { rewrite length_app. apply lookup_lt_Some in Hi. lia. }
    unfold answers. rewrite collect_answers_user_answer by done.
    f_equal. apply (Hwidget i item a); [|done|done].
    by apply lookup_app_l_Some. }
  assert (Hgs : Forall gradable shorts).
  { eapply Forall_impl; [exact Hsa|]. apply generated_short_gradable. }
  destruct (grade_loop_gradable answers shorts Hgs (length mcqs) st1)
    as [st2 Hst2].
  destruct (grade_loop_spec _ _ _ _ _ Hst2) as (fbs2 & Hfb2 & _ & Hsc2 & _).
  exists (mkResult (st_score st2) (Z.of_nat (length (mcqs ++ shorts)))
            (st_feedback st2) (filter (fun w => w ≠ "") (st_weak st2))).
  split_and!.
  - unfold grade_quiz_submission. fold answers.
    rewrite grade_loop_app, Hst1. simpl. by rewrite Hst2.
  - simpl in *. lia.
  - intros i Hi. simpl. rewrite Hfb2, Hfb1. simpl.
    rewrite lookup_app_l.
    + rewrite Hcorrect by lia. unfold qlabel. simpl.
      by rewrite str_app_assoc.
    + rewrite Hlen1. lia.
Qed.

(** Witness of [own_answers_are_correct]: two mcq items and one short item,
    the two radio buttons set to the items' answers. *)
Lemma own_answers_are_correct_witness :
  ∃ items rs' r,
    generate_quiz_items "algebra" "Mathematics" "Easy" 2 1 false ex_random =
      Some (items, rs') ∧
    grade_quiz_submission items
      (collect_answers items
         (fun i => nth i ["Option B about Mathematics";
                          "Option A related to algebra"] "")) = Some r ∧
    (2 ≤ score r)%Z.
Proof.
  destruct (generate_quiz_items "algebra" "Mathematics" "Easy" 2 1 false ex_random)
    as [[items rs']|] eqn:Hgen; [|vm_compute in Hgen; discriminate Hgen].
  exists items, rs'.
  destruct (own_answers_are_correct "algebra" "Mathematics" "Easy" 2 1 false
              ex_random rs' items
              (fun i => nth i ["Option B about Mathematics";
                               "Option A related to algebra"] "") Hgen)
    as (r & Hr & Hsc & _).
  - pose proof Hgen as Hitems. vm_compute in Hitems.
    injection Hitems as <- _.
    intros [|[|[|i]]] item a Hi Hty Ha; simpl in Hi; try discriminate Hi;
      injection Hi as <-; simpl in Ha, Hty; try discriminate Hty;
      by injection Ha as <-.
  - exists r. split; [done|]. split; [exact Hr|exact Hsc].
Defined.

(** ** Which short items can be passed *)

Lemma is_alnum_lower_char c : is_alnum (lower_char c) = is_alnum c.
Proof. by destruct c as [[] [] [] [] [] [] [] []]. Qed.

Lemma space_not_alnum c : is_space c = true → is_alnum c = false.
Proof. by destruct c as [[] [] [] [] [] [] [] []]. Qed.

Lemma str_forall_alnum_lower s :
  str_forall is_alnum (lower s) = str_forall is_alnum s.
Proof.
  induction s as [|c s IH]; [done|]. simpl. by rewrite is_alnum_lower_char, IH.
Qed.

Lemma matchable_spec kw :
  matchable kw = true ↔ lower kw ≠ "" ∧ str_forall is_alnum (lower kw) = true.
Proof.
  unfold matchable. rewrite andb_true_iff, negb_true_iff.
  destruct (lower kw); simpl; intuition congruence.
Qed.

(** Only a matchable keyword can be hit. *)
Lemma hit_matchable kw ua : lower kw ∈ user_tokens ua → matchable kw = true.
Proof.
  intros (pre & post & _ & Hne & Hal & _)%user_tokens_spec.
  by apply matchable_spec.
Qed.

Lemma filter_length_mono {A} (P Q : A → Prop) `{∀ x, Decision (P x)}
    `{∀ x, Decision (Q x)} (l : list A) :
  (∀ x, x ∈ l → P x → Q x) → (length (filter P l) ≤ length (filter Q l))%nat.
Proof.
  induction l as [|x l IH]; intros Himp; [done|].
  rewrite !filter_cons.
  assert (IH' : (length (filter P l) ≤ length (filter Q l))%nat).
  { apply IH. intros y Hy. apply Himp. by right. }
  destruct (decide (P x)) as [HP|_].
  - rewrite decide_True by (apply Himp; [left|done]). simpl. lia.
  - destruct (decide (Q x)); simpl; lia.
Qed.

Lemma runs_lstrip p s :
  (∀ c, is_space c = true → p c = false) →
  runs p "" (lstrip s) = runs p "" s.
Proof.
  intros Hp. induction s as [|c s IH]; [done|]. cbn [lstrip].
  destruct (is_space c) eqn:Hc; [|done].
  cbn [runs]. by rewrite (Hp c Hc), IH.
Qed.

Lemma runs_rstrip p s :
  (∀ c, is_space c = true → p c = false) →
  ∀ cur, runs p cur (rstrip s) = runs p cur s.
Proof.
  intros Hp. induction s as [|c s IH]; intros cur; [done|].
  rewrite rstrip_cons.
  destruct (is_space c && is_empty (rstrip s)) eqn:Hc.
  - apply andb_true_iff in Hc as [Hc Hr]. cbn [runs]. rewrite (Hp c Hc).
    rewrite <-(IH ""). destruct (rstrip s); [|done]. cbn [runs flush is_empty].
    by rewrite app_nil_r.
  - cbn [runs]. destruct (p c); by rewrite IH.
Qed.

Lemma findall_alnum_strip s : findall_alnum (strip s) = findall_alnum s.
Proof.
  unfold findall_alnum, strip.
  rewrite runs_rstrip, runs_lstrip by apply space_not_alnum. done.
Qed.

Lemma lower_app a b : lower (a +:+ b) = lower a +:+ lower b.
Proof.
  induction a as [|c a IH]; [done|]. rewrite str_app_cons. simpl.
  by rewrite IH.
Qed.

Lemma lower_join_space l : lower (join " " l) = join " " (map lower l).
Proof.
  induction l as [|x l IH]; [done|]. destruct l as [|y l]; [done|].
  change (join " " (x :: y :: l)) with (x +:+ " " +:+ join " " (y :: l)).
  rewrite !lower_app, IH. done.
Qed.

(** The tokens of the answer that lists the matchable keywords. *)
Lemma tokens_of_keyword_list goods :
  Forall (fun kw => matchable kw = true) goods →
  findall_alnum (lower (strip (join " " goods))) = map lower goods.
Proof.
  intros Hgoods. rewrite lower_strip, findall_alnum_strip, lower_join_space.
  apply (runs_join is_alnum " "); [done|].
  apply Forall_forall. intros t (kw & -> & Hkw)%list_elem_of_fmap.
  rewrite Forall_forall in Hgoods.
  by apply Hgoods, matchable_spec in Hkw as [Hne Hal].
Qed.

(** X13. Which short items can be passed.  Only a keyword whose lowercase
    form [kw.lower()] is non-empty and made of characters of [[A-Za-z0-9]]
    can be hit, whatever the answer; so a short item is passed by some answer
    exactly when at least [max(1, len(keywords) // 2)] of its keywords are of
    that kind, and an item without keywords is failed by every answer. *)
Theorem short_item_passable (idx : nat) (item : QuizItem) (st : GradeState) :
  type item = "short" →
  let kws := default [] (keywords item) in
  let good := length (filter (fun kw => matchable kw = true) kws) in
  (∀ answers : gmap string string,
     (keyword_hits kws (user_tokens (user_answer answers idx)) ≤ good)%nat) ∧
  ((∃ (answers : gmap string string) st',
      grade_item answers idx item st = Some st' ∧
      st_score st' = (st_score st + 1)%Z) ↔
   (Nat.max 1 (length kws / 2) ≤ good)%nat) ∧
  (kws = [] →
   ∀ answers : gmap string string, ∃ st',
     grade_item answers idx item st = Some st' ∧ st_score st' = st_score st).
Proof.
  intros Hty kws good.
  assert (Hbound : ∀ answers : gmap string string,
            (keyword_hits kws (user_tokens (user_answer answers idx)) ≤ good)%nat).
  { intros answers. unfold keyword_hits, good. apply filter_length_mono.
    intros kw _ Hhit. by eapply hit_matchable. }
  assert (Hg : ∀ answers : gmap string string,
            grade_item answers idx item st =
              if (Nat.max 1 (length kws / 2) <=?
                    keyword_hits kws (user_tokens (user_answer answers idx)))%nat
              then Some (mkState (st_score st + 1)
                           (st_feedback st ++ [qlabel idx +:+ ": Good. Covered key points."])
                           (st_weak st))
              else Some (mkState (st_score st)
                           (st_feedback st ++
                              [qlabel idx +:+ ": Needs improvement. Mention: " +:+
                               (match missed kws (user_tokens (user_answer answers idx)) with
                                | [] => "more specifics"
                                | _ => join ", " (missed kws (user_tokens (user_answer answers idx)))
                                end) +:+ "."])
                           (st_weak st ++
                              list_or (missed kws (user_tokens (user_answer answers idx)))
                                [default "" (topic_tag item)]))).
  { intros answers. apply grade_item_short. by apply type_short_not_mcq. }
  split_and!.
  - exact Hbound.
  - split.
    + intros (answers & st' & Hst' & Hsc). rewrite Hg in Hst'.
      specialize (Hbound answers).
      destruct (Nat.leb_spec (Nat.max 1 (length kws / 2))
                  (keyword_hits kws (user_tokens (user_answer answers idx))))
        as [Hle|Hlt]; injection Hst' as <-; simpl in Hsc; lia.
    + intros Hgood.
      set (goods := filter (fun kw => matchable kw = true) kws).
      set (answers := ({[ ans_key idx := join " " goods ]} : gmap string string)).
      assert (Hhits : (good ≤ keyword_hits kws (user_tokens (user_answer answers idx)))%nat).
      { unfold good, keyword_hits. apply filter_length_mono.
        intros kw Hin Hkw. unfold user_tokens, user_answer, answers.
        rewrite lookup_singleton_eq. simpl.
        rewrite tokens_of_keyword_list.
        - apply elem_of_list_to_set, list_elem_of_fmap. exists kw.
          split; [done|]. by apply list_elem_of_filter.
        - apply Forall_forall. intros x Hx. subst goods.
          by apply list_elem_of_filter in Hx as [? _]. }
      exists answers. eexists. rewrite Hg.
      destruct (Nat.leb_spec (Nat.max 1 (length kws / 2))
                  (keyword_hits kws (user_tokens (user_answer answers idx))))
        as [Hle|Hlt]; [|lia].
      by split.
  - intros Hnil answers. rewrite Hg.
    specialize (Hbound answers). unfold good in Hbound. rewrite Hnil in *.
    simpl in Hbound.
    destruct (Nat.leb_spec (Nat.max 1 (length (@nil string) / 2))
                (keyword_hits [] (user_tokens (user_answer answers idx))))
      as [Hle|Hlt].
    + simpl in Hle. lia.
    + by eexists.
Qed.

(** Witness of [short_item_passable]: the two keywords of the scenario
    are matchable. *)
Lemma short_item_passable_witness :
  ∃ (answers : gmap string string) st',
    grade_item answers 1 ex_short init_state = Some st' ∧
    st_score st' = (st_score init_state + 1)%Z.
Proof.
  destruct (short_item_passable 1 ex_short init_state eq_refl) as (_ & Hiff & _).
  apply (proj2 Hiff). vm_compute. lia.
Defined.

(** ** The grader, item by item *)

(** *** Trimming *)





Lemma lstrip_spaces pre s :
  str_forall is_space pre = true → lstrip (pre +:+ s) = lstrip s.
Proof.
  induction pre as [|c pre IH]; [done|]. cbn [str_forall].
  intros [Hc Hpre]%andb_true_iff. rewrite str_app_cons. cbn [lstrip].
  rewrite Hc. auto.
Qed.

Lemma rstrip_spaces post :
  str_forall is_space post = true → rstrip post = "".
Proof.
  induction post as [|c post IH]; [done|]. cbn [str_forall].
  intros [Hc Hpost]%andb_true_iff. by rewrite rstrip_cons, IH, Hc.
Qed.

Lemma rstrip_ends_fixed t : ends_outside is_space t → rstrip t = t.
Proof.
  unfold ends_outside. induction t as [|c t IH]; [done|]. rewrite rstrip_cons.
  destruct t as [|x t].
  - simpl. intros ->. done.
  - rewrite last_char_cons by done. intros H. rewrite IH by done.
    by rewrite andb_false_r.
Qed.

(** Trimming has one result: the one [strip] computes. *)
Lemma trimmed_strip s t : trimmed s t → t = strip s.
Proof.
  intros (pre & post & -> & Hpre & Hpost & Hstart & Hend). unfold strip.
  rewrite lstrip_spaces by done.
  destruct t as [|c t].
  - rewrite str_app_nil_l.
    replace post with (post +:+ "") by apply str_app_nil_r.
    by rewrite lstrip_spaces.
  - rewrite str_app_cons. cbn [lstrip]. simpl in Hstart. rewrite Hstart.
    rewrite <-str_app_cons, rstrip_app, rstrip_spaces by done.
    cbn [is_empty]. by rewrite rstrip_ends_fixed.
Qed.

(** *** The outcome of each item *)

(** The loop body does the same to every state: it adds the item's outcome. *)
Lemma grade_item_after answers idx item st st' :
  grade_item answers idx item st = Some st' →
  ∃ o fb, ∀ st0, grade_item answers idx item st0 = Some (after_item o fb st0).
Proof.
  unfold grade_item, after_item. intros H.
  destruct (String.eqb (type item) "mcq").
  - destruct (answer item) as [a|]; [|done]. cbn [mbind option_bind] in *.
    destruct (String.eqb _ (strip a)).
    + exists (mkOutcome true []). eexists. intros st0.
      cbn [scored appended]. by rewrite app_nil_r.
    + destruct (explanation item) as [e|]; [|done].
      exists (mkOutcome false [default "" (topic_tag item)]). eexists.
      intros st0. cbn [mbind option_bind scored appended].
      by rewrite Z.add_0_r.
  - destruct (Nat.leb _ _).
    + exists (mkOutcome true []). eexists. intros st0.
      cbn [scored appended]. by rewrite app_nil_r.
    + eexists (mkOutcome false _). eexists. intros st0.
      cbn [scored appended]. by rewrite Z.add_0_r.
Qed.

Lemma grade_loop_outcomes answers items : ∀ idx st st',
  grade_loop answers idx items st = Some st' →
  ∃ (outs : list ItemOutcome) (fbs : list string),
    length outs = length items ∧ length fbs = length items ∧
    st_score st' =
      (st_score st +
       Z.of_nat (length (filter (fun o => scored o = true) outs)))%Z ∧
    st_feedback st' = st_feedback st ++ fbs ∧
    st_weak st' = st_weak st ++ concat (map appended outs) ∧
    ∀ i item, items !! i = Some item →
      ∃ o fb, outs !! i = Some o ∧ fbs !! i = Some fb ∧
        ∀ st0, grade_item answers (idx + i) item st0 = Some (after_item o fb st0).
Proof.
  induction items as [|item items IH]; intros idx st st' H; simpl in H.
  - injection H as <-. exists [], []. rewrite !app_nil_r. simpl.
    split_and!; [done|done|lia|done|done|]. by intros i it ?.
  - destruct (grade_item answers idx item st) as [st1|] eqn:H1; [|done].
    simpl in H. destruct (grade_item_after _ _ _ _ _ H1) as (o & fb & Ho).
    rewrite Ho in H1. injection H1 as <-.
    destruct (IH _ _ _ H) as (outs & fbs & Hlo & Hlf & Hsc & Hfb & Hw & Hidx).
    exists (o :: outs), (fb :: fbs). unfold after_item in *.
    cbn [st_score st_feedback st_weak] in *. split_and!.
    + simpl. by rewrite Hlo.
    + simpl. by rewrite Hlf.
    + rewrite Hsc, filter_cons. destruct (scored o).
      * rewrite decide_True by done. simpl length. lia.
      * rewrite decide_False by done. lia.
    + by rewrite Hfb, <-app_assoc.
    + by rewrite Hw, <-app_assoc.
    + intros [|i] it Hi; simpl in Hi.
      * injection Hi as <-. exists o, fb. rewrite Nat.add_0_r. by split_and!.
      * destruct (Hidx i it Hi) as (o' & fb' & ? & ? & ?).
        exists o', fb'. rewrite <-Nat.add_succ_comm. by split_and!.
Qed.

(** The result of the grader tallies the outcomes of the items. *)
Lemma grade_quiz_submission_outcomes items answers r :
  grade_quiz_submission items answers = Some r →
  ∃ (outs : list ItemOutcome),
    length outs = length items ∧ tallies r outs ∧
    ∀ i item, items !! i = Some item →
      ∃ o fb, outs !! i = Some o ∧ feedback_list r !! i = Some fb ∧
        ∀ st0, grade_item answers i item st0 = Some (after_item o fb st0).
Proof.
  unfold grade_quiz_submission. intros Hr.
  destruct (grade_loop answers 0 items (mkState 0 [] [])) as [st|] eqn:Hst;
    [|done].
  simpl in Hr. injection Hr as <-.
  destruct (grade_loop_outcomes _ _ _ _ _ Hst)
    as (outs & fbs & Hlo & Hlf & Hsc & Hfb & Hw & Hidx).
  simpl in Hsc, Hfb, Hw. exists outs. split; [done|]. split.
  - split; simpl; [done|]. by rewrite Hw.
  - intros i item Hi. destruct (Hidx i item Hi) as (o & fb & ? & ? & ?).
    exists o, fb. simpl. rewrite Hfb. by split_and!.
Qed.

Lemma user_tokens_strip s : user_tokens (strip s) = user_tokens s.
Proof. unfold user_tokens. by rewrite lower_strip, findall_alnum_strip. Qed.

(** C1. Short-answer scoring.  The result of [grade_quiz_submission] tallies
    one outcome per item: the score is the number of items that scored and
    weak_areas is what the items appended, in order, without the empty
    strings.  For every item of type short, the submitted answer is
    lowercased and cut into its alphanumeric words: the tokens are exactly
    the non-empty maximal runs of characters of [[A-Za-z0-9]] (every other
    character is a word boundary), and none has an upper-case letter.
    [hits] counts the keywords whose lowercase form is a token.  The item
    scores, and appends nothing to weak_areas, exactly when
    [hits >= max(1, len(keywords) // 2)]; otherwise it does not score and
    appends the missed keywords, or the topic_tag when the item has no
    keywords at all. *)
Theorem short_answer_scoring (items : list QuizItem)
    (answers : gmap string string) (r : GradeResult) :
  grade_quiz_submission items answers = Some r →
  ∃ outs : list ItemOutcome,
    length outs = length items ∧ tallies r outs ∧
    ∀ idx item, items !! idx = Some item → type item = "short" →
      let kws := default [] (keywords item) in
      let submitted := default "" (answers !! ans_key idx) in
      ∃ toks : gset string,
        (∀ t, t ∈ toks ↔ is_word is_alnum t (lower submitted)) ∧
        (∀ t, t ∈ toks →
           str_forall is_alnum t = true ∧
           str_forall (fun c => negb (is_upper c)) t = true) ∧
        let hits := length (filter (fun kw => lower kw ∈ toks) kws) in
        let miss := filter (fun kw => lower kw ∉ toks) kws in
        let threshold := Nat.max 1 (length kws / 2) in
        ((threshold ≤ hits)%nat → outs !! idx = Some (mkOutcome true [])) ∧
        ((hits < threshold)%nat →
           outs !! idx =
             Some (mkOutcome false
                     match kws with
                     | [] => [default "" (topic_tag item)]
                     | _ => miss
                     end)).
Proof.
  intros Hr.
  destruct (grade_quiz_submission_outcomes _ _ _ Hr) as (outs & Hlen & Htal & Hidx).
  exists outs. split; [done|]. split; [done|].
  intros idx item Hi Hty kws submitted.
  destruct (Hidx idx item Hi) as (o & fb & Ho & _ & Hg).
  destruct (short_item_step answers idx item init_state Hty)
    as (toks & st' & Hst' & Htoks & Hal & Hrest).
  cbv zeta in Hrest. destruct Hrest as [Hpass Hfail].
  fold kws submitted in Htoks, Hpass, Hfail.
  rewrite (Hg init_state) in Hst'. injection Hst' as <-.
  exists toks. split; [|split; [exact Hal|cbv zeta; split]].
  - intros t. rewrite Htoks, <-!user_tokens_spec.
    by rewrite user_tokens_strip.
  - intros Hle. destruct (Hpass Hle) as [Hs Hw]. rewrite Ho. f_equal.
    destruct o as [[] l]; simpl in Hs, Hw; [by subst l|lia].
  - intros Hlt. destruct (Hfail Hlt) as [Hs Hw]. rewrite Ho. f_equal.
    destruct o as [[] l]; simpl in Hs, Hw; [lia|by subst l].
Qed.

(** Witness of [short_answer_scoring]: the scenario of the specification,
    with the keyword "derivative" in the second answer. *)
Lemma short_answer_scoring_witness :
  ∃ outs : list ItemOutcome,
    length outs = 2%nat ∧
    tallies (mkResult 2 2 ["Q1: Correct."; "Q2: Good. Covered key points."] [])
      outs.
Proof.
  destruct (short_answer_scoring [ex_mcq; ex_short] ex_answers
              (mkResult 2 2 ["Q1: Correct."; "Q2: Good. Covered key points."] []))
    as (outs & Hlen & Htal & _).
  - vm_compute. reflexivity.
  - exists outs. split; [exact Hlen|exact Htal].
Defined.

(** C2. MCQ scoring.  The result of [grade_quiz_submission] tallies one
    outcome per item.  For every item of type mcq, the submitted answer and
    the item's answer are both trimmed of their leading and trailing
    whitespace and compared for string equality.  On a match the item scores
    and its feedback is "Q<idx+1>: Correct."; on a mismatch it does not
    score, its feedback contains the item's explanation, and its topic_tag is
    appended to weak_areas, from which the result leaves out the empty
    strings. *)
Theorem mcq_scoring (items : list QuizItem) (answers : gmap string string)
    (r : GradeResult) :
  grade_quiz_submission items answers = Some r →
  ∃ outs : list ItemOutcome,
    length outs = length items ∧ tallies r outs ∧
    ∀ idx item, items !! idx = Some item → type item = "mcq" →
      ∃ a, answer item = Some a ∧
        ∀ ua ca,
          trimmed (default "" (answers !! ans_key idx)) ua → trimmed a ca →
          (ua = ca →
             outs !! idx = Some (mkOutcome true []) ∧
             feedback_list r !! idx =
               Some ("Q" +:+ str_of_nat (idx + 1) +:+ ": Correct.")) ∧
          (ua ≠ ca →
             ∃ e fb,
               explanation item = Some e ∧
               outs !! idx = Some (mkOutcome false [default "" (topic_tag item)]) ∧
               feedback_list r !! idx = Some fb ∧ occurs_in e fb).
Proof.
  intros Hr.
  destruct (grade_quiz_submission_outcomes _ _ _ Hr) as (outs & Hlen & Htal & Hidx).
  exists outs. split; [done|]. split; [done|].
  intros idx item Hi Hty.
  destruct (Hidx idx item Hi) as (o & fb & Ho & Hfb & Hg).
  specialize (Hg init_state). unfold grade_item, user_answer in Hg.
  rewrite Hty in Hg. change (String.eqb "mcq" "mcq") with true in Hg.
  cbv iota in Hg.
  destruct (answer item) as [a|]; [|done]. exists a. split; [done|].
  intros ua ca ->%trimmed_strip ->%trimmed_strip.
  cbn [mbind option_bind] in Hg. split.
  - intros Heq. rewrite Heq, String.eqb_refl in Hg.
    injection Hg as Hs Hf Hw. rewrite Ho, Hfb.
    destruct o as [[] l]; simpl in Hs, Hf, Hw; [|lia]. subst l.
    subst fb. split; [done|].
    unfold qlabel. by rewrite str_app_assoc.
  - intros Hne. apply String.eqb_neq in Hne. rewrite Hne in Hg.
    destruct (explanation item) as [e|]; [|done].
    cbn [mbind option_bind] in Hg. injection Hg as Hs Hf Hw.
    rewrite Ho, Hfb.
    destruct o as [[] l]; simpl in Hs, Hf, Hw; [lia|]. subst l fb.
    exists e, (qlabel idx +:+ ": Incorrect. " +:+ e). split_and!; [done..|].
    exists (qlabel idx +:+ ": Incorrect. "), "".
    by rewrite str_app_nil_r, str_app_assoc.
Qed.

(** Witness of [mcq_scoring]: the mcq scenario, with whitespace around the
    submitted answer and after the item's answer. *)
Lemma mcq_scoring_witness :
  feedback_list (mkResult 1 1 ["Q1: Correct."] []) !! 0%nat = Some "Q1: Correct.".
Proof.
  destruct (mcq_scoring
              [mkItem "mcq" "Which one?" (Some ["o1"; "o2"; "o3"; "o4"])
                 (Some ("o2" +:+ nl)) (Some "The correct answer is B.") None None
                 (Some "calculus")]
              {[ "q_0" := "  o2 " ]}
              (mkResult 1 1 ["Q1: Correct."] []))
    as (outs & _ & _ & Hidx).
  - vm_compute. reflexivity.
  - destruct (Hidx 0%nat _ eq_refl eq_refl) as (a & [= <-] & Hcmp).
    destruct (Hcmp "o2" "o2") as [Hmatch _].
    + exists "  ", " ". by split_and!.
    + exists "", nl. by split_and!.
    + exact (proj2 (Hmatch eq_refl)).
Defined.

(** ** More on the generator *)

Lemma map_strip_words l :
  Forall (fun w => w ≠ "" ∧ str_forall non_space w = true) l → map strip l = l.
Proof.
  induction 1 as [|w l [_ Hw] _ IH]; [done|]. simpl.
  by rewrite strip_non_space, IH.
Qed.

(** X14. The keywords of a generated short item.  [kw.strip()] changes
    nothing: the keywords are the first four whitespace-separated words of
    the topic that have more than 3 characters, in the order of the topic;
    there are at most four, and each is a whole word of the topic, without
    whitespace. *)
Theorem topic_keywords_words (topic : string) :
  topic_keywords topic =
    take 4 (filter (fun kw => (3 < String.length kw)%nat) (split_ws topic)) ∧
  (length (topic_keywords topic) ≤ 4)%nat ∧
  ∀ kw, kw ∈ topic_keywords topic →
    (3 < String.length kw)%nat ∧ str_forall non_space kw = true ∧
    is_word non_space kw topic.
Proof.
  assert (Heq : topic_keywords topic =
            take 4 (filter (fun kw => (3 < String.length kw)%nat) (split_ws topic))).
  { unfold topic_keywords. f_equal. apply map_strip_words.
    pose proof (split_ws_words topic) as Hw. rewrite Forall_forall in Hw |- *.
    intros w [_ Hin]%list_elem_of_filter. auto. }
  split_and!.
  - exact Heq.
  - rewrite Heq, length_take. lia.
  - intros kw. rewrite Heq. intros Hin%subseteq_take.
    apply list_elem_of_filter in Hin as [Hlen Hin]. split; [done|].
    unfold split_ws in Hin. apply (runs_spec non_space topic "" kw eq_refl) in Hin.
    split; [|done]. by destruct Hin as (_ & _ & _ & _ & Hall & _).
Qed.

Lemma topic_keywords_short_words topic :
  Forall (fun w => (String.length w ≤ 3)%nat) (split_ws topic) →
  topic_keywords topic = [].
Proof.
  intros Hall. unfold topic_keywords.
  assert (filter (fun kw => (3 < String.length kw)%nat) (split_ws topic) = [])
    as ->; [|done].
  induction Hall as [|w l Hw _ IH]; [done|].
  rewrite filter_cons, decide_False by lia. done.
Qed.

Lemma grade_item_no_keywords answers idx item st :
  String.eqb (type item) "mcq" = false → default [] (keywords item) = [] →
  ∃ st', grade_item answers idx item st = Some st' ∧ st_score st' = st_score st.
Proof.
  intros Hty Hk. rewrite (grade_item_short answers idx item st Hty). cbv zeta.
  rewrite Hk. by eexists.
Qed.

Lemma grade_loop_no_keywords answers items :
  Forall (fun item => String.eqb (type item) "mcq" = false ∧
                      default [] (keywords item) = []) items →
  ∀ idx st, ∃ st',
    grade_loop answers idx items st = Some st' ∧ st_score st' = st_score st.
Proof.
  induction 1 as [|item items [Hty Hk] _ IH]; intros idx st; simpl.
  - by exists st.
  - destruct (grade_item_no_keywords answers idx item st Hty Hk) as (st1 & -> & H1).
    simpl. destruct (IH (S idx) st1) as (st' & -> & H'). exists st'.
    split; [done|congruence].
Qed.

Lemma generated_mcq_gradable topic subject item :
  generated_mcq topic subject item → gradable item.
Proof. intros (_ & _ & (a & Ha & _) & He) _. split; [by eexists|done]. Qed.

(** X15. Topics of short words.  When every whitespace-separated word of
    the topic has at most 3 characters, the generated short items have no
    keywords: whatever is submitted, every short item fails and the score is
    at most [max(0, num_mcq)]. *)
Theorem short_word_topic_never_passes (topic subject difficulty : string)
    (num_mcq num_short : Z) (use_llm : bool) (rs rs' : RandomState)
    (items : list QuizItem) (answers : gmap string string) :
  Forall (fun w => (String.length w ≤ 3)%nat) (split_ws topic) →
  generate_quiz_items topic subject difficulty num_mcq num_short use_llm rs =
    Some (items, rs') →
  ∃ r,
    grade_quiz_submission items answers = Some r ∧
    (score r ≤ Z.max 0 num_mcq)%Z ∧
    ∀ i item st, items !! i = Some item → type item = "short" →
      keywords item = Some [] ∧
      ∃ st', grade_item answers i item st = Some st' ∧
             st_score st' = st_score st.
Proof.
  intros Hwords Hgen.
  destruct (generate_quiz_items_spec topic subject difficulty num_mcq num_short
              use_llm rs) as (mcqs & shorts & rs2 & Hg & Hlm & Hls & Hma & Hsa).
  rewrite Hgen in Hg. injection Hg as -> <-.
  pose proof (topic_keywords_short_words topic Hwords) as Hnil.
  assert (Hs : Forall (fun item => String.eqb (type item) "mcq" = false ∧
                                   default [] (keywords item) = []) shorts).
  { eapply Forall_impl; [exact Hsa|]. intros item [Hty Hk].
    split; [by apply type_short_not_mcq|]. by rewrite Hk, Hnil. }
  assert (Hm : Forall gradable mcqs).
  { eapply Forall_impl; [exact Hma|]. apply generated_mcq_gradable. }
  destruct (grade_loop_gradable answers mcqs Hm 0%nat (mkState 0 [] []))
    as [st1 Hst1].
  destruct (grade_loop_spec _ _ _ _ _ Hst1) as (_ & _ & _ & Hb1 & _).
  destruct (grade_loop_no_keywords answers shorts Hs (length mcqs) st1)
    as (st2 & Hst2 & Hsc2).
  eexists. split_and!.
  - unfold grade_quiz_submission. rewrite grade_loop_app, Hst1. simpl.
    rewrite Hst2. reflexivity.
  - simpl in *. lia.
  - intros i item st Hi Hty.
    apply lookup_app_Some in Hi as [Hi|[_ Hi]].
    + rewrite Forall_forall in Hma.
      destruct (Hma item (list_elem_of_lookup_2 _ _ _ Hi)) as [Hmcq _]. congruence.
    + rewrite Forall_forall in Hsa, Hs.
      pose proof (list_elem_of_lookup_2 _ _ _ Hi) as Hin.
      destruct (Hsa item Hin) as [_ Hk]. destruct (Hs item Hin) as [Hne Hk'].
      split; [by rewrite Hk, Hnil|]. by apply grade_item_no_keywords.
Qed.

(** Witness of [short_word_topic_never_passes]: the topic "DNA and RNA". *)
Lemma short_word_topic_never_passes_witness :
  ∃ items rs' r,
    generate_quiz_items "DNA and RNA" "Science" "Easy" 1 2 false ex_random =
      Some (items, rs') ∧
    grade_quiz_submission items ex_answers = Some r ∧ (score r ≤ 1)%Z.
Proof.
  destruct (generate_quiz_items "DNA and RNA" "Science" "Easy" 1 2 false ex_random)
    as [[items rs']|] eqn:Hgen; [|vm_compute in Hgen; discriminate Hgen].
  exists items, rs'.
  destruct (short_word_topic_never_passes "DNA and RNA" "Science" "Easy" 1 2 false
              ex_random rs' items ex_answers) as (r & Hr & Hsc & _).
  - vm_compute. repeat constructor.
  - exact Hgen.
  - exists r. split; [done|]. split; [exact Hr|exact Hsc].
Defined.

Lemma mcq_item_consistent topic subject difficulty rs item rs' :
  mcq_item topic subject difficulty rs = Some (item, rs') →
  mcq_consistent topic subject difficulty item.
Proof.
  unfold mcq_item.
  destruct (random_choice_four "A" "B" "C" "D" rs) as (x & -> & Hx).
  rewrite !elem_of_cons, elem_of_nil in Hx.
  destruct Hx as [->|[->|[->|[->|[]]]]]; intros [= <- _];
    (split_and!; [done|done|done|]).
  - exists 0%nat. split_and!; [lia|done|done|]. by eexists.
  - exists 1%nat. split_and!; [lia|done|done|]. by eexists.
  - exists 2%nat. split_and!; [lia|done|done|]. by eexists.
  - exists 3%nat. split_and!; [lia|done|done|]. by eexists.
Qed.

Lemma generate_mcq_loop_consistent topic subject difficulty n :
  ∀ rs items rs',
    generate_mcq_loop topic subject difficulty n rs = Some (items, rs') →
    Forall (mcq_consistent topic subject difficulty) items.
Proof.
  induction n as [|n IH]; intros rs items rs' H; simpl in H.
  - injection H as <- _. constructor.
  - destruct (mcq_item topic subject difficulty rs) as [[item rs1]|] eqn:H1;
      [|done]. simpl in H.
    destruct (generate_mcq_loop topic subject difficulty n rs1)
      as [[rest rs2]|] eqn:H2; [|done]. simpl in H. injection H as <- _.
    constructor; [by eapply mcq_item_consistent|by eapply IH].
Qed.

(** X16. The mcq items of a quiz.  Every generated mcq item carries the
    same question text, the same four options and the topic as its tag; its
    answer is the option "Option X ..." for one letter X of A..D, and its
    explanation names that same letter. *)
Theorem generated_mcq_consistent (topic subject difficulty : string)
    (num_mcq num_short : Z) (use_llm : bool) (rs : RandomState) :
  ∃ items rs',
    generate_quiz_items topic subject difficulty num_mcq num_short use_llm rs =
      Some (items, rs') ∧
    ∀ item, item ∈ items → type item = "mcq" →
      mcq_consistent topic subject difficulty item.
Proof.
  unfold generate_quiz_items, _generate_mcq, _generate_short.
  destruct (generate_mcq_loop_spec topic subject difficulty (Z.to_nat num_mcq) rs)
    as (mcqs & rs1 & Hm & _ & _).
  pose proof (generate_mcq_loop_consistent _ _ _ _ _ _ _ Hm) as Hcons.
  rewrite Hm. simpl.
  destruct (generate_short_loop_spec topic subject difficulty (Z.to_nat num_short) rs1)
    as (shorts & rs2 & -> & _ & Hsa).
  simpl. exists (mcqs ++ shorts), rs2. split; [done|].
  intros item [Hin|Hin]%elem_of_app Hty.
  - rewrite Forall_forall in Hcons. auto.
  - rewrite Forall_forall in Hsa. destruct (Hsa item Hin) as [Hs _]. congruence.
Qed.

(** ** Weak areas, joined and split *)

Lemma split_char_no_sep sep x :
  str_forall (fun c => negb (Ascii.eqb c sep)) x = true → split_char sep x = [x].
Proof.
  induction x as [|c x IH]; [done|]. cbn [str_forall split_char].
  intros [Hc Hx]%andb_true_iff. apply negb_true_iff in Hc.
  by rewrite Hc, IH.
Qed.

Lemma split_char_app sep x rest :
  str_forall (fun c => negb (Ascii.eqb c sep)) x = true →
  split_char sep (x +:+ String sep rest) = x :: split_char sep rest.
Proof.
  induction x as [|c x IH].
  - intros _. rewrite str_app_nil_l. cbn [split_char].
    by rewrite Ascii.eqb_refl.
  - cbn [str_forall]. intros [Hc Hx]%andb_true_iff. apply negb_true_iff in Hc.
    rewrite str_app_cons. cbn [split_char]. by rewrite Hc, IH.
Qed.

Lemma join_comma_cons c x l :
  String c (join ", " (x :: l)) = join ", " (String c x :: l).
Proof. by destruct l. Qed.

Lemma strip_leading_space w : strip (String " " w) = strip w.
Proof. reflexivity. Qed.

Lemma row_topics_join ws : ∀ w0,
  Forall (fun w => w ≠ "" ∧ storable w) ws →
  comma_free w0 = true → strip w0 ≠ "" →
  row_topics (join ", " (w0 :: ws)) = strip w0 :: ws.
Proof.
  unfold row_topics, comma_free.
  induction ws as [|w ws IH]; intros w0 Hall H0 Hne.
  - cbn [join]. rewrite split_char_no_sep by done.
    rewrite filter_cons, decide_True by done. done.
  - apply Forall_cons in Hall as [(Hw & Hstrip & Hcomma) Hall].
    change (join ", " (w0 :: w :: ws))
      with (w0 +:+ String "," (String " " (join ", " (w :: ws)))).
    rewrite split_char_app by done. rewrite join_comma_cons.
    rewrite filter_cons, decide_True by done. cbn [map]. f_equal.
    rewrite IH; [|done| |].
    + by rewrite strip_leading_space, Hstrip.
    + unfold comma_free in Hcomma. cbn [str_forall]. by rewrite Hcomma.
    + by rewrite strip_leading_space, Hstrip.
Qed.

Lemma row_topics_storable ws :
  Forall (fun w => w ≠ "" ∧ storable w) ws → row_topics (join ", " ws) = ws.
Proof.
  destruct 1 as [|w ws (Hne & Hstrip & Hcomma) Hall]; [done|].
  rewrite row_topics_join; [by rewrite Hstrip|done|done|by rewrite Hstrip].
Qed.

(** X17. Joining and splitting weak areas.  [student_dashboard] hands the
    grader's weak areas to the store as one string, joined by ", "; the
    report splits a weak-areas string at the commas and trims the pieces.
    When every weak area of a result is trimmed and has no comma, splitting
    that string gives exactly the list the grader returned, in order and with
    repetitions, and so does a row whose weak_areas cell holds that string.
    (What the CSV file does to a cell between writing and reading is not part
    of the statement.) *)
Theorem weak_areas_join_split (items : list QuizItem)
    (answers : gmap string string) (r : GradeResult) :
  grade_quiz_submission items answers = Some r →
  Forall storable (weak_areas r) →
  row_topics (weak_areas_field r) = weak_areas r ∧
  ∀ row, row_weak_areas row = Some (weak_areas_field r) →
         all_topics [row] = weak_areas r.
Proof.
  intros Hr Hst.
  assert (Hrt : row_topics (weak_areas_field r) = weak_areas r).
  { apply row_topics_storable. pose proof (weak_areas_no_empty _ _ _ Hr) as Hne.
    rewrite Forall_forall in Hst |- *. intros w Hw. split; [|auto].
    intros ->. done. }
  split; [done|]. intros row Hrow. unfold all_topics, weak_fields.
  cbn [omap list_omap]. rewrite Hrow. cbn [map concat]. by rewrite app_nil_r.
Qed.

(** Witness of [weak_areas_join_split]: the unanswered scenario, with weak
    areas calculus, derivative, integral. *)
Lemma weak_areas_join_split_witness :
  row_topics "calculus, derivative, integral" =
    ["calculus"; "derivative"; "integral"].
Proof.
  refine (proj1 (weak_areas_join_split [ex_mcq; ex_short] ∅
                   (mkResult 0 2
                      ["Q1: Incorrect. The correct answer is B.";
                       "Q2: Needs improvement. Mention: derivative, integral."]
                      ["calculus"; "derivative"; "integral"]) _ _)).
  - vm_compute. reflexivity.
  - repeat constructor.
Defined.

Lemma grade_item_weak answers idx item st st' :
  grade_item answers idx item st = Some st' →
  ∃ extra, st_weak st' = st_weak st ++ extra ∧
    ∀ w, w ∈ extra →
      w = default "" (topic_tag item) ∨ w ∈ default [] (keywords item).
Proof.
  unfold grade_item. intros H.
  destruct (String.eqb (type item) "mcq").
  - destruct (answer item) as [a|]; [|done]. simpl in H.
    destruct (String.eqb _ (strip a)).
    + injection H as <-. exists []. simpl. rewrite app_nil_r.
      split; [done|]. by intros w ?%elem_of_nil.
    + destruct (explanation item) as [e|]; [|done]. simpl in H.
      injection H as <-. eexists. split; [reflexivity|].
      intros w ->%list_elem_of_singleton. by left.
  - destruct (Nat.leb _ _); injection H as <-.
    + exists []. simpl. rewrite app_nil_r. split; [done|].
      by intros w ?%elem_of_nil.
    + eexists. split; [reflexivity|]. intros w Hw. unfold list_or, missed in Hw.
      destruct (filter _ _) as [|m ms] eqn:Hm.
      * apply list_elem_of_singleton in Hw. by left.
      * right. rewrite <-Hm in Hw. by apply list_elem_of_filter in Hw as [_ ?].
Qed.

Lemma grade_loop_weak answers items : ∀ idx st st',
  grade_loop answers idx items st = Some st' →
  ∀ w, w ∈ st_weak st' →
    w ∈ st_weak st ∨
    ∃ item, item ∈ items ∧
      (w = default "" (topic_tag item) ∨ w ∈ default [] (keywords item)).
Proof.
  induction items as [|item items IH]; intros idx st st' H w Hw; simpl in H.
  - injection H as <-. by left.
  - destruct (grade_item answers idx item st) as [st1|] eqn:H1; [|done].
    simpl in H. destruct (grade_item_weak _ _ _ _ _ H1) as (extra & Hext & Hfrom).
    destruct (IH _ _ _ H w Hw) as [Hin|(it & Hit & Hor)].
    + rewrite Hext in Hin. apply elem_of_app in Hin as [?|Hin]; [by left|].
      right. exists item. split; [left|auto].
    + right. exists it. split; [by right|done].
Qed.

Lemma generate_quiz_items_tagged topic subject difficulty num_mcq num_short
    use_llm rs items rs' :
  generate_quiz_items topic subject difficulty num_mcq num_short use_llm rs =
    Some (items, rs') →
  Forall (tagged topic) items ∧ Forall gradable items.
Proof.
  unfold generate_quiz_items, _generate_mcq, _generate_short. intros Hgen.
  destruct (generate_mcq_loop_spec topic subject difficulty (Z.to_nat num_mcq) rs)
    as (mcqs & rs1 & Hm & _ & Hma).
  pose proof (generate_mcq_loop_consistent _ _ _ _ _ _ _ Hm) as Hcons.
  rewrite Hm in Hgen. simpl in Hgen.
  destruct (generate_short_loop topic subject difficulty (Z.to_nat num_short) rs1)
    as [[shorts rs2]|] eqn:Hs; [|done].
  simpl in Hgen. injection Hgen as <- _.
  assert (Hst : Forall (fun item => tagged topic item ∧ gradable item) shorts).
  { clear -Hs. revert rs1 shorts rs2 Hs.
    induction (Z.to_nat num_short) as [|n IH]; intros rs1 shorts rs2 Hs;
      simpl in Hs.
    - injection Hs as <- _. constructor.
    - unfold short_item in Hs at 1.
      destruct (random_choice starters rs1) as [[starter rsa]|]; [|done].
      simpl in Hs.
      destruct (generate_short_loop topic subject difficulty n rsa)
        as [[rest rsb]|] eqn:Hrest; [|done].
      simpl in Hs. injection Hs as <- _. constructor; [|by eapply IH].
      split; [by split|]. intros Hty. discriminate Hty. }
  split; apply Forall_app; split.
  - rewrite Forall_forall in Hcons, Hma |- *. intros item Hin.
    destruct (Hcons item Hin) as (_ & _ & Htag & _). split; [done|].
    intros kw Hkw. exfalso.
    assert (keywords item = None) as Hk; [|by rewrite Hk in Hkw; apply elem_of_nil in Hkw].
    clear -Hm Hin. revert rs mcqs rs1 Hm Hin.
    induction (Z.to_nat num_mcq) as [|n IH]; intros rs mcqs rs1 Hm Hin;
      simpl in Hm.
    + injection Hm as <- _. by apply elem_of_nil in Hin.
    + destruct (mcq_item topic subject difficulty rs) as [[it rsa]|] eqn:Hit;
        [|done]. simpl in Hm.
      destruct (generate_mcq_loop topic subject difficulty n rsa)
        as [[rest rsb]|] eqn:Hrest; [|done].
      simpl in Hm. injection Hm as <- _.
      apply elem_of_cons in Hin as [->|Hin]; [|by eapply IH].
      unfold mcq_item in Hit.
      destruct (random_choice ["A"; "B"; "C"; "D"] rs) as [[c rsc]|]; [|done].
      simpl in Hit. destruct (ord_str c) as [oc|]; [|done]. simpl in Hit.
      destruct (py_index _ _) as [ans|]; [|done]. simpl in Hit.
      by injection Hit as <- _.
  - eapply Forall_impl; [exact Hst|]. by intros item [? _].
  - eapply Forall_impl; [exact Hma|]. apply generated_mcq_gradable.
  - eapply Forall_impl; [exact Hst|]. by intros item [_ ?].
Qed.

Lemma topic_keyword_storable topic kw :
  comma_free topic = true → kw ∈ topic_keywords topic → kw ≠ "" ∧ storable kw.
Proof.
  intros Hc Hkw. unfold topic_keywords in Hkw.
  apply subseteq_take in Hkw.
  apply list_elem_of_fmap in Hkw as (w & -> & Hw).
  apply list_elem_of_filter in Hw as [_ Hw]. unfold split_ws in Hw.
  apply (runs_spec non_space topic "" w eq_refl) in Hw.
  destruct Hw as (pre & post & Heq & Hne & Hall & _).
  rewrite strip_non_space by done. split; [done|]. split.
  - by apply strip_non_space.
  - unfold comma_free in *. rewrite str_app_nil_l in Heq. rewrite Heq in Hc.
    rewrite !str_forall_app in Hc.
    by apply andb_true_iff in Hc as [_ [? _]%andb_true_iff].
Qed.

(** X18. From the quiz to the joined string.  For a topic that is trimmed
    and has no comma, whatever is submitted for the generated quiz, the weak
    areas of the result are the topic or keywords of the topic, and
    splitting their ", "-join as the report splits a weak-areas string gives
    exactly the weak areas the grader returned. *)
Theorem quiz_weak_areas_split_back (topic subject difficulty : string)
    (num_mcq num_short : Z) (use_llm : bool) (rs rs' : RandomState)
    (items : list QuizItem) (answers : gmap string string) :
  storable topic →
  generate_quiz_items topic subject difficulty num_mcq num_short use_llm rs =
    Some (items, rs') →
  ∃ r,
    grade_quiz_submission items answers = Some r ∧
    Forall (fun w => w = topic ∨ w ∈ topic_keywords topic) (weak_areas r) ∧
    row_topics (weak_areas_field r) = weak_areas r.
Proof.
  intros [Hstrip Hcomma] Hgen.
  destruct (generate_quiz_items_tagged _ _ _ _ _ _ _ _ _ Hgen) as [Htag Hgr].
  destruct (grade_loop_gradable answers items Hgr 0%nat (mkState 0 [] []))
    as [st Hst].
  assert (Hr : grade_quiz_submission items answers =
               Some (mkResult (st_score st) (Z.of_nat (length items))
                       (st_feedback st) (filter (fun w => w ≠ "") (st_weak st)))).
  { unfold grade_quiz_submission. by rewrite Hst. }
  assert (Hfrom : Forall (fun w => w = topic ∨ w ∈ topic_keywords topic)
                    (filter (fun w => w ≠ "") (st_weak st))).
  { apply Forall_forall. intros w [_ Hw]%list_elem_of_filter.
    destruct (grade_loop_weak _ _ _ _ _ Hst w Hw) as [Hin|(item & Hin & Hor)].
    { by apply elem_of_nil in Hin. }
    rewrite Forall_forall in Htag. destruct (Htag item Hin) as [Ht Hk].
    destruct Hor as [->|Hkw]; [left; by rewrite Ht|right; auto]. }
  eexists. split; [exact Hr|]. split; [exact Hfrom|].
  unfold weak_areas_field. cbn [weak_areas]. apply row_topics_storable.
  apply Forall_forall. intros w Hw. rewrite Forall_forall in Hfrom.
  pose proof Hw as [Hne _]%list_elem_of_filter.
  destruct (Hfrom w Hw) as [->|Hkw]; [by split|].
  by apply (topic_keyword_storable topic).
Qed.

(** Witness of [quiz_weak_areas_split_back]: the topic "linear algebra". *)
Lemma quiz_weak_areas_split_back_witness :
  ∃ items rs' r,
    generate_quiz_items "linear algebra" "Mathematics" "Easy" 1 1 false ex_random =
      Some (items, rs') ∧
    grade_quiz_submission items ∅ = Some r ∧
    row_topics (weak_areas_field r) = weak_areas r.
Proof.
  destruct (generate_quiz_items "linear algebra" "Mathematics" "Easy" 1 1 false
              ex_random) as [[items rs']|] eqn:Hgen;
    [|vm_compute in Hgen; discriminate Hgen].
  exists items, rs'.
  destruct (quiz_weak_areas_split_back "linear algebra" "Mathematics" "Easy" 1 1
              false ex_random rs' items ∅) as (r & Hr & _ & Hrt).
  - split; reflexivity.
  - exact Hgen.
  - exists r. split; [done|]. split; [exact Hr|exact Hrt].
Defined.

(** ** Weak areas in the report and in the dashboard *)

(** *** Splitting a field *)


























(** *** The two rankings *)









(** ** The first line of the report *)

Lemma occurrences_elem t l : t ∈ l → (0 < occurrences t l)%nat.
Proof.
  unfold occurrences. induction l as [|x l IH]; [by intros ?%elem_of_nil|].
  rewrite filter_cons. destruct (decide (x = t)); simpl; [lia|].
  intros [?|?]%elem_of_cons; [by subst|auto].
Qed.

(** X19. The first weak area of the report is a most frequent one: its
    count is its number of occurrences among the topics read, at least 1,
    and no string occurs more often.  The report has as many lines as there
    are distinct topics, but at most 6. *)
Theorem report_first_line_is_mode (df : list ResultRecord) :
  let topics := all_topics df in
  length (export_pdf_report_weak_areas df) =
    Nat.min 6 (length (first_occurrences topics)) ∧
  ∀ t c rest, export_pdf_report_weak_areas df = (t, c) :: rest →
    c = occurrences t topics ∧ (1 ≤ c)%nat ∧
    ∀ t', (occurrences t' topics ≤ c)%nat.
Proof.
  intros topics. unfold export_pdf_report_weak_areas.
  rewrite weak_counts_spec. fold topics.
  pose proof (sorted_desc_perm (counts_of topics)) as Hperm.
  pose proof (sorted_desc_sorted topics _ (counts_of_sorted topics)) as Hsorted.
  set (ranking := sorted_desc (counts_of topics)) in *.
  assert (Hmem : ∀ t c, (t, c) ∈ ranking ↔ t ∈ topics ∧ c = occurrences t topics).
  { intros t c. rewrite Hperm. unfold counts_of.
    rewrite list_elem_of_In, in_map_iff. split.
    - intros (t' & [= -> <-] & Hin%list_elem_of_In).
      split; [|done]. by apply (proj1 (elem_of_first_occurrences _ _)).
    - intros [Hin ->]. exists t. split; [done|].
      by apply list_elem_of_In, elem_of_first_occurrences. }
  split.
  - rewrite length_take. f_equal. rewrite (Permutation_length Hperm).
    unfold counts_of. by rewrite length_map.
  - intros t c rest Htake.
    destruct ranking as [|[t0 c0] ranking'] eqn:Hrank; [done|].
    simpl in Htake. injection Htake as -> -> _.
    destruct (proj1 (Hmem t c) ltac:(left)) as [Hin ->].
    split; [done|]. split; [by apply occurrences_elem|].
    intros t'. destruct (decide (t' ∈ topics)) as [Hin'|Hnot].
    + pose proof (proj2 (Hmem t' (occurrences t' topics)) (conj Hin' eq_refl)) as Hm.
      apply elem_of_cons in Hm as [[= -> _]|Hm]; [done|].
      apply StronglySorted_inv in Hsorted as [_ Hall].
      rewrite Forall_forall in Hall. specialize (Hall _ Hm).
      unfold ranked_before in Hall. simpl in Hall. lia.
    + rewrite occurrences_not_elem by done. lia.
Qed.

(** ** One line of flashcards *)

Lemma partition_at_app sep x rest :
  str_forall (fun c => negb (Ascii.eqb c sep)) x = true →
  partition_at sep (x +:+ String sep rest) = Some (x, rest).
Proof.
  induction x as [|c x IH].
  - intros _. rewrite str_app_nil_l. cbn [partition_at].
    by rewrite Ascii.eqb_refl.
  - cbn [str_forall]. intros [Hc Hx]%andb_true_iff. apply negb_true_iff in Hc.
    rewrite str_app_cons. cbn [partition_at]. by rewrite Hc, IH.
Qed.

Lemma strip_fixed_parts s : strip s = s → lstrip s = s ∧ rstrip s = s.
Proof.
  intros Hs. assert (Hl : lstrip s = s).
  { apply lstrip_fixed. rewrite <-Hs. apply rstrip_starts, lstrip_starts. }
  split; [done|]. unfold strip in Hs. by rewrite Hl in Hs.
Qed.

Lemma strip_padded s : s ≠ "" → strip s = s → strip (" " +:+ s +:+ " ") = s.
Proof.
  intros Hne [Hl Hr]%strip_fixed_parts. unfold strip.
  change (lstrip (" " +:+ s +:+ " ")) with (lstrip (s +:+ " ")).
  destruct s as [|c s']; [done|]. rewrite str_app_cons.
  assert (Hc : is_space c = false).
  { simpl in Hl. destruct (is_space c) eqn:Hc; [|done]. exfalso.
    assert (Hlen : (String.length (lstrip s') ≤ String.length s')%nat).
    { clear. induction s' as [|x s' IH]; [done|]. simpl.
      destruct (is_space x); simpl; lia. }
    rewrite Hl in Hlen. simpl in Hlen. lia. }
  cbn [lstrip]. rewrite Hc. rewrite <-str_app_cons, rstrip_app.
  change (is_empty (rstrip " ")) with true. cbv iota. exact Hr.
Qed.

(** X20. One line of flashcards.  A line in the format the prompt asks
    for, "Q: <q> | A: <a>", is read back as the card (q, a), for every
    trimmed non-empty question without "|" and every trimmed non-empty
    answer. *)
Theorem parse_card_formatted (q a : string) :
  q ≠ "" → strip q = q → a ≠ "" → strip a = a →
  str_forall (fun c => negb (Ascii.eqb c "|")) q = true →
  parse_card ("Q: " +:+ q +:+ " | A: " +:+ a) = Some (q, a).
Proof.
  intros Hq Hsq Ha Hsa Hbar. unfold parse_card.
  change ("Q: " +:+ q +:+ " | A: " +:+ a)
    with ("Q: " +:+ q +:+ " " +:+ String "|" (" A: " +:+ a)).
  rewrite <-!str_app_assoc, partition_at_app.
  - cbv zeta.
    change (after_first ":" ((("Q: " +:+ q) +:+ " "))) with (" " +:+ q +:+ " ").
    change (after_first ":" (" A: " +:+ a)) with (" " +:+ a).
    rewrite strip_padded by done.
    change (strip (" " +:+ a)) with (strip a). rewrite Hsa.
    destruct q; [done|]. destruct a; done.
  - rewrite !str_forall_app. by rewrite Hbar.
Qed.

(** Witness of [parse_card_formatted]. *)
Lemma parse_card_formatted_witness :
  parse_card "Q: What is a limit? | A: A value: the one approached." =
    Some ("What is a limit?", "A value: the one approached.").
Proof.
  apply (parse_card_formatted "What is a limit?" "A value: the one approached.");
    (reflexivity || discriminate).
Defined.

(** ** Exactly one option is right *)

Lemma strip_keeps_prefix c0 pfx c rest :
  is_space c0 = false → is_space c = false →
  strip (String c0 pfx +:+ String c rest) =
    String c0 pfx +:+ String c (rstrip rest).
Proof.
  intros H0 Hc. unfold strip. rewrite str_app_cons. cbn [lstrip]. rewrite H0.
  rewrite <-str_app_cons, rstrip_app, rstrip_cons, Hc. done.
Qed.

Lemma mcq_option_stripped topic subject k o :
  mcq_options topic subject !! k = Some o →
  ∃ rest, strip o = "Option " +:+ option_letter k +:+ rest.
Proof.
  unfold mcq_options. intros Hk.
  destruct k as [|[|[|[|k]]]]; simpl in Hk; try discriminate Hk;
    injection Hk as <-.
  - exists (rstrip (" related to " +:+ topic)).
    apply (strip_keeps_prefix "O" "ption " "A"); reflexivity.
  - exists (rstrip (" about " +:+ subject)).
    apply (strip_keeps_prefix "O" "ption " "B"); reflexivity.
  - exists (rstrip " factual detail").
    apply (strip_keeps_prefix "O" "ption " "C"); reflexivity.
  - exists (rstrip " common misconception").
    apply (strip_keeps_prefix "O" "ption " "D"); reflexivity.
Qed.

Lemma mcq_options_strip_inj topic subject j k o a :
  mcq_options topic subject !! j = Some o →
  mcq_options topic subject !! k = Some a →
  strip o = strip a → j = k.
Proof.
  intros Hj Hk Heq.
  destruct (mcq_option_stripped _ _ _ _ Hj) as [r1 H1].
  destruct (mcq_option_stripped _ _ _ _ Hk) as [r2 H2].
  rewrite H1, H2 in Heq. apply (String.app_inj "Option ") in Heq.
  apply lookup_lt_Some in Hj, Hk. simpl in Hj, Hk.
  destruct j as [|[|[|[|j]]]]; [..|lia];
    destruct k as [|[|[|[|k]]]]; try lia; try done; discriminate Heq.
Qed.

(** X21. Exactly one option is right.  For a generated mcq item and a
    submission that holds one of the item's four options, the item is scored
    as correct if and only if the submitted option is the item's answer: no
    other option is accepted, whatever the topic and the subject. *)
Theorem only_the_answer_scores (topic subject difficulty : string)
    (item : QuizItem) (answers : gmap string string) (idx j : nat) (o : string)
    (st : GradeState) :
  type item = "mcq" → mcq_consistent topic subject difficulty item →
  mcq_options topic subject !! j = Some o →
  answers !! ans_key idx = Some o →
  ∃ st', grade_item answers idx item st = Some st' ∧
    (st_score st' = (st_score st + 1)%Z ↔ answer item = Some o) ∧
    (st_score st' = st_score st ↔ answer item ≠ Some o).
Proof.
  intros Hty (_ & _ & _ & k & Hk & Ha & He & _) Hj Hans.
  destruct (mcq_options topic subject !! k) as [a|] eqn:Hka;
    [|apply lookup_ge_None in Hka; simpl in Hka; lia].
  unfold grade_item, user_answer. rewrite Hty, Ha, He, Hans.
  change (String.eqb "mcq" "mcq") with true. cbn -[String.eqb strip].
  destruct (String.eqb_spec (strip o) (strip a)) as [Heq|Hne].
  - pose proof (mcq_options_strip_inj _ _ _ _ _ _ Hj Hka Heq) as ->.
    assert (o = a) as -> by congruence.
    eexists. split; [reflexivity|]. simpl. split; split; try done; try lia.
  - assert (Hoa : Some a ≠ Some o) by (intros [= ->]; done).
    eexists. split; [reflexivity|]. simpl. split; split; try done; try lia.
Qed.

(** Witness of [only_the_answer_scores]: the second option of an item whose
    answer is the second option. *)
Lemma only_the_answer_scores_witness :
  ∃ st',
    grade_item {[ ans_key 0 := "Option B about Mathematics" ]} 0
      (mkItem "mcq"
         "Mathematics: On 'algebra', which option is correct? (Level: Easy)"
         (Some (mcq_options "algebra" "Mathematics"))
         (Some "Option B about Mathematics")
         (Some "The correct answer is B due to core concept alignment.")
         None None (Some "algebra")) init_state = Some st' ∧
    st_score st' = 1%Z.
Proof.
  destruct (only_the_answer_scores "algebra" "Mathematics" "Easy"
              (mkItem "mcq"
                 "Mathematics: On 'algebra', which option is correct? (Level: Easy)"
                 (Some (mcq_options "algebra" "Mathematics"))
                 (Some "Option B about Mathematics")
                 (Some "The correct answer is B due to core concept alignment.")
                 None None (Some "algebra"))
              {[ ans_key 0 := "Option B about Mathematics" ]} 0 1
              "Option B about Mathematics" init_state)
    as (st' & Hst' & Hiff & _).
  - reflexivity.
  - split_and!; [reflexivity..|]. exists 1%nat.
    split_and!; [lia|reflexivity|reflexivity|]. by eexists.
  - reflexivity.
  - reflexivity.
  - exists st'. split; [exact Hst'|]. by apply Hiff.
Defined.

(** ** A generated quiz can always be graded *)

(** X22. Every quiz of [generate_quiz_items] can be graded: for every
    answers map the grader returns a result (no key it reads with
    [item[...]] is missing), and its total is
    [max(0, num_mcq) + max(0, num_short)]. *)
Theorem generated_quiz_gradable (topic subject difficulty : string)
    (num_mcq num_short : Z) (use_llm : bool) (rs : RandomState)
    (answers : gmap string string) :
  ∃ items rs' r,
    generate_quiz_items topic subject difficulty num_mcq num_short use_llm rs =
      Some (items, rs') ∧
    grade_quiz_submission items answers = Some r ∧
    total r = (Z.max 0 num_mcq + Z.max 0 num_short)%Z.
Proof.
  destruct (generate_quiz_items_spec topic subject difficulty num_mcq num_short
              use_llm rs) as (mcqs & shorts & rs' & Hg & Hlm & Hls & _ & _).
  destruct (generate_quiz_items_tagged _ _ _ _ _ _ _ _ _ Hg) as [_ Hgr].
  destruct (grade_loop_gradable answers _ Hgr 0%nat (mkState 0 [] []))
    as [st Hst].
  exists (mcqs ++ shorts), rs'. eexists. split_and!.
  - exact Hg.
  - unfold grade_quiz_submission. rewrite Hst. reflexivity.
  - simpl. rewrite length_app. lia.
Qed.

(** ** The two averages *)

(** X23. The report and the dashboard show the same average whenever the
    int64 sum of the totals is not negative; when that sum is negative (it
    can be after a wrap-around, or with negative totals in the file) the
    dashboard shows 0 and the report the ratio. *)
Theorem averages_agree (df : list ResultRecord) :
  ((0 ≤ col_sum row_total df)%Z →
   export_pdf_report_avg df = teacher_dashboard_class_avg df) ∧
  ((col_sum row_total df < 0)%Z →
   teacher_dashboard_class_avg df = 0%float ∧
   export_pdf_report_avg df =
     ratio_pct (col_sum row_score df) (col_sum row_total df)).
Proof.
  unfold export_pdf_report_avg, teacher_dashboard_class_avg. cbv zeta.
  destruct (Z.eqb_spec (col_sum row_total df) 0) as [Hz|Hnz];
    destruct (Z.ltb_spec 0 (col_sum row_total df)) as [Hpos|Hneg];
    split; intros H; try lia; try done.
Qed.
